(** * spikesorters: the sorter lifecycle (basesorter.py) and the sorter
      registry (sorterlist.py), embedded over an explicit Python store.

    The lifecycle code is stateful: parameter dictionaries are shared,
    mutable objects, result objects are tagged in place, class attributes
    are rewritten by the path setters, and adapters are observed through
    the order of their invocations.  The embedding therefore threads one
    [world] through a small state-and-exception monad. *)

From Stdlib Require Import Ascii.
From stdpp Require Import gmap strings list fin_maps pretty sorting.

Open Scope string_scope.
Open Scope list_scope.
Open Scope nat_scope.

(** ** Python values *)

(** Immutable scalars. *)
Inductive atom :=
  | ANone
  | ABool (b : bool)
  | AInt (z : Z)
  | AFloat (num : Z) (den : positive)   (* the decimal literal num/den *)
  | AStr (s : string).

#[global] Instance atom_eq_dec : EqDecision atom.
Proof. solve_decision. Defined.

(** Object identity of a mutable container. *)
Abbreviation loc := nat (only parsing).

(** A value is a scalar or a reference to a container in the store. *)
Inductive val :=
  | VAtom (a : atom)
  | VRef (l : loc).

#[global] Instance val_eq_dec : EqDecision val.
Proof. solve_decision. Defined.

(** Containers.  A [dict] keeps its items in insertion order. *)
Inductive obj :=
  | OList (items : list val)
  | ODict (items : list (string * val)).

(** The value of a literal as written in a class body, e.g.
    [{'detect_threshold': 6, 'electrode_dimensions': None}]. *)
#[local] Unset Elimination Schemes.
Inductive pyval :=
  | PAtom (a : atom)
  | PList (items : list pyval)
  | PDict (items : list (string * pyval)).
#[local] Set Elimination Schemes.

(** ** dict operations on the item list *)

Fixpoint dict_get (k : string) (d : list (string * val)) : option val :=
  match d with
  | [] => None
  | (k', v) :: d' => if decide (k' = k) then Some v else dict_get k d'
  end.

(** [d[k] = v]: overwrite in place when the key exists, append otherwise. *)
Fixpoint dict_set (k : string) (v : val) (d : list (string * val))
  : list (string * val) :=
  match d with
  | [] => [(k, v)]
  | (k', v') :: d' =>
      if decide (k' = k) then (k', v) :: d' else (k', v') :: dict_set k v d'
  end.

Fixpoint dict_del (k : string) (d : list (string * val))
  : list (string * val) :=
  match d with
  | [] => []
  | (k', v') :: d' =>
      if decide (k' = k) then d' else (k', v') :: dict_del k d'
  end.

Definition dict_keys (d : list (string * val)) : list string := d.*1.

(** [d.update(other)] *)
Definition dict_update (other d : list (string * val)) : list (string * val) :=
  foldl (λ acc kv, dict_set kv.1 kv.2 acc) d other.

(** ** The parameter heap *)

Record heap := Heap {
  objs : gmap loc obj;
  next_loc : loc
}.

Definition heap_alloc (o : obj) (h : heap) : loc * heap :=
  (next_loc h, Heap (<[next_loc h := o]> (objs h)) (S (next_loc h))).

Definition heap_write (l : loc) (o : obj) (h : heap) : heap :=
  Heap (<[l := o]> (objs h)) (next_loc h).

(** Every stored object lives below the allocation pointer. *)
Definition heap_wf (h : heap) : Prop :=
  map_Forall (λ l _, l < next_loc h) (objs h).

(** Loops that thread the heap through the elements of a container. *)
Section thread.
Context {A B : Type}.

Section total.
Variable f : A → heap → B * heap.

Fixpoint thread_list (xs : list A) (h : heap) : list B * heap :=
      match xs with
      | [] => ([], h)
      | x :: xs' =>
          let '(y, h1) := f x h in
          let '(ys, h2) := thread_list xs' h1 in
          (y :: ys, h2)
      end.
End total.

Section partial.
Variable f : A → heap → option (B * heap).

Fixpoint thread_list_opt (xs : list A) (h : heap) : option (list B * heap) :=
      match xs with
      | [] => Some ([], h)
      | x :: xs' =>
          match f x h with
          | None => None
          | Some (y, h1) =>
              match thread_list_opt xs' h1 with
              | None => None
              | Some (ys, h2) => Some (y :: ys, h2)
              end
          end
      end.
End partial.

Section read.
Variable f : A → option B.

Fixpoint read_list (xs : list A) : option (list B) :=
      match xs with
      | [] => Some []
      | x :: xs' =>
          match f x with
          | None => None
          | Some y =>
              match read_list xs' with
              | None => None
              | Some ys => Some (y :: ys)
              end
          end
      end.
End read.

Section all2.
Variable R : A → B → Prop.

Fixpoint all2 (xs : list A) (ys : list B) : Prop :=
      match xs, ys with
      | [], [] => True
      | x :: xs', y :: ys' => R x y ∧ all2 xs' ys'
      | _, _ => False
      end.
End all2.
End thread.

(** Evaluating a literal allocates one container per list or dict. *)
Fixpoint alloc_tree (t : pyval) (h : heap) : val * heap :=
  match t with
  | PAtom a => (VAtom a, h)
  | PList ts =>
      let '(vs, h1) := thread_list alloc_tree ts h in
      let '(l, h2) := heap_alloc (OList vs) h1 in
      (VRef l, h2)
  | PDict kts =>
      let '(kvs, h1) :=
        thread_list (λ kt h, let '(v, h') := alloc_tree kt.2 h in
                             ((kt.1, v), h')) kts h in
      let '(l, h2) := heap_alloc (ODict kvs) h1 in
      (VRef l, h2)
  end.

(** [copy.deepcopy]: scalars are returned as they are, containers are
    rebuilt recursively into fresh objects.  The recursion follows
    references through the heap, so it is bounded by [fuel] (Python bounds
    it by the recursion limit); the memo table that preserves sharing is
    not needed for the tree-shaped values of class-body literals and is
    left out. *)
Fixpoint deepcopy_fuel (fuel : nat) (v : val) (h : heap) : option (val * heap) :=
  match v with
  | VAtom a => Some (VAtom a, h)
  | VRef l =>
      match fuel with
      | 0 => None
      | S fuel' =>
          match objs h !! l with
          | None => None
          | Some (OList vs) =>
              match thread_list_opt (deepcopy_fuel fuel') vs h with
              | None => None
              | Some (vs', h1) =>
                  let '(l', h2) := heap_alloc (OList vs') h1 in
                  Some (VRef l', h2)
              end
          | Some (ODict kvs) =>
              match
                thread_list_opt
                  (λ kv h, match deepcopy_fuel fuel' kv.2 h with
                           | None => None
                           | Some (v', h') => Some ((kv.1, v'), h')
                           end) kvs h
              with
              | None => None
              | Some (kvs', h1) =>
                  let '(l', h2) := heap_alloc (ODict kvs') h1 in
                  Some (VRef l', h2)
              end
          end
      end
  end.

(** The deepest nesting of containers in a literal. *)
Fixpoint depth (t : pyval) : nat :=
  match t with
  | PAtom _ => 0
  | PList ts => S (foldr (λ t n, depth t `max` n) 0 ts)
  | PDict kts => S (foldr (λ kt n, depth kt.2 `max` n) 0 kts)
  end.

(** [built lo h t v hi]: in heap [h] the value [v] is the root of a
    structure that reads back as the literal [t], whose containers live at
    locations from [lo] up to (not including) [hi], every container above
    the containers it holds, the way evaluating a literal or copying a
    structure lays them out. *)
Fixpoint built (lo : loc) (h : heap) (t : pyval) (v : val) (hi : loc) : Prop :=
  match t with
  | PAtom a => v = VAtom a
  | PList ts =>
      ∃ l vs, v = VRef l ∧ lo ≤ l < hi ∧ objs h !! l = Some (OList vs) ∧
        all2 (λ t v, built lo h t v l) ts vs
  | PDict kts =>
      ∃ l kvs, v = VRef l ∧ lo ≤ l < hi ∧ objs h !! l = Some (ODict kvs) ∧
        all2 (λ kt kv, kt.1 = kv.1 ∧ built lo h kt.2 kv.2 l) kts kvs
  end.

(** Reading a structure back as a literal. *)
Fixpoint reify (fuel : nat) (h : heap) (v : val) : option pyval :=
  match v with
  | VAtom a => Some (PAtom a)
  | VRef l =>
      match fuel with
      | 0 => None
      | S fuel' =>
          match objs h !! l with
          | None => None
          | Some (OList vs) =>
              match read_list (reify fuel' h) vs with
              | None => None
              | Some ts => Some (PList ts)
              end
          | Some (ODict kvs) =>
              match
                read_list (λ kv, match reify fuel' h kv.2 with
                                 | None => None
                                 | Some t => Some (kv.1, t)
                                 end) kvs
              with
              | None => None
              | Some kts => Some (PDict kts)
              end
          end
      end
  end.

(** ** What a caller can do to a mapping it was handed *)

Inductive key :=
  | KStr (s : string)
  | KIdx (i : nat).

(** [v[k1][k2]...] *)
Fixpoint navigate (h : heap) (v : val) (p : list key) : option val :=
  match p with
  | [] => Some v
  | k :: p' =>
      match v with
      | VAtom _ => None
      | VRef l =>
          match objs h !! l, k with
          | Some (ODict d), KStr s =>
              match dict_get s d with
              | Some v' => navigate h v' p'
              | None => None
              end
          | Some (OList vs), KIdx i =>
              match vs !! i with
              | Some v' => navigate h v' p'
              | None => None
              end
          | _, _ => None
          end
      end
  end.

(** The right-hand side of an assignment: a new literal, or an object
    reached from the mapping. *)
Inductive rvalue :=
  | RLiteral (t : pyval)
  | RPath (p : list key).

Inductive mutation :=
  | MSetItem (target : list key) (k : key) (rhs : rvalue)   (* x[k] = rhs *)
  | MDelItem (target : list key) (k : string)               (* del x[k] *)
  | MAppend (target : list key) (rhs : rvalue)              (* x.append(rhs) *)
  | MClear (target : list key).                             (* x.clear() *)

Definition eval_rvalue (root : val) (rhs : rvalue) (h : heap)
  : option (val * heap) :=
  match rhs with
  | RLiteral t => Some (alloc_tree t h)
  | RPath p =>
      match navigate h root p with
      | Some v => Some (v, h)
      | None => None
      end
  end.

(** One statement of the caller on the mapping [root]; a statement that
    raises leaves the heap as it was. *)
Definition apply_mutation (root : val) (m : mutation) (h : heap) : heap :=
  match m with
  | MSetItem target k rhs =>
      match eval_rvalue root rhs h with
      | Some (v, h1) =>
          match navigate h1 root target with
          | Some (VRef l) =>
              match objs h1 !! l, k with
              | Some (ODict d), KStr s => heap_write l (ODict (dict_set s v d)) h1
              | Some (OList vs), KIdx i =>
                  if decide (i < length vs) then heap_write l (OList (<[i := v]> vs)) h1
                  else h
              | _, _ => h
              end
          | _ => h
          end
      | None => h
      end
  | MDelItem target k =>
      match navigate h root target with
      | Some (VRef l) =>
          match objs h !! l with
          | Some (ODict d) => heap_write l (ODict (dict_del k d)) h
          | _ => h
          end
      | _ => h
      end
  | MAppend target rhs =>
      match eval_rvalue root rhs h with
      | Some (v, h1) =>
          match navigate h1 root target with
          | Some (VRef l) =>
              match objs h1 !! l with
              | Some (OList vs) => heap_write l (OList (vs ++ [v])) h1
              | _ => h
              end
          | _ => h
          end
      | None => h
      end
  | MClear target =>
      match navigate h root target with
      | Some (VRef l) =>
          match objs h !! l with
          | Some (ODict _) => heap_write l (ODict []) h
          | Some (OList _) => heap_write l (OList []) h
          | None => h
          end
      | _ => h
      end
  end.

Definition apply_mutations (root : val) (ms : list mutation) (h : heap) : heap :=
  foldl (λ h m, apply_mutation root m h) h ms.

(** ** Paths and the file system *)

(** A path is the tuple [pathlib] calls [parts]; an absolute path starts
    with the root ["/"]. *)
Definition path := list string.

Fixpoint split_on (c : Ascii.ascii) (s : string) : list string :=
  match s with
  | EmptyString => [EmptyString]
  | String a s' =>
      if decide (a = c) then EmptyString :: split_on c s'
      else match split_on c s' with
           | [] => [String a EmptyString]
           | x :: r => String a x :: r
           end
  end.

(** [Path(s)]: empty and ["."] components are dropped. *)
Definition Path (s : string) : path :=
  (if String.prefix "/" s then ["/"] else [])
    ++ filter (λ x, x ≠ "" ∧ x ≠ ".") (split_on "/"%char s).

(** [p.absolute()] in working directory [cwd]. *)
Definition absolute (cwd p : path) : path :=
  match p with
  | "/" :: _ => p
  | _ => cwd ++ p
  end.

(** [p / name] *)
Definition joinpath (p : path) (name : string) : path := p ++ [name].
Infix "//" := joinpath (at level 40, left associativity).

(** The path itself and every directory above it, as [os.makedirs]
    creates them. *)
Definition ancestors (p : path) : list path :=
  (λ n, take n p) <$> seq 1 (length p).

(** [str(p)] *)
Definition path_str (p : path) : string :=
  match p with
  | "/" :: rest => "/" +:+ String.concat "/" rest
  | _ => String.concat "/" p
  end.

(** [s[1:-1]] *)
Definition strip_ends (s : string) : string :=
  String.substring 1 (String.length s - 2) s.

(** [repr(s)] of a [str].  The characters of a string are read as the
    code points below 256.  Python writes the string between single
    quotes, or between double quotes when it holds a single quote and no
    double quote; it escapes the backslash, the enclosing quote, tab,
    newline and carriage return, and writes every other character that
    is not printable as [\xNN]. *)
Definition hex_digit (n : nat) : Ascii.ascii :=
  nth n (String.list_ascii_of_string "0123456789abcdef") "0"%char.

Definition printable (n : nat) : bool :=
  bool_decide (32 ≤ n ∧ n ≠ 127 ∧ ¬ (128 ≤ n ≤ 160) ∧ n ≠ 173)%nat.

Definition py_repr_char (quote c : Ascii.ascii) : string :=
  let n := nat_of_ascii c in
  if decide (c = "092"%char) then String "092" (String "092" "")
  else if decide (c = quote) then String "092" (String quote "")
  else if decide (c = "009"%char) then String "092" "t"
  else if decide (c = "010"%char) then String "092" "n"
  else if decide (c = "013"%char) then String "092" "r"
  else if printable n then String c ""
  else String "092"
         (String "x" (String (hex_digit (n / 16))
                        (String (hex_digit (n mod 16)) ""))).

Definition py_repr (s : string) : string :=
  let cs := String.list_ascii_of_string s in
  let quote :=
    if bool_decide ("'"%char ∈ cs ∧ "034"%char ∉ cs) then "034"%char
    else "'"%char in
  String quote
    (String.concat "" (py_repr_char quote <$> cs) +:+ String quote "").

(** [str(l)] for a list of strings: the [repr] of every item. *)
Definition py_str_list (l : list string) : string :=
  "[" +:+ String.concat ", " (py_repr <$> l) +:+ "]".

(** [s in msg] for strings. *)
Fixpoint contains (s msg : string) : bool :=
  String.prefix s msg ||
  match msg with
  | EmptyString => false
  | String _ rest => contains s rest
  end.

(** ** Exceptions *)

Inductive exn :=
  | AssertionError (msg : string)
  | RuntimeError (msg : string)
  | AttributeError (msg : string)
  | KeyError (key : string)
  | ValueError (msg : string)
  | IndexError
  | NameError
  | RecursionError
  | NotImplementedError
  | TypeError (msg : string)
  | FileExistsError (filename : string)
  | NotADirectoryError (filename : string)
  | FileNotFoundError (filename : string)
  | ToolError (msg : string).

(** [str(e)], the text an exception carries. *)
Definition exn_text (e : exn) : string :=
  match e with
  | AssertionError msg | RuntimeError msg | AttributeError msg
  | ValueError msg | TypeError msg | ToolError msg => msg
  | KeyError key => py_repr key
  | FileExistsError f => "[Errno 17] File exists: " +:+ py_repr f
  | NotADirectoryError f => "[Errno 20] Not a directory: " +:+ py_repr f
  | FileNotFoundError f =>
      "[Errno 2] No such file or directory: " +:+ py_repr f
  | IndexError | NameError | RecursionError | NotImplementedError => ""
  end.

Inductive outcome (A : Type) :=
  | Ret (a : A)
  | Raise (e : exn).
Arguments Ret {A} a.
Arguments Raise {A} e.

(** ** The recording collaborator (spikeextractors' RecordingExtractor) *)

Class RecordingExtractor (R : Type) := {
  get_shared_channel_property_names : R → list string;
  get_sub_extractors_by_property : R → string → list R;
  get_channel_ids : R → list Z;
  get_channel_property : R → Z → string → outcome atom;
  get_sampling_frequency : R → atom
}.

(** ** Result objects (spikeextractors' SortingExtractor) *)

Inductive sorting_obj :=
  | Sorting (unit_ids : list Z) (props : gmap (Z * string) atom)
            (sampling_frequency : option atom)
  | MultiSorting (sortings : list loc) (sampling_frequency : option atom).

(** ** Adapter classes *)

(** The two adapter methods the lifecycle drives. *)
Inductive method := Setup | Run.

(** How the external tool behind an adapter behaves on a partition:
    whether staging or running raises, and what the output-folder parser
    finds ([None] is Python's [None]). *)
Record external_tool (R : Type) := {
  setup_outcome : R → path → option exn;
  run_outcome : R → path → option exn;
  parse_folder : path → option (list Z * gmap (Z * string) atom)
}.
Arguments setup_outcome {R} _ _ _.
Arguments run_outcome {R} _ _ _.
Arguments parse_folder {R} _ _.

(** What a class declares in its body. *)
Record SorterClass (R : Type) := {
  cls_id : nat;
  sorter_name : string;
  requires_locations : bool;
  installation_mesg : string;
  default_params_literal : list (string * pyval);
  tool : external_tool R
}.
Arguments cls_id {R} _.
Arguments sorter_name {R} _.
Arguments requires_locations {R} _.
Arguments installation_mesg {R} _.
Arguments default_params_literal {R} _.
Arguments tool {R} _.

(** The mutable class attributes. *)
Record class_state := {
  installed : bool;
  tool_path : option string;
  _default_params : loc
}.

(** ** Observable events *)

Inductive event (R : Type) :=
  | EvCall (m : method) (recording : R) (folder : path)
  | EvReturn (m : method) (recording : R) (folder : path)
  | EvRaise (m : method) (recording : R) (folder : path) (e : exn)
  | EvPrint (text : string).
Arguments EvCall {R} m recording folder.
Arguments EvReturn {R} m recording folder.
Arguments EvRaise {R} m recording folder e.
Arguments EvPrint {R} text.

(** A thread is the sequence of steps it still has to take. *)
Record thread (R : Type) := {
  started : bool;
  pending : list (event R)
}.
Arguments started {R} _.
Arguments pending {R} _.

(** ** The world *)

Record world (R : Type) := World {
  w_heap : heap;                          (* parameter containers *)
  w_sortings : gmap loc sorting_obj;      (* result objects *)
  w_next_sorting : loc;
  w_dirs : gset path;                     (* directories on disk *)
  w_files : gset path;                    (* regular files on disk *)
  w_cwd : path;
  w_environ : gmap string string;         (* os.environ *)
  w_classes : gmap nat class_state;       (* class attributes, by class *)
  w_installed_sorter_list : list (SorterClass R);  (* sorterlist global *)
  w_trace : list (event R);               (* oldest event first *)
  w_threads : list (thread R);
  w_sched : list (option nat)             (* the scheduler's choices *)
}.
Arguments World {R}.
Arguments w_heap {R} _.
Arguments w_sortings {R} _.
Arguments w_next_sorting {R} _.
Arguments w_dirs {R} _.
Arguments w_files {R} _.
Arguments w_cwd {R} _.
Arguments w_environ {R} _.
Arguments w_classes {R} _.
Arguments w_installed_sorter_list {R} _.
Arguments w_trace {R} _.
Arguments w_threads {R} _.
Arguments w_sched {R} _.

Section setters.
Context {R : Type}.
Implicit Type w : world R.

Definition set_heap (h : heap) w : world R :=
  World h (w_sortings w) (w_next_sorting w) (w_dirs w) (w_files w) (w_cwd w)
    (w_environ w) (w_classes w) (w_installed_sorter_list w) (w_trace w)
    (w_threads w) (w_sched w).

Definition set_sortings (s : gmap loc sorting_obj) (n : loc) w : world R :=
  World (w_heap w) s n (w_dirs w) (w_files w) (w_cwd w)
    (w_environ w) (w_classes w) (w_installed_sorter_list w) (w_trace w)
    (w_threads w) (w_sched w).

Definition set_dirs (d : gset path) w : world R :=
  World (w_heap w) (w_sortings w) (w_next_sorting w) d (w_files w) (w_cwd w)
    (w_environ w) (w_classes w) (w_installed_sorter_list w) (w_trace w)
    (w_threads w) (w_sched w).

Definition set_files (f : gset path) w : world R :=
  World (w_heap w) (w_sortings w) (w_next_sorting w) (w_dirs w) f (w_cwd w)
    (w_environ w) (w_classes w) (w_installed_sorter_list w) (w_trace w)
    (w_threads w) (w_sched w).

Definition set_environ (e : gmap string string) w : world R :=
  World (w_heap w) (w_sortings w) (w_next_sorting w) (w_dirs w) (w_files w)
    (w_cwd w) e (w_classes w) (w_installed_sorter_list w) (w_trace w)
    (w_threads w) (w_sched w).

Definition set_classes (c : gmap nat class_state) w : world R :=
  World (w_heap w) (w_sortings w) (w_next_sorting w) (w_dirs w) (w_files w)
    (w_cwd w) (w_environ w) c (w_installed_sorter_list w) (w_trace w)
    (w_threads w) (w_sched w).

Definition set_installed_sorter_list (l : list (SorterClass R)) w : world R :=
  World (w_heap w) (w_sortings w) (w_next_sorting w) (w_dirs w) (w_files w)
    (w_cwd w) (w_environ w) (w_classes w) l (w_trace w)
    (w_threads w) (w_sched w).

Definition set_trace (t : list (event R)) w : world R :=
  World (w_heap w) (w_sortings w) (w_next_sorting w) (w_dirs w) (w_files w)
    (w_cwd w) (w_environ w) (w_classes w) (w_installed_sorter_list w) t
    (w_threads w) (w_sched w).

Definition set_threads (ts : list (thread R)) (sc : list (option nat)) w
    : world R :=
    World (w_heap w) (w_sortings w) (w_next_sorting w) (w_dirs w) (w_files w)
      (w_cwd w) (w_environ w) (w_classes w) (w_installed_sorter_list w)
      (w_trace w) ts sc.
End setters.

(** ** The state-and-exception monad *)

Definition M (R A : Type) : Type := world R → outcome A * world R.

#[global] Instance M_ret {R} : MRet (M R) := λ A a w, (Ret a, w).

#[global] Instance M_bind {R} : MBind (M R) := λ A B f m w,
  match m w with
  | (Ret a, w') => f a w'
  | (Raise e, w') => (Raise e, w')
  end.

Section primitives.
Context {R : Type}.

Definition raise {A} (e : exn) : M R A := λ w, (Raise e, w).

Definition gets {A} (f : world R → A) : M R A := λ w, (Ret (f w), w).

Definition modify (f : world R → world R) : M R unit := λ w, (Ret tt, f w).

(** A collaborator call that may raise. *)
Definition lift_outcome {A} (o : outcome A) : M R A := λ w, (o, w).

(** [assert c, msg] *)
Definition py_assert (c : bool) (msg : string) : M R unit :=
  if c then mret tt else raise (AssertionError msg).

(** [l[i]] *)
Definition index {A} (l : list A) (i : nat) : M R A :=
  match l !! i with
  | Some x => mret x
  | None => raise IndexError
  end.

(** [for x in l: body(x)] *)
Fixpoint for_each {A} (l : list A) (body : A → M R unit) : M R unit :=
  match l with
  | [] => mret tt
  | x :: l' => body x ;; for_each l' body
  end.

(** A loop that appends one result per element to a list. *)
Fixpoint collect {A B} (l : list A) (body : A → M R B) : M R (list B) :=
  match l with
  | [] => mret []
  | x :: l' => y ← body x; ys ← collect l' body; mret (y :: ys)
  end.

(** [enumerate(l)] *)
Definition enumerate {A} (l : list A) : list (nat * A) :=
  zip (seq 0 (length l)) l.

Definition emit (ev : event R) : M R unit :=
  modify (λ w, set_trace (w_trace w ++ [ev]) w).

Definition print (text : string) : M R unit := emit (EvPrint text).
End primitives.

(** ** basesorter.py *)

(** One lifecycle instance.  Every attribute is bound once, in
    [__init__]; [params] is a reference to a dict that is updated in
    place. *)
Record BaseSorter (R : Type) := {
  cls : SorterClass R;
  verbose : bool;
  grouping_property : option string;
  parallel : bool;
  params : val;
  recording_list : list R;
  output_folders : list path;
  delete_folders : bool
}.
Arguments Build_BaseSorter {R}.
Arguments cls {R} _.
Arguments verbose {R} _.
Arguments grouping_property {R} _.
Arguments parallel {R} _.
Arguments params {R} _.
Arguments recording_list {R} _.
Arguments output_folders {R} _.
Arguments delete_folders {R} _.

Section store_operations.
Context {R : Type}.

(** [copy.deepcopy(v)], with the number of allocated objects as bound. *)
Definition deepcopy (v : val) : M R val := λ w,
  match deepcopy_fuel (next_loc (w_heap w)) v (w_heap w) with
  | Some (v', h') => (Ret v', set_heap h' w)
  | None => (Raise RecursionError, w)
  end.

(** The items of the dict [v] refers to. *)
Definition dict_items (v : val) : M R (list (string * val)) := λ w,
  match v with
  | VRef l =>
      match objs (w_heap w) !! l with
      | Some (ODict d) => (Ret d, w)
      | _ => (Raise (AttributeError "not a dict"), w)
      end
  | VAtom _ => (Raise (AttributeError "not a dict"), w)
  end.

(** [v.update(other)] *)
Definition dict_method_update (v : val) (other : list (string * val))
  : M R unit := λ w,
  match v with
  | VRef l =>
      match objs (w_heap w) !! l with
      | Some (ODict d) =>
          (Ret tt, set_heap (heap_write l (ODict (dict_update other d))
                               (w_heap w)) w)
      | _ => (Raise (AttributeError "update"), w)
      end
  | VAtom _ => (Raise (AttributeError "update"), w)
  end.

Definition class_attrs (C : SorterClass R) : M R class_state := λ w,
  match w_classes w !! cls_id C with
  | Some st => (Ret st, w)
  | None => (Raise NameError, w)
  end.

(** The class statement: the body's literal is evaluated into a new
    dict and the class attributes are bound. *)
Definition define_class (C : SorterClass R) (tool_path : option string)
    (installed : bool) : M R unit := λ w,
  match alloc_tree (PDict (default_params_literal C)) (w_heap w) with
  | (VRef l, h) =>
      (Ret tt,
       set_classes (<[cls_id C := {| installed := installed;
                                     tool_path := tool_path;
                                     _default_params := l |}]> (w_classes w))
         (set_heap h w))
  | (VAtom _, _) => (Raise NameError, w)
  end.

Definition set_class_attrs (C : SorterClass R) (st : class_state)
  : M R unit :=
  modify (λ w, set_classes (<[cls_id C := st]> (w_classes w)) w).

Definition is_dir (p : path) : M R bool :=
  gets (λ w, bool_decide (p ∈ w_dirs w)).

Definition is_file (p : path) : M R bool :=
  gets (λ w, bool_decide (p ∈ w_files w)).

(** [os.path.exists(p)] *)
Definition path_exists (p : path) : M R bool :=
  gets (λ w, bool_decide (p ∈ w_dirs w ∨ p ∈ w_files w)).

(** [try: m except FileExistsError: pass] *)
Definition except_FileExistsError (m : M R unit) : M R unit := λ w,
  match m w with
  | (Raise (FileExistsError _), w') => (Ret tt, w')
  | r => r
  end.

(** [os.mkdir(p)]: the path must not exist and the directory above it
    must; a path of one part lies in the root of its name space. *)
Definition mkdir (p : path) : M R unit := λ w,
  if bool_decide (p ∈ w_dirs w ∨ p ∈ w_files w) then
    (Raise (FileExistsError (path_str p)), w)
  else
    let head := take (length p - 1) p in
    if bool_decide (head = [] ∨ head ∈ w_dirs w) then
      (Ret tt, set_dirs (w_dirs w ∪ {[ p ]}) w)
    else if bool_decide (head ∈ w_files w) then
      (Raise (NotADirectoryError (path_str p)), w)
    else (Raise (FileNotFoundError (path_str p)), w).

(** [os.makedirs] on the first [k] parts of [p]: when the directory
    above is missing it is made first, by the same function; then the
    directory itself is made. *)
Fixpoint makedirs_upto (k : nat) (p : path) : M R unit :=
  match k with
  | 0 => mret tt
  | S k' =>
      let head := take k' p in
      (if bool_decide (head ≠ []) then
         e ← path_exists head;
         if negb e then except_FileExistsError (makedirs_upto k' p)
         else mret tt
       else mret tt);;
      mkdir (take (S k') p)
  end.

(** [os.makedirs(p)]; the empty path is the current directory, which
    exists. *)
Definition makedirs (p : path) : M R unit :=
  match p with
  | [] => raise (FileExistsError ".")
  | _ => makedirs_upto (length p) p
  end.

(** [shutil.rmtree(p, ignore_errors=True)] *)
Definition rmtree (p : path) : M R unit :=
  modify (λ w,
    set_files (filter (λ q, ¬ p `prefix_of` q) (w_files w))
      (set_dirs (filter (λ q, ¬ p `prefix_of` q) (w_dirs w)) w)).

(** Modelled from the spec: the result objects of the spikeextractors
    collaborator, which is not part of this repository.  A result object
    exposes its unit ids and settable per-unit properties and a settable
    sampling frequency. *)
Definition new_sorting (o : sorting_obj) : M R loc := λ w,
  (Ret (w_next_sorting w),
   set_sortings (<[w_next_sorting w := o]> (w_sortings w))
     (S (w_next_sorting w)) w).

Definition get_unit_ids (l : loc) : M R (list Z) := λ w,
  match w_sortings w !! l with
  | Some (Sorting us _ _) => (Ret us, w)
  | _ => (Raise (AttributeError "get_unit_ids"), w)
  end.

Definition set_unit_property (l : loc) (unit_id : Z) (name : string) (v : atom)
  : M R unit := λ w,
  match w_sortings w !! l with
  | Some (Sorting us props sf) =>
      (Ret tt, set_sortings (<[l := Sorting us (<[(unit_id, name) := v]> props) sf]>
                               (w_sortings w)) (w_next_sorting w) w)
  | _ => (Raise (AttributeError "set_unit_property"), w)
  end.

Definition set_sampling_frequency (l : loc) (sf : atom) : M R unit := λ w,
  match w_sortings w !! l with
  | Some (Sorting us props _) =>
      (Ret tt, set_sortings (<[l := Sorting us props (Some sf)]> (w_sortings w))
                 (w_next_sorting w) w)
  | Some (MultiSorting ls _) =>
      (Ret tt, set_sortings (<[l := MultiSorting ls (Some sf)]> (w_sortings w))
                 (w_next_sorting w) w)
  | None => (Raise (AttributeError "set_sampling_frequency"), w)
  end.

(** Modelled from the spec: [se.MultiSortingExtractor(sortings=...)] of
    the spikeextractors collaborator.  The merged object keeps
    references to its constituents; it exposes the union of their units
    and reads each unit's properties from the constituent that holds
    it. *)
Definition MultiSortingExtractor (sortings : list loc) : M R loc :=
  new_sorting (MultiSorting sortings None).

(** The units a result object exposes, each with the object that holds
    its properties. *)
Definition own_units (s : gmap loc sorting_obj) (l : loc) : list (loc * Z) :=
  match s !! l with
  | Some (Sorting us _ _) => (λ u, (l, u)) <$> us
  | _ => []
  end.

Definition exposed_units (s : gmap loc sorting_obj) (l : loc)
  : list (loc * Z) :=
  match s !! l with
  | Some (Sorting us _ _) => own_units s l
  | Some (MultiSorting ls _) => ls ≫= own_units s
  | None => []
  end.

Definition unit_property (s : gmap loc sorting_obj) (lu : loc * Z)
    (name : string) : option atom :=
  match s !! lu.1 with
  | Some (Sorting _ props _) => props !! (lu.2, name)
  | _ => None
  end.

(** *** Threads *)

Definition set_sched (sc : list (option nat)) (w : world R) : world R :=
  set_threads (w_threads w) sc w.

(** [threading.Thread(target=..., args=...)]: the target is recorded as
    the steps it will take; the result is the thread's handle. *)
Definition Thread_new (steps : list (event R)) : M R nat := λ w,
  (Ret (length (w_threads w)),
   set_threads (w_threads w ++ [{| started := false; pending := steps |}])
     (w_sched w) w).

(** Thread [t] takes its next step, if it is running and has one. *)
Definition step_thread (t : nat) (w : world R) : world R :=
  match w_threads w !! t with
  | Some th =>
      match started th, pending th with
      | true, ev :: rest =>
          set_trace (w_trace w ++ [ev])
            (set_threads (<[t := {| started := true; pending := rest |}]>
                            (w_threads w)) (w_sched w) w)
      | _, _ => w
      end
  | None => w
  end.

(** The scheduler lets the threads it chooses run until it hands control
    back to the main thread ([None]). *)
Fixpoint run_others (sched : list (option nat)) (w : world R) : world R :=
  match sched with
  | [] => set_sched [] w
  | None :: rest => set_sched rest w
  | Some t :: rest => run_others rest (step_thread t w)
  end.

Definition thread_finished (t : nat) (w : world R) : bool :=
  match w_threads w !! t with
  | Some th => bool_decide (pending th = [])
  | None => true
  end.

(** Thread [t] runs to its end. *)
Definition drain (t : nat) (w : world R) : world R :=
  match w_threads w !! t with
  | Some th =>
      set_trace (w_trace w ++ pending th)
        (set_threads (<[t := {| started := started th; pending := [] |}]>
                        (w_threads w)) (w_sched w) w)
  | None => w
  end.

(** The main thread is blocked until [t] has finished; meanwhile the
    scheduler runs the threads it chooses, and [t] itself once it has no
    choice left. *)
Fixpoint wait_for (t : nat) (sched : list (option nat)) (w : world R)
  : world R :=
  if thread_finished t w then set_sched sched w
  else match sched with
       | [] => set_sched [] (drain t w)
       | None :: rest => wait_for t rest w
       | Some u :: rest => wait_for t rest (step_thread u w)
       end.

(** [thread.start()] *)
Definition Thread_start (t : nat) : M R unit := λ w,
  match w_threads w !! t with
  | Some th =>
      if started th then (Raise (RuntimeError "threads can only be started once"), w)
      else
        let w1 := set_threads (<[t := {| started := true; pending := pending th |}]>
                                 (w_threads w)) (w_sched w) w in
        (Ret tt, run_others (w_sched w1) w1)
  | None => (Raise NameError, w)
  end.

(** [thread.join()] *)
Definition Thread_join (t : nat) : M R unit := λ w,
    match w_threads w !! t with
    | Some th =>
        if started th then (Ret tt, wait_for t (w_sched w) w)
        else (Raise (RuntimeError "cannot join thread before it is started"), w)
    | None => (Raise NameError, w)
    end.
End store_operations.

Section BaseSorter.
Context {R : Type} `{!RecordingExtractor R}.

(** How the adapter's [_setup_recording] or [_run] ends on a partition. *)
Definition adapter_outcome (C : SorterClass R) (m : method)
    (recording : R) (folder : path) : option exn :=
  match m with
  | Setup => setup_outcome (tool C) recording folder
  | Run => run_outcome (tool C) recording folder
  end.

(** The steps of one adapter invocation. *)
Definition adapter_steps (C : SorterClass R) (m : method)
    (recording : R) (folder : path) : list (event R) :=
  [EvCall m recording folder;
   match adapter_outcome C m recording folder with
   | None => EvReturn m recording folder
   | Some e => EvRaise m recording folder e
   end].

(** An adapter invocation on the calling thread. *)
Definition invoke (C : SorterClass R) (m : method) (recording : R)
    (folder : path) : M R unit :=
  emit (EvCall m recording folder);;
  match adapter_outcome C m recording folder with
  | None => emit (EvReturn m recording folder)
  | Some e => emit (EvRaise m recording folder e);; raise e
  end.

Definition _setup_recording (self : BaseSorter R) (recording : R)
    (output_folder : path) : M R unit :=
  invoke (cls self) Setup recording output_folder.

Definition _run (self : BaseSorter R) (recording : R) (output_folder : path)
  : M R unit :=
  invoke (cls self) Run recording output_folder.

(** The adapter's static parser builds a new result object, or returns
    [None]. *)
Definition get_result_from_folder (C : SorterClass R) (output_folder : path)
  : M R (option loc) :=
  match parse_folder (tool C) output_folder with
  | None => mret None
  | Some (units, props) =>
      l ← new_sorting (Sorting units props None); mret (Some l)
  end.

(** [BaseSorter.default_params] (classmethod) *)
Definition default_params (C : SorterClass R) : M R val :=
  st ← class_attrs C;
  deepcopy (VRef (_default_params st)).

(** [BaseSorter.__init__] *)
Definition __init__ (C : SorterClass R) (recording : R)
    (output_folder : option string) (verbose : bool)
    (grouping_property : option string) (parallel : bool)
    (delete_output_folder : bool) : M R (BaseSorter R) :=
  st ← class_attrs C;
  py_assert (installed st)
    ("This sorter " +:+ sorter_name C +:+ " is not installed. " +:+
     installation_mesg C);;
  (if requires_locations C then
     if bool_decide ("location" ∈ get_shared_channel_property_names recording)
     then mret tt
     else raise (RuntimeError "Channel locations are required for this spike sorter.")
   else mret tt);;
  params ← default_params C;
  let output_folder :=
    match output_folder with
    | None => "tmp_" +:+ sorter_name C
    | Some s => s
    end in
  cwd ← gets w_cwd;
  let output_folder := absolute cwd (Path output_folder) in
  let '(recording_list, output_folders) :=
    match grouping_property with
    | None =>
        (* only one groups *)
        ([recording], [output_folder])
    | Some key =>
        (* several groups *)
        let recording_list := get_sub_extractors_by_property recording key in
        let n_group := length recording_list in
        if (1 <? n_group)%nat then
          (recording_list, (λ i, output_folder // pretty i) <$> seq 0 n_group)
        else
          (recording_list, [output_folder // pretty 0])
    end in
  (* make folders *)
  for_each output_folders (λ output_folder,
    d ← is_dir output_folder;
    if negb d then makedirs output_folder else mret tt);;
  mret (Build_BaseSorter C verbose grouping_property parallel params
          recording_list output_folders delete_output_folder).

(** [BaseSorter.set_params]; [kv] holds the keyword arguments in order.
    Python binds them before the body runs: a key named [self] collides
    with the method's own first parameter, and the call fails. *)
Definition set_params (self : BaseSorter R) (kv : list (string * val))
  : M R unit :=
  if bool_decide ("self" ∈ kv.*1) then
    raise (TypeError "set_params() got multiple values for argument 'self'")
  else
  bad_params ← collect kv.*1 (λ p,
    st ← class_attrs (cls self);
    defaults ← dict_items (VRef (_default_params st));
    mret (if bool_decide (p ∈ dict_keys defaults) then [] else [p]));
  let bad_params := concat bad_params in
  if (0 <? length bad_params)%nat then
    raise (AttributeError ("Bad parameters: " +:+ py_str_list bad_params))
  else dict_method_update (params self) kv.

(** [BaseSorter.run].  The elapsed wall-clock time it measures and
    returns is not modelled. *)
Definition run (self : BaseSorter R) : M R unit :=
  for_each (enumerate (recording_list self)) (λ '(i, recording),
    folder ← index (output_folders self) i;
    _setup_recording self recording folder);;
  (if negb (parallel self) then
     for_each (enumerate (recording_list self)) (λ '(i, recording),
       folder ← index (output_folders self) i;
       _run self recording folder)
   else
     (* run in threads *)
     threads ← collect (enumerate (recording_list self)) (λ '(i, recording),
       folder ← index (output_folders self) i;
       thread ← Thread_new (adapter_steps (cls self) Run recording folder);
       Thread_start thread;;
       mret thread);
     for_each threads Thread_join);;
  (if verbose self then print (sorter_name (cls self) +:+ " run time")
   else mret tt).

(** [BaseSorter.get_result_list] *)
Definition get_result_list (self : BaseSorter R) : M R (list (option loc)) :=
  collect (enumerate (recording_list self)) (λ '(i, _),
    folder ← index (output_folders self) i;
    get_result_from_folder (cls self) folder).

(** [BaseSorter.get_result] *)
Definition get_result (self : BaseSorter R) : M R (option loc) :=
    sorting_list ← get_result_list self;
    sorting ←
      (if bool_decide (length sorting_list = 1) then index sorting_list 0
       else
         for_each (enumerate sorting_list) (λ '(i, sorting),
           recording ← index (recording_list self) i;
           channel ← index (get_channel_ids recording) 0;
           group ← lift_outcome (get_channel_property recording channel "group");
           match sorting with
           | Some s =>
               units ← get_unit_ids s;
               for_each units (λ unit_id, set_unit_property s unit_id "group" group)
           | None => mret tt
           end);;
         (* reassemble the sorting outputs *)
         let sorting_list := omap id sorting_list in
         multi_sorting ← MultiSortingExtractor sorting_list;
         mret (Some multi_sorting));
    (if delete_folders self then
       for_each (output_folders self) (λ out,
         (if verbose self then print ("Removing " +:+ path_str out)
          else mret tt);;
         rmtree out)
     else mret tt);;
    match sorting with
    | None =>
        raise (AttributeError
                 "'NoneType' object has no attribute 'set_sampling_frequency'")
    | Some s =>
        recording ← index (recording_list self) 0;
        set_sampling_frequency s (get_sampling_frequency recording)
    end;;
    mret sorting.
End BaseSorter.

(** ** kilosort/kilosort.py and kilosort2/kilosort2.py *)

Definition starts_with_quote (s : string) : bool :=
  match s with
  | String c _ => bool_decide (c = "034"%char)
  | EmptyString => false
  end.

Module kilosort.
Section kilosort.
Context {R : Type}.
Variable kilosort_tool : external_tool R.

Definition check_if_installed (kilosort_path : option string) : M R bool :=
  match kilosort_path with
  | None => mret false
  | Some kilosort_path =>
      let kilosort_path :=
        if starts_with_quote kilosort_path then strip_ends kilosort_path
        else kilosort_path in
      cwd ← gets w_cwd;
      let kilosort_path := absolute cwd (Path kilosort_path) in
      is_file (kilosort_path // "preprocessData.m")
  end.

Definition KilosortSorter : SorterClass R := {|
    cls_id := 4;
    sorter_name := "kilosort";
    requires_locations := false;
    installation_mesg :=
      "To use Kilosort run: >>> git clone https://github.com/cortex-lab/KiloSort and provide the installation path by setting the KILOSORT_PATH environment variables or using KilosortSorter.set_kilosort_path().";
    default_params_literal :=
      [("detect_threshold", PAtom (AInt 6));
       ("car", PAtom (ABool true));
       ("useGPU", PAtom (ABool true));
       ("electrode_dimensions", PAtom ANone);
       ("freq_min", PAtom (AInt 300));
       ("freq_max", PAtom (AInt 6000))];
    tool := kilosort_tool
  |}.

(** The class statement, executed when the module is imported. *)
Definition class_body : M R unit :=
  kilosort_path ← gets (λ w, w_environ w !! "KILOSORT_PATH");
  installed ← check_if_installed kilosort_path;
  define_class KilosortSorter kilosort_path installed.

Definition set_kilosort_path (kilosort_path : string) : M R unit :=
      st ← class_attrs KilosortSorter;
      set_class_attrs KilosortSorter
        {| installed := installed st; tool_path := Some kilosort_path;
           _default_params := _default_params st |};;
      st ← class_attrs KilosortSorter;
      installed ← check_if_installed (tool_path st);
      set_class_attrs KilosortSorter
        {| installed := installed; tool_path := tool_path st;
           _default_params := _default_params st |};;
      print ("Setting KILOSORT_PATH environment variable for subprocess calls to: "
               +:+ kilosort_path);;
      modify (λ w, set_environ (<["KILOSORT_PATH" := kilosort_path]> (w_environ w)) w).
End kilosort.
End kilosort.

Module kilosort2.
Section kilosort2.
Context {R : Type}.
Variable kilosort2_tool : external_tool R.

Definition check_if_installed (kilosort2_path : option string) : M R bool :=
  match kilosort2_path with
  | None => mret false
  | Some kilosort2_path =>
      let kilosort2_path :=
        if starts_with_quote kilosort2_path then strip_ends kilosort2_path
        else kilosort2_path in
      cwd ← gets w_cwd;
      let kilosort2_path := absolute cwd (Path kilosort2_path) in
      is_file (kilosort2_path // "master_kilosort.m")
  end.

Definition Kilosort2Sorter : SorterClass R := {|
    cls_id := 5;
    sorter_name := "kilosort2";
    requires_locations := false;
    installation_mesg :=
      "To use Kilosort2 run: >>> git clone https://github.com/MouseLand/Kilosort2 and provide the installation path by setting the KILOSORT2_PATH environment variables or using Kilosort2Sorter.set_kilosort2_path().";
    default_params_literal :=
      [("detect_threshold", PAtom (AInt 5));
       ("car", PAtom (ABool true));
       ("minFR", PAtom (AFloat 1 10));
       ("electrode_dimensions", PAtom ANone);
       ("freq_min", PAtom (AInt 150));
       ("sigmaMask", PAtom (AInt 30));
       ("nPCs", PAtom (AInt 3))];
    tool := kilosort2_tool
  |}.

Definition class_body : M R unit :=
  kilosort2_path ← gets (λ w, w_environ w !! "KILOSORT2_PATH");
  installed ← check_if_installed kilosort2_path;
  define_class Kilosort2Sorter kilosort2_path installed.

Definition set_kilosort2_path (kilosort2_path : string) : M R unit :=
      st ← class_attrs Kilosort2Sorter;
      set_class_attrs Kilosort2Sorter
        {| installed := installed st; tool_path := Some kilosort2_path;
           _default_params := _default_params st |};;
      st ← class_attrs Kilosort2Sorter;
      installed ← check_if_installed (tool_path st);
      set_class_attrs Kilosort2Sorter
        {| installed := installed; tool_path := tool_path st;
           _default_params := _default_params st |};;
      print ("Setting KILOSORT2_PATH environment variable for subprocess calls to: "
               +:+ kilosort2_path);;
      modify (λ w, set_environ (<["KILOSORT2_PATH" := kilosort2_path]> (w_environ w)) w).
End kilosort2.
End kilosort2.

(** ** sorterlist.py *)

(** What a caller may pass as [sorter_name_or_class]. *)
Inductive name_or_class (R : Type) :=
  | ArgStr (name : string)
  | ArgClass (C : SorterClass R)
  | ArgOther (a : atom).
Arguments ArgStr {R} name.
Arguments ArgClass {R} C.
Arguments ArgOther {R} a.

(** [sorted] on strings. *)
Definition sorted (l : list string) : list string := merge_sort String.le l.

Section sorterlist.
Context {R : Type} `{!RecordingExtractor R}.

(** The adapter classes whose modules are not among the sources, and the
    external tools behind the two that are. *)
Variables KlustaSorter TridesclousSorter Mountainsort4Sorter IronClustSorter
    SpykingcircusSorter HerdingspikesSorter WaveClusSorter : SorterClass R.
Variables kilosort_tool kilosort2_tool : external_tool R.

Definition sorter_full_list : list (SorterClass R) :=
  [KlustaSorter;
   TridesclousSorter;
   Mountainsort4Sorter;
   IronClustSorter;
   kilosort.KilosortSorter kilosort_tool;
   kilosort2.Kilosort2Sorter kilosort2_tool;
   SpykingcircusSorter;
   HerdingspikesSorter;
   WaveClusSorter].

(** [{s.sorter_name: s for s in sorter_full_list}]: a later class
    replaces an earlier one of the same name. *)
Definition sorter_dict : gmap string (SorterClass R) :=
  foldl (λ d s, <[sorter_name s := s]> d) ∅ sorter_full_list.

(** The module body: [installed_sorter_list] is bound when the module is
    imported. *)
Definition import_sorterlist : M R unit :=
  l ← collect sorter_full_list (λ s,
    st ← class_attrs s;
    mret (if installed st then [s] else []));
  modify (set_installed_sorter_list (concat l)).

(** [x in sorter_full_list]: classes are compared by identity. *)
Definition class_in (C : SorterClass R) (l : list (SorterClass R)) : bool :=
  existsb (λ C', cls_id C =? cls_id C')%nat l.

Definition run_sorter (sorter_name_or_class : name_or_class R) (recording : R)
    (output_folder : option string) (delete_output_folder : bool)
    (grouping_property : option string) (parallel verbose : bool)
    (kv : list (string * val)) : M R (option loc) :=
  SorterClass ←
    match sorter_name_or_class with
    | ArgStr name =>
        match sorter_dict !! name with
        | Some C => mret C
        | None => raise (KeyError name)
        end
    | ArgClass C =>
        if class_in C sorter_full_list then mret C
        else raise (ValueError "Unknown sorter")
    | ArgOther _ => raise (ValueError "Unknown sorter")
    end;
  sorter ← __init__ SorterClass recording output_folder verbose
             grouping_property parallel delete_output_folder;
  set_params sorter kv;;
  run sorter;;
  get_result sorter.

Definition available_sorters : M R (list string) :=
  mret (sorted (map_to_list sorter_dict).*1).

Definition installed_sorters : M R (list string) :=
  l ← gets w_installed_sorter_list;
  mret (sorted (sorter_name <$> l)).

Definition get_default_params (sorter_name_or_class : name_or_class R)
  : M R val :=
  SorterClass ←
    match sorter_name_or_class with
    | ArgStr name =>
        match sorter_dict !! name with
        | Some C => mret C
        | None => raise (KeyError name)
        end
    | ArgClass C =>
        if class_in C sorter_full_list then mret C
        else raise (ValueError "Unknown sorter")
    | ArgOther _ => raise (ValueError "Unknown sorter")
    end;
  default_params SorterClass.

(** The aliases, which pass their arguments on under a fixed name. *)
Definition run_klusta := run_sorter (ArgStr "klusta").
Definition run_tridesclous := run_sorter (ArgStr "tridesclous").
Definition run_mountainsort4 := run_sorter (ArgStr "mountainsort4").
Definition run_ironclust := run_sorter (ArgStr "ironclust").
Definition run_kilosort := run_sorter (ArgStr "kilosort").
Definition run_kilosort2 := run_sorter (ArgStr "kilosort2").
Definition run_spykingcircus := run_sorter (ArgStr "spykingcircus").
Definition run_herdingspikes := run_sorter (ArgStr "herdingspikes").
Definition run_waveclus := run_sorter (ArgStr "waveclus").

(** *** Notions used in the statements about dispatch *)

(** [arg] is neither a registered name nor a registered class. *)
Definition unregistered (arg : name_or_class R) : Prop :=
  match arg with
  | ArgStr name => sorter_dict !! name = None
  | ArgClass C => class_in C sorter_full_list = false
  | ArgOther _ => True
  end.

(** [arg] names the registered class [C]. *)
Definition resolves (arg : name_or_class R) (C : SorterClass R) : Prop :=
  match arg with
  | ArgStr name => sorter_dict !! name = Some C
  | ArgClass C' => C' = C ∧ class_in C sorter_full_list = true
  | ArgOther _ => False
  end.

(** The error dispatch raises for an unregistered argument. *)
Definition dispatch_error (arg : name_or_class R) : exn :=
  match arg with
  | ArgStr name => KeyError name
  | ArgClass _ | ArgOther _ => ValueError "Unknown sorter"
  end.

(** The reading of the dispatch contract under which one error serves
    every unregistered argument, name or class. *)
Definition single_unknown_sorter_error : Prop :=
    ∃ err, ∀ arg, unregistered arg →
      ∀ recording output_folder delete_output_folder grouping_property
        parallel verbose kv w,
        run_sorter arg recording output_folder delete_output_folder
          grouping_property parallel verbose kv w = (Raise err, w) ∧
        get_default_params arg w = (Raise err, w).
End sorterlist.


(** ** Notions used in the statements *)

(** The two heaps hold the same objects below [n]. *)
Definition agree_below (n : loc) (h h' : heap) : Prop :=
  ∀ l, l < n → objs h' !! l = objs h !! l.

Definition val_ge (n : loc) (v : val) : Prop :=
  match v with
  | VRef l => n ≤ l
  | VAtom _ => True
  end.

Definition refs_ge (n : loc) (o : obj) : Prop :=
  match o with
  | OList vs => Forall (val_ge n) vs
  | ODict kvs => Forall (λ kv, val_ge n kv.2) kvs
  end.

(** The objects from [n] on only refer to objects from [n] on. *)
Definition closed_from (n : loc) (h : heap) : Prop :=
  heap_wf h ∧ ∀ l o, n ≤ l → objs h !! l = Some o → refs_ge n o.

(** What allocating or copying a structure [t] from heap [h] guarantees
    about the resulting root [v] and heap [h']. *)
Definition fresh_copy (n : loc) (h : heap) (t : pyval) (v : val) (h' : heap)
  : Prop :=
  closed_from n h' ∧ next_loc h ≤ next_loc h' ∧
  agree_below (next_loc h) h h' ∧
  built (next_loc h) h' t v (next_loc h') ∧ val_ge n v.

(** The guarantee of one statement, and of any number of them. *)
Definition stays_above (n : loc) (h h' : heap) : Prop :=
  closed_from n h' ∧ next_loc h ≤ next_loc h' ∧ agree_below n h h'.

(** Reading a structure back, with the number of allocated objects as
    bound. *)
Definition read_back (h : heap) (v : val) : option pyval :=
  reify (next_loc h) h v.

(** The class statement of [C] has been executed: its attributes are
    bound, and [_default_params] refers to the dict its literal evaluated
    to. *)
Definition class_defined {R} (C : SorterClass R) (w : world R) : Prop :=
  ∃ st, w_classes w !! cls_id C = Some st ∧ heap_wf (w_heap w) ∧
    built 0 (w_heap w) (PDict (default_params_literal C))
      (VRef (_default_params st)) (S (_default_params st)).

(** The base output directory [__init__] computes. *)
Definition base_folder {R} (C : SorterClass R) (output_folder : option string)
    (w : world R) : path :=
  absolute (w_cwd w)
    (Path (match output_folder with
           | None => "tmp_" +:+ sorter_name C
           | Some s => s
           end)).

(** [msg] contains [s]. *)
Definition mentions (msg s : string) : Prop :=
  ∃ pre post, msg = pre +:+ s +:+ post.

(** The partitions and their working directories, as [__init__] lays
    them out. *)
Definition layout {R} `{!RecordingExtractor R} (recording : R) (grouping_property : option string)
    (base : path) : list R * list path :=
  match grouping_property with
  | None => ([recording], [base])
  | Some key =>
      let recording_list := get_sub_extractors_by_property recording key in
      if 1 <? length recording_list then
        (recording_list,
         (λ i, base // pretty i) <$> seq 0 (length recording_list))
      else (recording_list, [base // pretty 0])
  end.


(** The adapter method an event belongs to; a print belongs to none. *)
Definition event_method {R} (ev : event R) : option method :=
  match ev with
  | EvCall m _ _ | EvReturn m _ _ | EvRaise m _ _ _ => Some m
  | EvPrint _ => None
  end.

(** The events of calling method [m] on the partitions one after the
    other, on one thread: each call returns before the next begins, and
    the first call that raises ends the loop. *)
Fixpoint sequential_events {R} (C : SorterClass R) (m : method)
    (parts : list (R * path)) : list (event R) :=
  match parts with
  | [] => []
  | (r, f) :: ps =>
      EvCall m r f ::
        match adapter_outcome C m r f with
        | None => EvReturn m r f :: sequential_events C m ps
        | Some e => [EvRaise m r f e]
        end
  end.

Fixpoint sequential_outcome {R} (C : SorterClass R) (m : method)
    (parts : list (R * path)) : outcome unit :=
  match parts with
  | [] => Ret tt
  | (r, f) :: ps =>
      match adapter_outcome C m r f with
      | None => sequential_outcome C m ps
      | Some e => Raise e
      end
  end.

(** Method [m] was called on every partition, in order, and returned each
    time. *)
Definition completed {R} (m : method) (parts : list (R * path))
  : list (event R) :=
  parts ≫= λ p, [EvCall m p.1 p.2; EvReturn m p.1 p.2].

(** No thread of an earlier [run] is still running. *)
Definition quiescent {R} (w : world R) : Prop :=
  Forall (λ th, pending th = []) (w_threads w).

(** Every step the threads still have to take is a step of [_run]. *)
Definition pool_run {R} (w : world R) : Prop :=
  Forall (λ th, Forall (λ ev, event_method ev = Some Run) (pending th))
    (w_threads w).

(** From [w] to [w'] only steps of [_run] were traced, and only such
    steps remain. *)
Definition run_ext {R} (w w' : world R) : Prop :=
  (∃ evs, w_trace w' = w_trace w ++ evs ∧
          Forall (λ ev, event_method ev = Some Run) evs) ∧
  pool_run w'.



(** The result objects the parser creates for the partitions, in
    partition order. *)
Fixpoint parse_all {R} (C : SorterClass R) (parts : list (R * path))
    (s : gmap loc sorting_obj) (n : loc)
  : list (option loc) * gmap loc sorting_obj * loc :=
  match parts with
  | [] => ([], s, n)
  | (_, f) :: ps =>
      match parse_folder (tool C) f with
      | None =>
          let '(l, s', n') := parse_all C ps s n in (None :: l, s', n')
      | Some (us, props) =>
          let '(l, s', n') :=
            parse_all C ps (<[n := Sorting us props None]> s) (S n) in
          (Some n :: l, s', n')
      end
  end.


(** What a caller sees of a result object: its units, each with its
    ['group'] property. *)
Definition tagged_units (s : gmap loc sorting_obj) (l : loc)
  : list (Z * option atom) :=
  (λ lu, (lu.2, unit_property s lu "group")) <$> exposed_units s l.


(** Every result object lives below the allocation pointer. *)
Definition store_wf (s : gmap loc sorting_obj) (n : loc) : Prop :=
  map_Forall (λ l _, l < n) s.

Definition sortings_wf {R} (w : world R) : Prop :=
  store_wf (w_sortings w) (w_next_sorting w).




(** The message Python gives for a method call on [None]. *)
Definition none_has_no_attribute (name : string) : exn :=
  AttributeError ("'NoneType' object has no attribute '" +:+ name +:+ "'").

(** The keys [set_params] rejects. *)
Definition unknown_keys (defaults kv : list (string * val)) : list string :=
  filter (λ p, p ∉ dict_keys defaults) kv.*1.


(** The reading of the parameter contract under which every call of
    [set_params] with an unknown key fails with an error that names every
    unknown key, and changes nothing. *)
Definition rejection_names_every_unknown_key (R : Type) : Prop :=
  ∀ (self : BaseSorter R) kv w st defaults,
    w_classes w !! cls_id (cls self) = Some st →
    objs (w_heap w) !! _default_params st = Some (ODict defaults) →
    NoDup kv.*1 →
    (∃ k, k ∈ kv.*1 ∧ k ∉ dict_keys defaults) →
    ∃ e, set_params self kv w = (Raise e, w) ∧
         ∀ k, k ∈ kv.*1 → k ∉ dict_keys defaults →
              mentions (exn_text e) (py_repr k).

(** ** A small recording, tool and registry for the examples *)

(** Channels with their ['group'] property, and a sampling frequency. *)
Record toy_recording := {
  toy_channels : list (Z * atom);
  toy_rate : atom
}.

#[global] Instance toy_extractor : RecordingExtractor toy_recording := {|
  get_shared_channel_property_names _ := ["group"];
  get_sub_extractors_by_property r key :=
    if decide (key = "group") then
      (λ g, {| toy_channels := filter (λ c, c.2 = g) (toy_channels r);
               toy_rate := toy_rate r |}) <$> remove_dups (toy_channels r).*2
    else [];
  get_channel_ids r := (toy_channels r).*1;
  get_channel_property r channel name :=
    if decide (name = "group") then
      match list_find (λ c, c.1 = channel) (toy_channels r) with
      | Some (_, c) => Ret c.2
      | None => Raise (ValueError "channel")
      end
    else Raise (ValueError "property");
  get_sampling_frequency := toy_rate
|}.

(** A tool that never raises and finds nothing. *)
Definition silent_tool : external_tool toy_recording := {|
  setup_outcome _ _ := None;
  run_outcome _ _ := None;
  parse_folder _ := None
|}.

(** A tool that finds units 1 and 2 in a folder named [0], nothing in a
    folder named [1], and unit 7 anywhere else. *)
Definition toy_tool : external_tool toy_recording := {|
  setup_outcome _ _ := None;
  run_outcome _ _ := None;
  parse_folder f :=
    match last f with
    | Some "0" => Some ([1; 2]%Z, ∅)
    | Some "1" => None
    | _ => Some ([7]%Z, ∅)
    end
|}.

Definition stub_class (id : nat) (name : string) : SorterClass toy_recording := {|
  cls_id := id;
  sorter_name := name;
  requires_locations := false;
  installation_mesg := "";
  default_params_literal := [];
  tool := silent_tool
|}.

Definition toy_KilosortSorter : SorterClass toy_recording :=
  kilosort.KilosortSorter toy_tool.

(** The registration list with the names the aliases of sorterlist.py
    use. *)
Definition toy_full_list : list (SorterClass toy_recording) :=
  sorter_full_list (stub_class 0 "klusta") (stub_class 1 "tridesclous")
    (stub_class 2 "mountainsort4") (stub_class 3 "ironclust")
    (stub_class 6 "spykingcircus") (stub_class 7 "herdingspikes")
    (stub_class 8 "waveclus") toy_tool silent_tool.

Definition toy_import_sorterlist : M toy_recording unit :=
  import_sorterlist (stub_class 0 "klusta") (stub_class 1 "tridesclous")
    (stub_class 2 "mountainsort4") (stub_class 3 "ironclust")
    (stub_class 6 "spykingcircus") (stub_class 7 "herdingspikes")
    (stub_class 8 "waveclus") toy_tool silent_tool.

Definition toy_run_sorter :=
  run_sorter (stub_class 0 "klusta") (stub_class 1 "tridesclous")
    (stub_class 2 "mountainsort4") (stub_class 3 "ironclust")
    (stub_class 6 "spykingcircus") (stub_class 7 "herdingspikes")
    (stub_class 8 "waveclus") toy_tool silent_tool.

Definition toy_get_default_params :=
  get_default_params (stub_class 0 "klusta") (stub_class 1 "tridesclous")
    (stub_class 2 "mountainsort4") (stub_class 3 "ironclust")
    (stub_class 6 "spykingcircus") (stub_class 7 "herdingspikes")
    (stub_class 8 "waveclus") toy_tool silent_tool.

(** A machine with Kilosort unpacked in /opt/KiloSort, an empty store and
    a scheduler that will make the choices [sched]. *)
Definition machine (environ : gmap string string) (sched : list (option nat))
  : world toy_recording :=
  World (Heap ∅ 0) ∅ 0 ∅ {[ ["/"; "opt"; "KiloSort"; "preprocessData.m"] ]}
    ["/"; "work"] environ ∅ [] [] [] sched.

(** Importing the package: the class statements, then the module body of
    sorterlist.py. *)
Definition import_package : M toy_recording unit :=
  for_each [stub_class 0 "klusta"; stub_class 1 "tridesclous";
            stub_class 2 "mountainsort4"; stub_class 3 "ironclust"]
    (λ C, define_class C None false);;
  kilosort.class_body toy_tool;;
  kilosort2.class_body silent_tool;;
  for_each [stub_class 6 "spykingcircus"; stub_class 7 "herdingspikes";
            stub_class 8 "waveclus"]
    (λ C, define_class C None false);;
  toy_import_sorterlist.

(** The world after the import, without and with KILOSORT_PATH set. *)
Definition imported_plain : world toy_recording :=
  (import_package (machine ∅ [])).2.

Definition imported (sched : list (option nat)) : world toy_recording :=
  (import_package (machine {["KILOSORT_PATH" := "/opt/KiloSort"]} sched)).2.

(** Three channels in three groups, and two channels in one group. *)
Definition three_groups : toy_recording :=
  {| toy_channels := [(0%Z, AInt 10); (1%Z, AInt 11); (2%Z, AInt 12)];
     toy_rate := AInt 30000 |}.

Definition one_group : toy_recording :=
  {| toy_channels := [(0%Z, AInt 10); (1%Z, AInt 10)];
     toy_rate := AInt 30000 |}.

(** A lifecycle instance made by [__init__] with the default output
    folder, together with the world after the construction. *)
Definition instance_of (C : SorterClass toy_recording) (recording : toy_recording)
    (grouping_property : option string) (parallel verbose delete_output_folder : bool)
    (w : world toy_recording) : BaseSorter toy_recording * world toy_recording :=
  match __init__ C recording None verbose grouping_property parallel
          delete_output_folder w with
  | (Ret self, w') => (self, w')
  | (Raise _, w') =>
      (Build_BaseSorter C verbose grouping_property parallel (VAtom ANone)
         [] [] delete_output_folder, w')
  end.

(** One partition in the base folder; three partitions run one after the
    other; three partitions run in threads under a scheduler that
    interleaves them. *)
Definition single_instance : BaseSorter toy_recording * world toy_recording :=
  instance_of toy_KilosortSorter one_group None false false false (imported []).

Definition grouped_instance : BaseSorter toy_recording * world toy_recording :=
  instance_of toy_KilosortSorter three_groups (Some "group") false false false
    (imported []).

Definition threaded_instance : BaseSorter toy_recording * world toy_recording :=
  instance_of toy_KilosortSorter three_groups (Some "group") true true false
    (imported [Some 0; None; Some 1; Some 1; Some 2]).

(** A recording whose channels carry a ['shank'] property and no
    ['group'] property, as a probe file that names its shanks gives. *)
Record shank_recording := {
  shank_channels : list (Z * atom);
  shank_rate : atom
}.

#[global] Instance shank_extractor : RecordingExtractor shank_recording := {|
  get_shared_channel_property_names _ := ["shank"];
  get_sub_extractors_by_property r key :=
    if decide (key = "shank") then
      (λ g, {| shank_channels := filter (λ c, c.2 = g) (shank_channels r);
               shank_rate := shank_rate r |}) <$> remove_dups (shank_channels r).*2
    else [];
  get_channel_ids r := (shank_channels r).*1;
  get_channel_property r channel name :=
    if decide (name = "shank") then
      match list_find (λ c, c.1 = channel) (shank_channels r) with
      | Some (_, c) => Ret c.2
      | None => Raise (ValueError "channel")
      end
    else Raise (ValueError (name +:+ " has not been added to channel "
                              +:+ pretty channel));
  get_sampling_frequency := shank_rate
|}.

(** A tool that finds unit 1 in every folder. *)
Definition shank_tool : external_tool shank_recording := {|
  setup_outcome _ _ := None;
  run_outcome _ _ := None;
  parse_folder _ := Some ([1]%Z, ∅)
|}.

(** Two channels on two shanks, and a lifecycle that sorts them by
    shank on a machine where Kilosort is installed. *)
Definition two_shanks : shank_recording :=
  {| shank_channels := [(0%Z, AInt 1); (1%Z, AInt 2)];
     shank_rate := AInt 30000 |}.

Definition shank_world : world shank_recording :=
  (kilosort.class_body shank_tool
     (World (Heap ∅ 0) ∅ 0 ∅ {[ ["/"; "opt"; "KiloSort"; "preprocessData.m"] ]}
        ["/"; "work"] {["KILOSORT_PATH" := "/opt/KiloSort"]} ∅ [] [] [] [])).2.

Definition shank_instance : BaseSorter shank_recording * world shank_recording :=
  match __init__ (kilosort.KilosortSorter shank_tool) two_shanks None false
          (Some "shank") false false shank_world with
  | (Ret self, w') => (self, w')
  | (Raise _, w') =>
      (Build_BaseSorter (kilosort.KilosortSorter shank_tool) false
         (Some "shank") false (VAtom ANone) [] [] false, w')
  end.

(** ** Further notions *)

(** The steps the threads of the pool still have to take. *)
Definition pool_pending {R} (w : world R) : list (event R) :=
  concat (pending <$> w_threads w).

(** [w'] differs from [w] in the trace and the thread pool only. *)
Definition same_store {R} (w w' : world R) : Prop :=
  w' = set_trace (w_trace w') (set_threads (w_threads w') (w_sched w') w).

(** From [w] to [w'] the pool got [n] new threads, all started, that
    together had the steps [S] to take; each thread only took steps of
    its own, which went to the trace, and a started thread stayed
    started. *)
Definition spawned {R} (S : list (event R)) (n : nat) (w w' : world R)
  : Prop :=
  length (w_threads w') = length (w_threads w) + n ∧
  (∀ t th, w_threads w !! t = Some th →
     ∃ th', w_threads w' !! t = Some th' ∧
            pending th' `suffix_of` pending th ∧
            (started th = true → started th' = true)) ∧
  (∀ t, length (w_threads w) ≤ t < length (w_threads w') →
     ∃ th, w_threads w' !! t = Some th ∧ started th = true) ∧
  (∃ evs, w_trace w' = w_trace w ++ evs ∧
          evs ++ pool_pending w' ≡ₚ pool_pending w ++ S) ∧
  same_store w w'.

(** The pool kept its threads. *)
Definition evolves {R} (w w' : world R) : Prop := spawned [] 0 w w'.

(** kilosort.py, [_setup_recording]: the number of filters and the batch
    size written into the configuration. *)
Definition Nfilt (nchan : Z) : Z :=
  let Nfilt := (nchan / 32 * 32 * 8)%Z in
  if (Nfilt =? 0)%Z then (nchan * 8)%Z else Nfilt.

Definition Nt : Z := (128 * 1024 + 64)%Z.

(** A path string wrapped in double quotes. *)
Definition quoted (p : string) : string :=
  String "034"%char (p +:+ String "034"%char "").

(** ** More examples *)

(** A tool whose run crashes in the folder named [1] and, when [strict],
    whose staging fails in the folder named [2]. *)
Definition failing_tool (strict : bool) : external_tool toy_recording := {|
  setup_outcome _ f :=
    match last f with
    | Some "2" => if strict then Some (ToolError "no room") else None
    | _ => None
    end;
  run_outcome _ f :=
    match last f with
    | Some "1" => Some (ToolError "crash")
    | _ => None
    end;
  parse_folder := parse_folder toy_tool
|}.

(** Three partitions of a tool that fails, run one after the other and
    in threads. *)
Definition failing_instance (strict parallel : bool)
  : BaseSorter toy_recording * world toy_recording :=
  instance_of (kilosort.KilosortSorter (failing_tool strict)) three_groups
    (Some "group") parallel false false
    (imported [Some 0; None; Some 1; Some 1; Some 2]).

(** The partition of channel [i], of group [g], in the folder [name]
    under the default base folder. *)
Definition toy_part (i g : Z) (name : string) : toy_recording * path :=
  ({| toy_channels := [(i, AInt g)]; toy_rate := AInt 30000 |},
   ["/"; "work"; "tmp_kilosort"; name]).

(** ** What an operation leaves alone *)

(** Whatever [m] returns or raises, its final state is related to its
    initial one by [P]. *)
Definition preserves {R A} (P : world R → world R → Prop) (m : M R A) : Prop :=
  ∀ w o w', m w = (o, w') → P w w'.

(** [w'] differs from [w] in the result objects only. *)
Definition results_only {R} (w w' : world R) : Prop :=
  w' = set_sortings (w_sortings w') (w_next_sorting w') w.

(** [w'] differs from [w] on disk and in the trace only. *)
Definition disk_only {R} (w w' : world R) : Prop :=
  w' = set_trace (w_trace w')
         (set_files (w_files w') (set_dirs (w_dirs w') w)).

(** [after] is [before] without everything at or below a path of
    [outs]. *)
Definition cleared (outs : list path) (before after : gset path) : Prop :=
  ∀ q, q ∈ after ↔ q ∈ before ∧ ∀ out, out ∈ outs → ¬ out `prefix_of` q.




(** A lifecycle whose grouping key splits the recording into no group. *)
Definition no_channels : toy_recording :=
  {| toy_channels := []; toy_rate := AInt 30000 |}.

Definition empty_instance : BaseSorter toy_recording * world toy_recording :=
  instance_of toy_KilosortSorter no_channels (Some "group") false false false
    (imported []).

(** An installed class that needs channel locations, and the world after
    its class statement. *)
Definition probe_class : SorterClass toy_recording := {|
  cls_id := 9;
  sorter_name := "probe";
  requires_locations := true;
  installation_mesg := "";
  default_params_literal := [];
  tool := silent_tool
|}.

Definition probe_world : world toy_recording :=
  (define_class probe_class None true (imported [])).2.

(** * Properties *)

(** ** The parameter heap *)

(** Structural induction on literals, with the hypothesis on every item. *)
Lemma pyval_ind (P : pyval → Prop) :
  (∀ a, P (PAtom a)) →
  (∀ ts, Forall P ts → P (PList ts)) →
  (∀ kts, Forall (λ kt, P kt.2) kts → P (PDict kts)) →
  ∀ t, P t.
Proof.
  intros Ha Hl Hd. fix IH 1. intros [a | ts | kts].
  - apply Ha.
  - apply Hl. induction ts as [| t ts IHts]; constructor; [apply IH | exact IHts].
  - apply Hd. induction kts as [| [k t] kts IHkts]; constructor;
      [apply IH | exact IHkts].
Qed.

Lemma all2_impl {A B} (P : A → Prop) (R R' : A → B → Prop) xs ys :
  Forall P xs → (∀ x y, P x → R x y → R' x y) →
  all2 R xs ys → all2 R' xs ys.
Proof.
  intros HP Himp. revert ys.
  induction HP as [| x xs Hx _ IH]; intros [| y ys]; simpl; try done.
  intros [? ?]. split; [by apply Himp | by apply IH].
Qed.

Lemma all2_weaken {A B} (R R' : A → B → Prop) xs ys :
  (∀ x y, R x y → R' x y) → all2 R xs ys → all2 R' xs ys.
Proof.
  intros Himp. apply (all2_impl (λ _, True)); [| by auto].
  by apply Forall_forall.
Qed.

Lemma agree_below_refl n h : agree_below n h h.
Proof. by intros l _. Qed.

Lemma agree_below_trans n m h1 h2 h3 :
  n ≤ m → agree_below n h1 h2 → agree_below m h2 h3 → agree_below n h1 h3.
Proof. intros Hnm H12 H23 l Hl. rewrite H23; [by apply H12 | lia]. Qed.

Lemma heap_wf_lookup h l o : heap_wf h → objs h !! l = Some o → l < next_loc h.
Proof. intros Hwf Hl. exact (Hwf l o Hl). Qed.

Lemma closed_from_wf n h : heap_wf h → next_loc h ≤ n → closed_from n h.
Proof.
  intros Hwf Hn. split; [done |]. intros l o Hl Ho.
  apply (heap_wf_lookup _ _ _ Hwf) in Ho. lia.
Qed.

Lemma built_frame t : ∀ lo hi h h' v,
  (∀ l, lo ≤ l < hi → objs h' !! l = objs h !! l) →
  built lo h t v hi → built lo h' t v hi.
Proof.
  induction t as [a | ts IH | kts IH] using pyval_ind;
    intros lo hi h h' v Hfr; simpl; [done | |].
  - intros (l & vs & -> & Hl & Hobj & Hch).
    exists l, vs. rewrite Hfr by done. repeat split; try done; try lia.
    revert Hch. apply (all2_impl _ _ _ _ _ IH).
    intros t v IHt. apply IHt. intros l' Hl'. apply Hfr. lia.
  - intros (l & kvs & -> & Hl & Hobj & Hch).
    exists l, kvs. rewrite Hfr by done. repeat split; try done; try lia.
    revert Hch. apply (all2_impl _ _ _ _ _ IH).
    intros kt kv IHt [? ?]. split; [done |].
    revert IHt. intros IHt. eapply IHt; [| done]. intros l' Hl'. apply Hfr. lia.
Qed.

Lemma built_mono t : ∀ lo lo' hi hi' h v,
  lo' ≤ lo → hi ≤ hi' → built lo h t v hi → built lo' h t v hi'.
Proof.
  induction t as [a | ts IH | kts IH] using pyval_ind;
    intros lo lo' hi hi' h v Hlo Hhi; simpl; [done | |].
  - intros (l & vs & -> & Hl & Hobj & Hch).
    exists l, vs. repeat split; try done; try lia.
    revert Hch. apply (all2_impl _ _ _ _ _ IH).
    intros t v IHt. by apply IHt.
  - intros (l & kvs & -> & Hl & Hobj & Hch).
    exists l, kvs. repeat split; try done; try lia.
    revert Hch. apply (all2_impl _ _ _ _ _ IH).
    intros kt kv IHt [? ?]. split; [done |]. eapply IHt; [| | done]; lia.
Qed.

Lemma built_depth t : ∀ lo hi h v, built lo h t v hi → depth t ≤ hi.
Proof.
  induction t as [a | ts IH | kts IH] using pyval_ind;
    intros lo hi h v; simpl; [lia | |].
  - intros (l & vs & -> & Hl & Hobj & Hch).
    enough (foldr (λ t n, depth t `max` n) 0 ts ≤ l) by lia.
    clear Hobj. revert vs Hch.
    induction IH as [| t ts Ht _ IHts]; intros [| v vs]; simpl; try done; [lia |].
    intros [Hb Hch]. apply Ht in Hb. specialize (IHts _ Hch). lia.
  - intros (l & kvs & -> & Hl & Hobj & Hch).
    enough (foldr (λ kt n, depth kt.2 `max` n) 0 kts ≤ l) by lia.
    clear Hobj. revert kvs Hch.
    induction IH as [| t ts Ht _ IHts]; intros [| v vs]; simpl; try done; [lia |].
    intros [[_ Hb] Hch]. apply Ht in Hb. specialize (IHts _ Hch). lia.
Qed.

Lemma built_val_ge t lo h v hi : built lo h t v hi → val_ge lo v.
Proof.
  destruct t; simpl.
  - by intros ->.
  - intros (l & vs & -> & Hl & _). simpl. lia.
  - intros (l & vs & -> & Hl & _). simpl. lia.
Qed.

Lemma heap_alloc_closed n o h :
  n ≤ next_loc h → closed_from n h → refs_ge n o →
  closed_from n (heap_alloc o h).2.
Proof.
  intros Hn [Hwf Hcl] Ho. split.
  - intros l o'. simpl. rewrite lookup_insert. case_decide.
    + intros _. lia.
    + intros Hl. apply (heap_wf_lookup _ _ _ Hwf) in Hl. lia.
  - intros l o' Hl. simpl. rewrite lookup_insert. case_decide.
    + by intros [= <-].
    + by apply Hcl.
Qed.

Lemma heap_alloc_agree o h : agree_below (next_loc h) h (heap_alloc o h).2.
Proof. intros l Hl. simpl. rewrite lookup_insert_ne; [done | lia]. Qed.

Lemma fresh_copy_container n h h1 l o t :
  n ≤ next_loc h → next_loc h ≤ next_loc h1 →
  closed_from n h1 → agree_below (next_loc h) h h1 → refs_ge n o →
  l = next_loc h1 →
  built (next_loc h) (heap_alloc o h1).2 t (VRef l) (S l) →
  fresh_copy n h t (VRef l) (heap_alloc o h1).2.
Proof.
  intros Hn Hle Hcl Hag Ho -> Hb. split; [| split; [| split; [| split]]].
  - apply heap_alloc_closed; [lia | done | done].
  - simpl. lia.
  - eapply agree_below_trans; [apply Hle | done | apply heap_alloc_agree].
  - done.
  - simpl. lia.
Qed.

Lemma alloc_tree_spec t : ∀ n h v h',
  n ≤ next_loc h → closed_from n h →
  alloc_tree t h = (v, h') → fresh_copy n h t v h'.
Proof.
  induction t as [a | ts IH | kts IH] using pyval_ind; intros n h v h' Hn Hcl.
  - simpl. intros [= <- <-]. repeat split; try done; try apply Hcl.
  - simpl.
    destruct (thread_list alloc_tree ts h) as [vs h1] eqn:Hth.
    intros [= <- <-].
    assert (closed_from n h1 ∧ next_loc h ≤ next_loc h1 ∧
            agree_below (next_loc h) h h1 ∧
            all2 (λ t v, built (next_loc h) h1 t v (next_loc h1)) ts vs ∧
            Forall (val_ge n) vs) as (Hcl1 & Hle & Hag & Hch & Hge).
    { clear -IH Hn Hcl Hth. revert h vs h1 Hn Hcl Hth.
      induction IH as [| t ts Ht _ IHts]; intros h vs h1 Hn Hcl; simpl.
      - intros [= <- <-]. repeat split; try done; try apply Hcl.
      - destruct (alloc_tree t h) as [v h2] eqn:Hv.
        destruct (thread_list alloc_tree ts h2) as [vs' h3] eqn:Hvs.
        intros [= <- <-].
        apply (Ht n) in Hv as (Hcl2 & Hle2 & Hag2 & Hb2 & Hge2); [| done..].
        apply IHts in Hvs as (Hcl3 & Hle3 & Hag3 & Hch3 & Hge3); [| lia | done].
        split; [done |]. split; [lia |].
        split; [by eapply agree_below_trans |].
        split; [| by constructor]. simpl. split.
        + eapply built_mono; [reflexivity | apply Hle3 |].
          eapply built_frame; [| apply Hb2]. intros l Hl. apply Hag3. lia.
        + revert Hch3. apply all2_weaken. intros t' v'.
          apply built_mono; lia. }
    apply fresh_copy_container; try done.
    simpl. eexists _, vs. split; [done |]. split; [lia |].
    split; [by rewrite lookup_insert_eq |].
    revert Hch. apply all2_weaken. intros t v Hb.
    eapply built_frame; [| apply Hb]. intros l Hl.
    simpl. rewrite lookup_insert_ne; [done | lia].
  - simpl.
    destruct (thread_list _ kts h) as [kvs h1] eqn:Hth.
    intros [= <- <-].
    assert (closed_from n h1 ∧ next_loc h ≤ next_loc h1 ∧
            agree_below (next_loc h) h h1 ∧
            all2 (λ kt kv, kt.1 = kv.1 ∧
                    built (next_loc h) h1 kt.2 kv.2 (next_loc h1)) kts kvs ∧
            Forall (λ kv, val_ge n kv.2) kvs) as (Hcl1 & Hle & Hag & Hch & Hge).
    { clear -IH Hn Hcl Hth. revert h kvs h1 Hn Hcl Hth.
      induction IH as [| kt kts Ht _ IHts]; intros h kvs h1 Hn Hcl; simpl.
      - intros [= <- <-]. repeat split; try done; try apply Hcl.
      - destruct (alloc_tree kt.2 h) as [v h2] eqn:Hv.
        destruct (thread_list _ kts h2) as [kvs' h3] eqn:Hvs.
        intros [= <- <-].
        apply (Ht n) in Hv as (Hcl2 & Hle2 & Hag2 & Hb2 & Hge2); [| done..].
        apply IHts in Hvs as (Hcl3 & Hle3 & Hag3 & Hch3 & Hge3); [| lia | done].
        split; [done |]. split; [lia |].
        split; [by eapply agree_below_trans |].
        split; [| by constructor]. simpl. split; [split; [done |] |].
        + eapply built_mono; [reflexivity | apply Hle3 |].
          eapply built_frame; [| apply Hb2]. intros l Hl. apply Hag3. lia.
        + revert Hch3. apply all2_weaken. intros t' v' [? ?]. split; [done |].
          eapply built_mono; [| | done]; lia. }
    apply fresh_copy_container; try done.
    simpl. eexists _, kvs. split; [done |]. split; [lia |].
    split; [by rewrite lookup_insert_eq |].
    revert Hch. apply all2_weaken. intros t v [? Hb]. split; [done |].
    eapply built_frame; [| apply Hb]. intros l Hl.
    simpl. rewrite lookup_insert_ne; [done | lia].
Qed.

Lemma deepcopy_fuel_spec t : ∀ fuel n lo hi h v,
  depth t ≤ fuel → built lo h t v hi → hi ≤ next_loc h →
  n ≤ next_loc h → closed_from n h →
  ∃ v' h', deepcopy_fuel fuel v h = Some (v', h') ∧ fresh_copy n h t v' h'.
Proof.
  induction t as [a | ts IH | kts IH] using pyval_ind;
    intros fuel n lo hi h v Hfuel Hb Hhi Hn Hcl.
  - simpl in Hb. subst v. exists (VAtom a), h. split; [by destruct fuel |].
    repeat split; try done; try apply Hcl.
  - simpl in Hb. destruct Hb as (l & vs & -> & Hl & Hobj & Hch).
    destruct fuel as [| fuel]; [simpl in Hfuel; lia |].
    simpl in Hfuel. simpl. rewrite Hobj.
    assert (∃ vs' h1, thread_list_opt (deepcopy_fuel fuel) vs h = Some (vs', h1) ∧
            closed_from n h1 ∧ next_loc h ≤ next_loc h1 ∧
            agree_below (next_loc h) h h1 ∧
            all2 (λ t v, built (next_loc h) h1 t v (next_loc h1)) ts vs' ∧
            Forall (val_ge n) vs') as (vs' & h1 & -> & Hcl1 & Hle & Hag & Hch' & Hge).
    { assert (foldr (λ t n, depth t `max` n) 0 ts ≤ fuel) as Hd by lia.
      assert (l < next_loc h) as Hlh by lia.
      clear -IH Hn Hcl Hch Hd Hlh. revert h vs Hn Hcl Hch Hlh.
      induction IH as [| t ts Ht _ IHts]; intros h [| v vs] Hn Hcl; simpl;
        try done.
      - intros _ _. exists [], h. repeat split; try done; try apply Hcl.
      - simpl in Hd. intros [Hb Hch] Hlh.
        destruct (Ht fuel n lo l h v) as (v' & h2 & -> & Hcl2 & Hle2 & Hag2 & Hb2 & Hge2);
          [lia | done | lia | done | done |].
        destruct (IHts ltac:(lia) h2 vs) as
          (vs' & h3 & -> & Hcl3 & Hle3 & Hag3 & Hch3 & Hge3); [lia | done | | lia |].
        { revert Hch. apply all2_weaken. intros t' v0.
          apply built_frame. intros l' Hl'. apply Hag2. lia. }
        exists (v' :: vs'), h3. split; [done |].
        split; [done |]. split; [lia |].
        split; [by eapply agree_below_trans |].
        split; [| by constructor]. simpl. split.
        + eapply built_mono; [reflexivity | apply Hle3 |].
          eapply built_frame; [| apply Hb2]. intros l' Hl'. apply Hag3. lia.
        + revert Hch3. apply all2_weaken. intros t' v0.
          apply built_mono; lia. }
    eexists _, _. split; [done |].
    apply fresh_copy_container; try done.
    simpl. eexists _, vs'. split; [done |]. split; [lia |].
    split; [by rewrite lookup_insert_eq |].
    revert Hch'. apply all2_weaken. intros t v Hb.
    eapply built_frame; [| apply Hb]. intros l' Hl'.
    simpl. rewrite lookup_insert_ne; [done | lia].
  - simpl in Hb. destruct Hb as (l & kvs & -> & Hl & Hobj & Hch).
    destruct fuel as [| fuel]; [simpl in Hfuel; lia |].
    simpl in Hfuel. simpl. rewrite Hobj.
    match goal with |- context [thread_list_opt ?f kvs h] => set (F := f) end.
    assert (∃ kvs' h1, thread_list_opt F kvs h = Some (kvs', h1) ∧
            closed_from n h1 ∧ next_loc h ≤ next_loc h1 ∧
            agree_below (next_loc h) h h1 ∧
            all2 (λ kt kv, kt.1 = kv.1 ∧
                    built (next_loc h) h1 kt.2 kv.2 (next_loc h1)) kts kvs' ∧
            Forall (λ kv, val_ge n kv.2) kvs')
      as (kvs' & h1 & -> & Hcl1 & Hle & Hag & Hch' & Hge).
    { assert (foldr (λ kt n, depth kt.2 `max` n) 0 kts ≤ fuel) as Hd by lia.
      assert (l < next_loc h) as Hlh by lia.
      clear -IH Hn Hcl Hch Hd Hlh. revert h kvs Hn Hcl Hch Hlh.
      induction IH as [| kt kts Ht _ IHts]; intros h [| kv kvs] Hn Hcl; simpl;
        try done.
      - intros _ _. exists [], h. repeat split; try done; try apply Hcl.
      - simpl in Hd. intros [[Hk Hb] Hch] Hlh. unfold F at 1.
        destruct (Ht fuel n lo l h kv.2) as
          (v' & h2 & -> & Hcl2 & Hle2 & Hag2 & Hb2 & Hge2);
          [lia | done | lia | done | done |].
        destruct (IHts ltac:(lia) h2 kvs) as
          (kvs' & h3 & -> & Hcl3 & Hle3 & Hag3 & Hch3 & Hge3); [lia | done | | lia |].
        { revert Hch. apply all2_weaken. intros t' v0 [? ?]. split; [done |].
          eapply built_frame; [| done]. intros l' Hl'. apply Hag2. lia. }
        exists ((kv.1, v') :: kvs'), h3. split; [done |].
        split; [done |]. split; [lia |].
        split; [by eapply agree_below_trans |].
        split; [| by constructor]. simpl. split; [split; [done |] |].
        + eapply built_mono; [reflexivity | apply Hle3 |].
          eapply built_frame; [| apply Hb2]. intros l' Hl'. apply Hag3. lia.
        + revert Hch3. apply all2_weaken. intros t' v0 [? ?]. split; [done |].
          eapply built_mono; [| | done]; lia. }
    eexists _, _. split; [done |].
    apply fresh_copy_container; try done.
    simpl. eexists _, kvs'. split; [done |]. split; [lia |].
    split; [by rewrite lookup_insert_eq |].
    revert Hch'. apply all2_weaken. intros t v [? Hb]. split; [done |].
    eapply built_frame; [| apply Hb]. intros l' Hl'.
    simpl. rewrite lookup_insert_ne; [done | lia].
Qed.

(** A laid-out structure reads back as its literal. *)
Lemma reify_built t : ∀ fuel lo hi h v,
  built lo h t v hi → hi ≤ fuel → reify fuel h v = Some t.
Proof.
  induction t as [a | ts IH | kts IH] using pyval_ind;
    intros fuel lo hi h v Hb Hhi.
  - simpl in Hb. subst v. by destruct fuel.
  - simpl in Hb. destruct Hb as (l & vs & -> & Hl & Hobj & Hch).
    destruct fuel as [| fuel]; [lia |]. simpl. rewrite Hobj.
    enough (read_list (reify fuel h) vs = Some ts) as -> by done.
    assert (l ≤ fuel) as Hlf by lia.
    clear -IH Hch Hlf. revert vs Hch.
    induction IH as [| t ts Ht _ IHts]; intros [| v vs]; simpl; try done.
    intros [Hb Hch]. rewrite (Ht fuel lo l h v Hb Hlf).
    by rewrite (IHts vs Hch).
  - simpl in Hb. destruct Hb as (l & kvs & -> & Hl & Hobj & Hch).
    destruct fuel as [| fuel]; [lia |]. simpl. rewrite Hobj.
    match goal with |- context [read_list ?f kvs] => set (F := f) end.
    enough (read_list F kvs = Some kts) as -> by done.
    assert (l ≤ fuel) as Hlf by lia.
    clear -IH Hch Hlf. revert kvs Hch.
    induction IH as [| [k t] kts Ht _ IHts]; intros [| [k' v] kvs]; simpl;
      try done.
    intros [[Hk Hb] Hch]. simpl in *. subst k'. unfold F at 1. simpl.
    rewrite (Ht fuel lo l h v Hb Hlf).
    by rewrite (IHts kvs Hch).
Qed.

(** *** Statements of a caller stay inside the caller's objects *)

Lemma dict_get_Forall (P : string * val → Prop) k d v :
  Forall P d → dict_get k d = Some v → ∃ k', P (k', v).
Proof.
  induction 1 as [| [k' v'] d Hx _ IH]; simpl; [done |].
  case_decide; [intros [= <-]; by exists k' | done].
Qed.

Lemma dict_set_Forall (P : string * val → Prop) k v d :
  (∀ k', P (k', v)) → Forall P d → Forall P (dict_set k v d).
Proof.
  intros Hv. induction 1 as [| [k' v'] d Hx Hd IH]; simpl.
  - by constructor.
  - case_decide; constructor; auto.
Qed.

Lemma dict_del_Forall (P : string * val → Prop) k d :
  Forall P d → Forall P (dict_del k d).
Proof.
  induction 1 as [| [k' v'] d Hx Hd IH]; simpl; [done |].
  case_decide; [done | by constructor].
Qed.

Lemma navigate_ge n h p : ∀ v v',
  closed_from n h → val_ge n v → navigate h v p = Some v' → val_ge n v'.
Proof.
  induction p as [| k p IH]; intros v v' Hcl Hv; simpl.
  - by intros [= <-].
  - destruct v as [a | l]; [done |]. simpl in Hv.
    destruct (objs h !! l) as [[vs | d] |] eqn:Hobj; [| | done].
    + destruct k as [s | i]; [done |].
      destruct (vs !! i) as [v1 |] eqn:Hi; [| done].
      apply IH; [done |]. destruct Hcl as [_ Hcl].
      specialize (Hcl l _ Hv Hobj). simpl in Hcl.
      eapply Forall_lookup_1 in Hcl; done.
    + destruct k as [s | i]; [| done].
      destruct (dict_get s d) as [v1 |] eqn:Hs; [| done].
      apply IH; [done |]. destruct Hcl as [_ Hcl].
      specialize (Hcl l _ Hv Hobj). simpl in Hcl.
      by destruct (dict_get_Forall _ _ _ _ Hcl Hs) as [k' Hk'].
Qed.

Lemma heap_write_closed n l o o' h :
  n ≤ l → objs h !! l = Some o' → refs_ge n o → closed_from n h →
  closed_from n (heap_write l o h).
Proof.
  intros Hl Hobj Ho [Hwf Hcl]. split.
  - intros l' o''. simpl. rewrite lookup_insert. case_decide.
    + subst l'. intros _. by apply (heap_wf_lookup _ _ _ Hwf) in Hobj.
    + apply Hwf.
  - intros l' o'' Hl'. simpl. rewrite lookup_insert. case_decide.
    + by intros [= <-].
    + by apply Hcl.
Qed.

Lemma heap_write_agree n l o h : n ≤ l → agree_below n h (heap_write l o h).
Proof. intros Hl l' Hl'. simpl. rewrite lookup_insert_ne; [done | lia]. Qed.

Lemma stays_above_refl n h : closed_from n h → stays_above n h h.
Proof. intros Hcl. split; [done |]. split; [lia | apply agree_below_refl]. Qed.

Lemma stays_above_write n l o o' h h1 :
  stays_above n h h1 → n ≤ l → objs h1 !! l = Some o' → refs_ge n o →
  stays_above n h (heap_write l o h1).
Proof.
  intros (Hcl & Hle & Hag) Hl Hobj Ho. split; [| split].
  - by eapply heap_write_closed.
  - done.
  - eapply agree_below_trans; [reflexivity | done | by apply heap_write_agree].
Qed.

Lemma eval_rvalue_spec n root rhs h v h1 :
  val_ge n root → n ≤ next_loc h → closed_from n h →
  eval_rvalue root rhs h = Some (v, h1) →
  stays_above n h h1 ∧ val_ge n v.
Proof.
  intros Hroot Hn Hcl. destruct rhs as [t | p]; simpl.
  - intros [= Hal].
    apply (alloc_tree_spec t n) in Hal as (Hcl1 & Hle & Hag & _ & Hge); [| done..].
    split; [| done]. split; [done |]. split; [done |].
    intros l Hl. apply Hag. lia.
  - destruct (navigate h root p) as [v1 |] eqn:Hnav; [| done].
    intros [= <- <-]. split; [by apply stays_above_refl |].
    by eapply navigate_ge.
Qed.

Lemma apply_mutation_spec n root m h :
  val_ge n root → n ≤ next_loc h → closed_from n h →
  stays_above n h (apply_mutation root m h).
Proof.
  intros Hroot Hn Hcl.
  pose proof (stays_above_refl n h Hcl) as Hrefl.
  destruct m as [target k rhs | target k | target rhs | target]; simpl.
  - destruct (eval_rvalue root rhs h) as [[v h1] |] eqn:Hev; [| done].
    apply (eval_rvalue_spec n) in Hev as [Hst Hv]; [| done..].
    destruct (navigate h1 root target) as [[a | l] |] eqn:Hnav; try done.
    pose proof Hst as (Hcl1 & _ & _).
    apply (navigate_ge n) in Hnav; [| done..]. simpl in Hnav.
    destruct (objs h1 !! l) as [[vs | d] |] eqn:Hobj; [| | done].
    + destruct k as [s | i]; [done |]. case_decide; [| done].
      eapply stays_above_write; [done.. |]. simpl.
      destruct Hcl1 as [_ Hcl1]. specialize (Hcl1 l _ Hnav Hobj). simpl in Hcl1.
      apply Forall_insert; done.
    + destruct k as [s | i]; [| done].
      eapply stays_above_write; [done.. |]. simpl.
      destruct Hcl1 as [_ Hcl1]. specialize (Hcl1 l _ Hnav Hobj). simpl in Hcl1.
      by apply dict_set_Forall.
  - destruct (navigate h root target) as [[a | l] |] eqn:Hnav; try done.
    apply (navigate_ge n) in Hnav; [| done..]. simpl in Hnav.
    destruct (objs h !! l) as [[vs | d] |] eqn:Hobj; try done.
    eapply stays_above_write; [done.. |]. simpl.
    destruct Hcl as [_ Hcl]. specialize (Hcl l _ Hnav Hobj). simpl in Hcl.
    by apply dict_del_Forall.
  - destruct (eval_rvalue root rhs h) as [[v h1] |] eqn:Hev; [| done].
    apply (eval_rvalue_spec n) in Hev as [Hst Hv]; [| done..].
    destruct (navigate h1 root target) as [[a | l] |] eqn:Hnav; try done.
    pose proof Hst as (Hcl1 & _ & _).
    apply (navigate_ge n) in Hnav; [| done..]. simpl in Hnav.
    destruct (objs h1 !! l) as [[vs | d] |] eqn:Hobj; try done.
    eapply stays_above_write; [done.. |]. simpl.
    destruct Hcl1 as [_ Hcl1]. specialize (Hcl1 l _ Hnav Hobj). simpl in Hcl1.
    apply Forall_app. split; [done |]. by constructor.
  - destruct (navigate h root target) as [[a | l] |] eqn:Hnav; try done.
    apply (navigate_ge n) in Hnav; [| done..]. simpl in Hnav.
    destruct (objs h !! l) as [[vs | d] |] eqn:Hobj; try done.
    + eapply stays_above_write; [done.. |]. by simpl.
    + eapply stays_above_write; [done.. |]. by simpl.
Qed.

Lemma apply_mutations_spec n root ms : ∀ h,
  val_ge n root → n ≤ next_loc h → closed_from n h →
  stays_above n h (apply_mutations root ms h).
Proof.
  unfold apply_mutations.
  induction ms as [| m ms IH]; intros h Hroot Hn Hcl; simpl.
  - by apply stays_above_refl.
  - destruct (apply_mutation_spec n root m h) as (Hcl1 & Hle1 & Hag1); [done.. |].
    destruct (IH (apply_mutation root m h)) as (Hcl2 & Hle2 & Hag2);
      [done | lia | done |].
    split; [done |]. split; [lia |].
    eapply agree_below_trans; [reflexivity | done | done].
Qed.

(** ** [default_params] *)

Arguments built : simpl never.
Arguments reify : simpl never.

Ltac unfold_M :=
  unfold mbind, M_bind, mret, M_ret, raise, gets, modify, lift_outcome in *.

Lemma bind_ret {R A B} (m : M R A) (f : A → M R B) w a w' :
  m w = (Ret a, w') → (m ≫= f) w = f a w'.
Proof. intros H. unfold mbind, M_bind. by rewrite H. Qed.

Lemma bind_raise {R A B} (m : M R A) (f : A → M R B) w e w' :
  m w = (Raise e, w') → (m ≫= f) w = (Raise e, w').
Proof. intros H. unfold mbind, M_bind. by rewrite H. Qed.

Lemma bind_inv_M {R A B} (m : M R A) (f : A → M R B) w o w' :
  (m ≫= f) w = (o, w') →
  (∃ a w1, m w = (Ret a, w1) ∧ f a w1 = (o, w')) ∨
  (∃ e, m w = (Raise e, w') ∧ o = Raise e).
Proof.
  unfold mbind, M_bind. destruct (m w) as [[a | e] w1].
  - intros Hf. left. by exists a, w1.
  - intros [= <- <-]. right. by exists e.
Qed.

Lemma class_defined_ref {R} (C : SorterClass R) (w : world R) st :
  w_classes w !! cls_id C = Some st → class_defined C w →
  heap_wf (w_heap w) ∧
  built 0 (w_heap w) (PDict (default_params_literal C))
    (VRef (_default_params st)) (S (_default_params st)) ∧
  S (_default_params st) ≤ next_loc (w_heap w).
Proof.
  intros Hst (st' & Hst' & Hwf & Hb). rewrite Hst in Hst'. injection Hst' as <-.
  split; [done |]. split; [done |].
  pose proof Hb as (l & kvs & [= <-] & _ & Hobj & _).
  apply (heap_wf_lookup _ _ _ Hwf) in Hobj. lia.
Qed.

Lemma default_params_spec {R} (C : SorterClass R) (w : world R) st :
  w_classes w !! cls_id C = Some st → class_defined C w →
  ∃ d h1, default_params C w = (Ret d, set_heap h1 w) ∧
    fresh_copy (next_loc (w_heap w)) (w_heap w)
      (PDict (default_params_literal C)) d h1.
Proof.
  intros Hst Hdef.
  destruct (class_defined_ref C w st Hst Hdef) as (Hwf & Hb & Hle).
  destruct (deepcopy_fuel_spec (PDict (default_params_literal C))
              (next_loc (w_heap w)) (next_loc (w_heap w)) 0
              (S (_default_params st)) (w_heap w) (VRef (_default_params st)))
    as (d & h1 & Hcp & Hfresh); try done.
  - apply built_depth in Hb. lia.
  - by apply closed_from_wf.
  - exists d, h1. split; [| done].
    unfold default_params, class_attrs, deepcopy. unfold_M.
    rewrite Hst. by rewrite Hcp.
Qed.

Lemma class_defined_frame {R} (C : SorterClass R) (w : world R) h1 st :
  w_classes w !! cls_id C = Some st → class_defined C w →
  heap_wf h1 → agree_below (next_loc (w_heap w)) (w_heap w) h1 →
  class_defined C (set_heap h1 w).
Proof.
  intros Hst Hdef Hwf1 Hag.
  destruct (class_defined_ref C w st Hst Hdef) as (Hwf & Hb & Hle).
  exists st. split; [done |]. split; [done |]. simpl.
  eapply built_frame; [| apply Hb]. intros l Hl. apply Hag. lia.
Qed.

Lemma class_defined_read_back {R} (C : SorterClass R) (w : world R) st :
  w_classes w !! cls_id C = Some st → class_defined C w →
  read_back (w_heap w) (VRef (_default_params st))
  = Some (PDict (default_params_literal C)).
Proof.
  intros Hst Hdef.
  destruct (class_defined_ref C w st Hst Hdef) as (Hwf & Hb & Hle).
  by eapply reify_built.
Qed.

(** The class statement establishes [class_defined]. *)
Lemma define_class_defined {R} (C : SorterClass R) tool_path inst (w : world R) :
  heap_wf (w_heap w) →
  ∃ w', define_class C tool_path inst w = (Ret tt, w') ∧ class_defined C w'.
Proof.
  intros Hwf. unfold define_class.
  destruct (alloc_tree (PDict (default_params_literal C)) (w_heap w))
    as [v h] eqn:Hal.
  destruct (alloc_tree_spec _ (next_loc (w_heap w)) _ _ _ (le_n _)
              (closed_from_wf _ _ Hwf (le_n _)) Hal)
    as ([Hwf' _] & _ & _ & Hb & _).
  pose proof Hb as (l & kvs & -> & Hl & Hobj & Hch).
  eexists. split; [reflexivity |].
  eexists. split; [simpl; apply lookup_insert_eq |]. split; [done |]. simpl.
  eapply (built_mono _ (next_loc (w_heap w))); [lia | reflexivity |].
  exists l, kvs. split; [done |]. split; [lia |]. by split.
Qed.

(** The whole round: a copy is handed out, the caller does what it likes
    with it, and the class still hands out its declared defaults. *)
Lemma default_params_round {R} (C : SorterClass R) (w : world R) ms :
  class_defined C w →
  ∃ d w1, default_params C w = (Ret d, w1) ∧
    read_back (w_heap w1) d = Some (PDict (default_params_literal C)) ∧
    let w2 := set_heap (apply_mutations d ms (w_heap w1)) w1 in
    (∃ st, w_classes w2 !! cls_id C = Some st ∧
       read_back (w_heap w2) (VRef (_default_params st))
       = Some (PDict (default_params_literal C))) ∧
    ∃ d' w3, default_params C w2 = (Ret d', w3) ∧
      d' ≠ d ∧
      read_back (w_heap w3) d' = Some (PDict (default_params_literal C)).
Proof.
  intros Hdef. pose proof Hdef as (st & Hst & Hwf & Hb).
  destruct (default_params_spec C w st Hst Hdef) as
    (d & h1 & Hcall & Hcl1 & Hle1 & Hag1 & Hb1 & Hge1).
  exists d, (set_heap h1 w). split; [done |].
  split; [by eapply reify_built |]. simpl.
  set (n := next_loc (w_heap w)) in *.
  destruct (apply_mutations_spec n d ms h1) as (Hcl2 & Hle2 & Hag2); [done.. |].
  set (h2 := apply_mutations d ms h1) in *.
  assert (class_defined C (set_heap h2 w)) as Hdef2.
  { eapply class_defined_frame; [done | done | apply Hcl2 |].
    eapply agree_below_trans; [reflexivity | done | done]. }
  assert (set_heap h2 (set_heap h1 w) = set_heap h2 w) as -> by done.
  split.
  - exists st. split; [done |]. by apply (class_defined_read_back C (set_heap h2 w)).
  - destruct (default_params_spec C (set_heap h2 w) st Hst Hdef2) as
      (d' & h3 & Hcall' & Hcl3 & Hle3 & Hag3 & Hb3 & Hge3).
    exists d', (set_heap h3 (set_heap h2 w)). split; [done |]. split.
    + destruct Hb3 as (l' & ? & -> & Hl' & _).
      destruct Hb1 as (l & ? & -> & Hl & _).
      intros [= ->]. simpl in *. lia.
    + by eapply reify_built.
Qed.



(** ** dict operations *)

Lemma dict_get_set_eq k v d : dict_get k (dict_set k v d) = Some v.
Proof.
  induction d as [| [k' v'] d IH]; simpl.
  - by destruct (decide (k = k)).
  - case_decide; simpl; [by destruct (decide (k' = k)) |].
    by destruct (decide (k' = k)).
Qed.

Lemma dict_get_set_ne k k' v d :
  k ≠ k' → dict_get k' (dict_set k v d) = dict_get k' d.
Proof.
  intros Hne. induction d as [| [k1 v1] d IH]; simpl.
  - by destruct (decide (k = k')).
  - case_decide; simpl.
    + subst k1. by destruct (decide (k = k')).
    + case_decide; done.
Qed.

Lemma dict_keys_set k v d :
  dict_keys (dict_set k v d) = if bool_decide (k ∈ dict_keys d) then dict_keys d
                               else dict_keys d ++ [k].
Proof.
  unfold dict_keys. induction d as [| [k' v'] d IH]; csimpl; [done |].
  destruct (decide (k' = k)) as [Hk | Hk].
  - subst k'. rewrite bool_decide_true; [done | by left].
  - csimpl. rewrite IH. case_bool_decide as Hin.
    + rewrite bool_decide_true; [done | by right].
    + rewrite bool_decide_false; [done |].
      intros [? | ?]%elem_of_cons; done.
Qed.

Lemma dict_keys_set_in k v d : k ∈ dict_keys d → dict_keys (dict_set k v d) = dict_keys d.
Proof. intros Hk. rewrite dict_keys_set. by rewrite bool_decide_true. Qed.

Lemma dict_keys_update kv : ∀ d,
  Forall (λ k, k ∈ dict_keys d) kv.*1 → dict_keys (dict_update kv d) = dict_keys d.
Proof.
  unfold dict_update. induction kv as [| [k v] kv IH]; intros d; simpl; [done |].
  intros [Hk Hr]%Forall_cons. simpl in Hk. rewrite IH.
  - by apply dict_keys_set_in.
  - by rewrite dict_keys_set_in.
Qed.

Lemma dict_get_update_other k kv : ∀ d,
  k ∉ kv.*1 → dict_get k (dict_update kv d) = dict_get k d.
Proof.
  unfold dict_update. induction kv as [| [k1 v1] kv IH]; intros d; csimpl; [done |].
  intros [Hk1 Hk]%not_elem_of_cons. rewrite IH; [| done].
  by apply dict_get_set_ne.
Qed.

Lemma dict_get_update_supplied k v kv : ∀ d,
  NoDup kv.*1 → (k, v) ∈ kv → dict_get k (dict_update kv d) = Some v.
Proof.
  induction kv as [| [k1 v1] kv IH]; intros d; simpl; [by intros _ ?%elem_of_nil |].
  intros [Hk1 Hnd]%NoDup_cons [Heq | Hin]%elem_of_cons.
  - injection Heq as <- <-.
    change (dict_get k (dict_update kv (dict_set k v d)) = Some v).
    rewrite dict_get_update_other; [apply dict_get_set_eq | done].
  - change (dict_get k (dict_update kv (dict_set k1 v1 d)) = Some v).
    by apply IH.
Qed.

(** ** [set_params] *)

Section set_params.
Context {R : Type}.
Implicit Types (self : BaseSorter R) (w : world R).

Lemma set_params_loop self w st defaults keys :
  w_classes w !! cls_id (cls self) = Some st →
  objs (w_heap w) !! _default_params st = Some (ODict defaults) →
  collect keys (λ p,
    st ← class_attrs (cls self);
    defaults ← dict_items (VRef (_default_params st));
    mret (if bool_decide (p ∈ dict_keys defaults) then [] else [p])) w
  = (Ret ((λ p, if bool_decide (p ∈ dict_keys defaults) then [] else [p]) <$> keys),
     w).
Proof.
  intros Hst Hd. induction keys as [| p keys IH]; [done |].
  simpl. unfold_M. unfold class_attrs at 1, dict_items at 1.
  rewrite Hst, Hd. by rewrite IH.
Qed.

Lemma concat_singletons (P : string → Prop) `{!∀ p, Decision (P p)} keys :
  concat ((λ p, if bool_decide (P p) then [] else [p]) <$> keys)
  = filter (λ p, ¬ P p) keys.
Proof.
  induction keys as [| p keys IH]; [done |].
  csimpl. rewrite IH. rewrite filter_cons. case_bool_decide.
  - by rewrite decide_False by tauto.
  - by rewrite decide_True.
Qed.

(** A key named [self] never reaches the body. *)
Lemma set_params_self self kv w :
  "self" ∈ kv.*1 →
  set_params self kv w
  = (Raise (TypeError "set_params() got multiple values for argument 'self'"),
     w).
Proof. intros Hself. unfold set_params. by rewrite bool_decide_true. Qed.

(** [set_params] in one equation. *)
Lemma set_params_unfold self kv w st defaults :
  w_classes w !! cls_id (cls self) = Some st →
  objs (w_heap w) !! _default_params st = Some (ODict defaults) →
  "self" ∉ kv.*1 →
  set_params self kv w =
    if 0 <? length (unknown_keys defaults kv) then
      (Raise (AttributeError ("Bad parameters: "
                                +:+ py_str_list (unknown_keys defaults kv))), w)
    else dict_method_update (params self) kv w.
Proof.
  intros Hst Hd Hself. unfold set_params. rewrite bool_decide_false by done.
  unfold mbind at 1, M_bind at 1.
  rewrite (set_params_loop self w st defaults _ Hst Hd).
  rewrite concat_singletons. fold (unknown_keys defaults kv).
  by destruct (0 <? length (unknown_keys defaults kv)).
Qed.

Lemma unknown_keys_spec defaults kv k :
  k ∈ unknown_keys defaults kv ↔ k ∈ kv.*1 ∧ k ∉ dict_keys defaults.
Proof. unfold unknown_keys. rewrite list_elem_of_filter. tauto. Qed.

Lemma unknown_keys_nil defaults kv :
  unknown_keys defaults kv = [] ↔ Forall (λ k, k ∈ dict_keys defaults) kv.*1.
Proof.
  unfold unknown_keys. induction kv.*1 as [| k ks IH]; [done |].
  rewrite filter_cons. case_decide as Hk.
  - split; [done |]. intros [? ?]%Forall_cons. done.
  - rewrite IH. rewrite Forall_cons. split; [| tauto].
    intros ?. split; [| done]. by destruct (decide (k ∈ dict_keys defaults)).
Qed.
End set_params.

(** ** [__init__] *)

Section init.
Context {R : Type} `{!RecordingExtractor R}.
Implicit Types (C : SorterClass R) (w : world R).

(** *** Making directories *)

Lemma set_dirs_id w : set_dirs (w_dirs w) w = w.
Proof. by destruct w. Qed.

Lemma ancestors_take (p : path) j :
  1 ≤ j ≤ length p → take j p ∈ ancestors p.
Proof.
  intros Hj. unfold ancestors. apply list_elem_of_fmap.
  exists j. split; [done |]. apply elem_of_seq. lia.
Qed.

Lemma ancestors_self (p : path) : p ≠ [] → p ∈ ancestors p.
Proof.
  intros Hp. rewrite <- (take_ge p (length p)) at 1 by done.
  apply ancestors_take. destruct p; [done |]. simpl. lia.
Qed.

Lemma ancestors_prefix (p q : path) : q ∈ ancestors p → q `prefix_of` p.
Proof.
  unfold ancestors. intros (n & -> & _)%list_elem_of_fmap.
  apply prefix_take.
Qed.









(** Every partition has its working directory. *)
Lemma layout_length (recording : R) grouping_property base :
  length (layout recording grouping_property base).1
  ≤ length (layout recording grouping_property base).2.
Proof.
  unfold layout. destruct grouping_property as [key |]; [| done].
  destruct (1 <? length (get_sub_extractors_by_property recording key)) eqn:Hn;
    simpl.
  - by rewrite length_fmap, length_seq.
  - apply Nat.ltb_ge in Hn. lia.
Qed.

(** [__init__] from the copy of the defaults on. *)
Lemma init_tail C (recording : R) output_folder verbose grouping_property
    parallel delete_output_folder (d : val) w1 :
  let lay := layout recording grouping_property
               (base_folder C output_folder w1) in
  (cwd ← gets w_cwd;
   let output_folder :=
     absolute cwd (Path (match output_folder with
                         | None => "tmp_" +:+ sorter_name C
                         | Some s => s
                         end)) in
   let '(recording_list, output_folders) :=
     match grouping_property with
     | None => ([recording], [output_folder])
     | Some key =>
         let recording_list := get_sub_extractors_by_property recording key in
         let n_group := length recording_list in
         if (1 <? n_group)%nat then
           (recording_list, (λ i, output_folder // pretty i) <$> seq 0 n_group)
         else
           (recording_list, [output_folder // pretty 0])
     end in
   for_each output_folders (λ output_folder,
     d ← is_dir output_folder;
     if negb d then makedirs output_folder else mret tt);;
   mret (Build_BaseSorter C verbose grouping_property parallel d
           recording_list output_folders delete_output_folder)) w1
  = (for_each lay.2 (λ output_folder,
       d ← is_dir output_folder;
       if negb d then makedirs output_folder else mret tt);;
     mret (Build_BaseSorter C verbose grouping_property parallel d
             lay.1 lay.2 delete_output_folder)) w1.
Proof.
  intros lay. erewrite bind_ret; [| reflexivity].
  unfold lay, layout, base_folder.
  destruct grouping_property as [key |]; [| done].
  by destruct (1 <? length (get_sub_extractors_by_property recording key)).
Qed.

Lemma default_params_frame C w o w1 :
  default_params C w = (o, w1) → w1 = set_heap (w_heap w1) w.
Proof.
  unfold default_params.
  intros [(st & w0 & Ha & Hb) | (e & Ha & _)]%bind_inv_M.
  - unfold class_attrs in Ha. destruct (w_classes w !! cls_id C); [| done].
    injection Ha as <- <-. unfold deepcopy in Hb.
    destruct (deepcopy_fuel _ _ _) as [[v h] |]; injection Hb as <- <-;
      by destruct w.
  - unfold class_attrs in Ha. destruct (w_classes w !! cls_id C); [done |].
    injection Ha as <- <-. by destruct w.
Qed.

(** What a construction that returned has done. *)
Lemma init_inv C (recording : R) output_folder verbose grouping_property
    parallel delete_output_folder w self w' :
  __init__ C recording output_folder verbose grouping_property parallel
    delete_output_folder w = (Ret self, w') →
  let lay := layout recording grouping_property
               (base_folder C output_folder w) in
  ∃ st d w1,
    w_classes w !! cls_id C = Some st ∧ installed st = true ∧
    (requires_locations C = true →
     "location" ∈ get_shared_channel_property_names recording) ∧
    default_params C w = (Ret d, w1) ∧
    for_each lay.2 (λ output_folder,
      d ← is_dir output_folder;
      if negb d then makedirs output_folder else mret tt) w1 = (Ret tt, w') ∧
    self = Build_BaseSorter C verbose grouping_property parallel d
             lay.1 lay.2 delete_output_folder.
Proof.
  intros Hinit lay. unfold __init__ in Hinit.
  apply bind_inv_M in Hinit as [(st0 & w0 & Hst & Hinit) | (e & _ & ?)];
    [| done].
  unfold class_attrs in Hst.
  destruct (w_classes w !! cls_id C) as [st |] eqn:Hcls; [| done].
  injection Hst as <- <-.
  apply bind_inv_M in Hinit as [([] & w0 & Hasrt & Hinit) | (e & _ & ?)];
    [| done].
  unfold py_assert in Hasrt.
  destruct (installed st) eqn:Hinst; [| done]. injection Hasrt as <-.
  apply bind_inv_M in Hinit as [([] & w0 & Hreq & Hinit) | (e & _ & ?)];
    [| done].
  assert (w0 = w ∧ (requires_locations C = true →
                    "location" ∈ get_shared_channel_property_names recording))
    as [-> Hloc].
  { destruct (requires_locations C); [| by injection Hreq as <-].
    case_bool_decide; [| done]. by injection Hreq as <-. }
  apply bind_inv_M in Hinit as [(d & w1 & Hdp & Hinit) | (e & _ & ?)];
    [| done].
  pose proof (default_params_frame _ _ _ _ Hdp) as Hw1.
  rewrite init_tail in Hinit.
  assert (base_folder C output_folder w1 = base_folder C output_folder w)
    as Hbase by (unfold base_folder; by rewrite Hw1).
  rewrite Hbase in Hinit. fold lay in Hinit.
  apply bind_inv_M in Hinit as [([] & w2 & Hloop & Hret) | (e & _ & ?)];
    [| done].
  injection Hret as <- <-.
  exists st, d, w1. done.
Qed.

End init.

(** ** [run] *)

Section run.
Context {R : Type} `{!RecordingExtractor R}.
Implicit Types (C : SorterClass R) (w : world R) (self : BaseSorter R).

Lemma set_trace_id w : set_trace (w_trace w ++ []) w = w.
Proof. destruct w. unfold set_trace. simpl. by rewrite app_nil_r. Qed.

Lemma invoke_spec C m r f w :
  invoke C m r f w
  = (match adapter_outcome C m r f with None => Ret tt | Some e => Raise e end,
     set_trace (w_trace w ++ sequential_events C m [(r, f)]) w).
Proof.
  unfold invoke. simpl. erewrite bind_ret; [| reflexivity].
  destruct (adapter_outcome C m r f) as [e |].
  - erewrite bind_ret; [| reflexivity]. unfold raise, set_trace. simpl.
    by rewrite <- app_assoc.
  - unfold emit, modify, set_trace. simpl. by rewrite <- app_assoc.
Qed.

(** A loop that calls [m] on the partitions in order. *)
Lemma sequential_loop C m folders recs : ∀ k w,
  k + length recs ≤ length folders →
  for_each (zip (seq k (length recs)) recs) (λ '(i, recording),
    folder ← index folders i; invoke C m recording folder) w
  = (sequential_outcome C m (zip recs (drop k folders)),
     set_trace (w_trace w ++ sequential_events C m (zip recs (drop k folders))) w).
Proof.
  induction recs as [| r recs IH]; intros k w Hlen.
  - simpl. by rewrite set_trace_id.
  - simpl in Hlen.
    destruct (lookup_lt_is_Some_2 folders k) as [f Hf]; [lia |].
    rewrite (drop_S _ _ _ Hf). simpl.
    assert ((folder ← index folders k; invoke C m r folder) w
            = invoke C m r f w) as Hbody.
    { erewrite bind_ret; [done |]. unfold index. by rewrite Hf. }
    rewrite invoke_spec in Hbody. simpl in Hbody.
    destruct (adapter_outcome C m r f) as [e |].
    + erewrite bind_raise; [| exact Hbody]. done.
    + erewrite bind_ret; [| exact Hbody].
      rewrite IH by lia. f_equal.
      unfold set_trace. simpl. by rewrite <- app_assoc.
Qed.

Lemma sequential_events_completed C m parts :
  (∀ p, p ∈ parts → adapter_outcome C m p.1 p.2 = None) →
  sequential_events C m parts = completed m parts ∧
  sequential_outcome C m parts = Ret tt.
Proof.
  induction parts as [| [r f] parts IH]; intros Hok; [done |].
  pose proof (Hok (r, f) ltac:(by left)) as Hrf. simpl in Hrf.
  simpl. rewrite Hrf.
  destruct IH as [-> ->]; [| done].
  intros p Hp. apply Hok. by right.
Qed.

Lemma sequential_outcome_completed C m parts :
  sequential_outcome C m parts = Ret tt →
  sequential_events C m parts = completed m parts.
Proof.
  induction parts as [| [r f] parts IH]; [done |].
  simpl. destruct (adapter_outcome C m r f); [done |].
  intros Ho. by rewrite IH.
Qed.

Lemma sequential_events_method C m parts :
  Forall (λ ev, event_method ev = Some m) (sequential_events C m parts).
Proof.
  induction parts as [| [r f] parts IH]; [done |].
  simpl. constructor; [done |].
  destruct (adapter_outcome C m r f); repeat constructor; done.
Qed.

(** *** Threads only add steps of [_run] *)

Lemma run_ext_refl w : pool_run w → run_ext w w.
Proof. intros Hp. split; [| done]. exists []. by rewrite app_nil_r. Qed.

Lemma run_ext_trans w1 w2 w3 : run_ext w1 w2 → run_ext w2 w3 → run_ext w1 w3.
Proof.
  intros [(e1 & H1 & F1) _] [(e2 & H2 & F2) Hp]. split; [| done].
  exists (e1 ++ e2). rewrite H2, H1, app_assoc. split; [done |].
  by apply Forall_app.
Qed.

Lemma run_ext_sched w w' sc : run_ext w w' → run_ext w (set_sched sc w').
Proof. intros [He Hp]. split; done. Qed.

Lemma step_thread_ext t w : pool_run w → run_ext w (step_thread t w).
Proof.
  intros Hp. unfold step_thread.
  destruct (w_threads w !! t) as [th |] eqn:Ht; [| by apply run_ext_refl].
  destruct (started th); [| by apply run_ext_refl].
  destruct (pending th) as [| ev rest] eqn:Hpend; [by apply run_ext_refl |].
  pose proof (Forall_lookup_1 _ _ _ _ Hp Ht) as Hth. simpl in Hth.
  rewrite Hpend in Hth.
  apply Forall_cons in Hth as [Hev Hrest].
  split.
  - exists [ev]. split; [done |]. by constructor.
  - unfold pool_run. simpl. apply Forall_insert; done.
Qed.

Lemma run_others_ext sched : ∀ w, pool_run w → run_ext w (run_others sched w).
Proof.
  induction sched as [| [t |] sched IH]; intros w Hp; simpl.
  - apply run_ext_sched. by apply run_ext_refl.
  - eapply run_ext_trans; [by apply step_thread_ext |].
    apply IH. by apply step_thread_ext.
  - apply run_ext_sched. by apply run_ext_refl.
Qed.

Lemma drain_ext t w : pool_run w → run_ext w (drain t w).
Proof.
  intros Hp. unfold drain.
  destruct (w_threads w !! t) as [th |] eqn:Ht; [| by apply run_ext_refl].
  pose proof (Forall_lookup_1 _ _ _ _ Hp Ht) as Hth.
  split.
  - by exists (pending th).
  - unfold pool_run. simpl. apply Forall_insert; done.
Qed.

Lemma wait_for_ext t sched : ∀ w, pool_run w → run_ext w (wait_for t sched w).
Proof.
  induction sched as [| [u |] sched IH]; intros w Hp; simpl;
    destruct (thread_finished t w);
    try (apply run_ext_sched; by apply run_ext_refl).
  - apply run_ext_sched. by apply drain_ext.
  - eapply run_ext_trans; [by apply step_thread_ext |].
    apply IH. by apply step_thread_ext.
  - by apply IH.
Qed.

Lemma Thread_new_ext steps w :
  pool_run w → Forall (λ ev, event_method ev = Some Run) steps →
  ∃ t w', Thread_new steps w = (Ret t, w') ∧ run_ext w w'.
Proof.
  intros Hp Hsteps. eexists _, _. split; [reflexivity |]. split.
  - exists []. simpl. by rewrite app_nil_r.
  - unfold pool_run. simpl. apply Forall_app. split; [done |].
    by repeat constructor.
Qed.

Lemma Thread_start_ext t w o w' :
  pool_run w → Thread_start t w = (o, w') → run_ext w w'.
Proof.
  intros Hp. unfold Thread_start.
  destruct (w_threads w !! t) as [th |] eqn:Ht;
    [| intros [= <- <-]; by apply run_ext_refl].
  destruct (started th); [intros [= <- <-]; by apply run_ext_refl |].
  intros [= <- <-].
  match goal with |- run_ext w (run_others _ ?w1) => set (w1' := w1) end.
  assert (run_ext w w1') as Hw1.
  { split.
    - exists []. simpl. by rewrite app_nil_r.
    - unfold pool_run. simpl. apply Forall_insert; [done |]. simpl.
      exact (Forall_lookup_1 _ _ _ _ Hp Ht). }
  eapply run_ext_trans; [done |]. apply run_others_ext. apply Hw1.
Qed.

Lemma Thread_join_ext t w o w' :
  pool_run w → Thread_join t w = (o, w') → run_ext w w'.
Proof.
  intros Hp. unfold Thread_join.
  destruct (w_threads w !! t) as [th |] eqn:Ht;
    [| intros [= <- <-]; by apply run_ext_refl].
  destruct (started th); intros [= <- <-]; [| by apply run_ext_refl].
  by apply wait_for_ext.
Qed.

Lemma for_each_ext {A} (body : A → M R unit) l :
  (∀ x w o w', pool_run w → body x w = (o, w') → run_ext w w') →
  ∀ w o w', pool_run w → for_each l body w = (o, w') → run_ext w w'.
Proof.
  intros Hbody. induction l as [| x l IH]; intros w o w' Hp; simpl.
  - intros [= <- <-]. by apply run_ext_refl.
  - unfold mbind, M_bind.
    destruct (body x w) as [[[] | e] w1] eqn:Hx.
    + intros Hl. eapply run_ext_trans; [by eapply Hbody |].
      eapply IH; [| done]. by eapply Hbody.
    + intros [= <- <-]. by eapply Hbody.
Qed.

Lemma collect_ext {A B} (body : A → M R B) l :
  (∀ x w o w', pool_run w → body x w = (o, w') → run_ext w w') →
  ∀ w o w', pool_run w → collect l body w = (o, w') → run_ext w w'.
Proof.
  intros Hbody. induction l as [| x l IH]; intros w o w' Hp; simpl.
  - intros [= <- <-]. by apply run_ext_refl.
  - unfold mbind at 1, M_bind at 1.
    destruct (body x w) as [[y | e] w1] eqn:Hx.
    + unfold mbind at 1, M_bind at 1.
      destruct (collect l body w1) as [[ys | e] w2] eqn:Hl.
      * intros [= <- <-]. eapply run_ext_trans; [by eapply Hbody |].
        eapply IH; [| done]. by eapply Hbody.
      * intros [= <- <-]. eapply run_ext_trans; [by eapply Hbody |].
        eapply IH; [| done]. by eapply Hbody.
    + intros [= <- <-]. by eapply Hbody.
Qed.

(** The threaded branch of [run]. *)
Lemma parallel_branch_ext self w o w' :
  pool_run w →
  (threads ← collect (enumerate (recording_list self)) (λ '(i, recording),
     folder ← index (output_folders self) i;
     thread ← Thread_new (adapter_steps (cls self) Run recording folder);
     Thread_start thread;;
     mret thread);
   for_each threads Thread_join) w = (o, w') →
  run_ext w w'.
Proof.
  intros Hp. unfold mbind at 1, M_bind at 1.
  match goal with |- context [collect ?l ?b w] =>
    destruct (collect l b w) as [[threads | e] w1] eqn:Hc;
    assert (run_ext w w1) as Hw1
  end.
  1, 3: (eapply collect_ext; [| exact Hp | exact Hc];
    intros [i r] w0 o0 w0' Hp0;
    unfold mbind at 1, M_bind at 1; unfold index;
    destruct (output_folders self !! i) as [f |];
      [| intros [= <- <-]; by apply run_ext_refl];
    unfold mret at 1, M_ret at 1;
    destruct (Thread_new_ext (adapter_steps (cls self) Run r f) w0 Hp0)
      as (t & w0t & Hnew & Hext);
      [unfold adapter_steps; repeat constructor;
       by destruct (adapter_outcome (cls self) Run r f) |];
    unfold mbind at 1, M_bind at 1; rewrite Hnew;
    unfold mbind at 1, M_bind at 1;
    destruct (Thread_start t w0t) as [[[] | e0] w0s] eqn:Hs;
    intros [= <- <-];
    (eapply run_ext_trans; [exact Hext |];
     eapply Thread_start_ext; [apply Hext | exact Hs])).
  - intros Hj. eapply run_ext_trans; [exact Hw1 |].
    eapply for_each_ext; [| apply Hw1 | exact Hj].
    intros t w0 o0 w0' Hp0. by apply Thread_join_ext.
  - by intros [= <- <-].
Qed.
End run.

(** ** [get_result_list] and [get_result] *)

Section get_result.
Context {R : Type} `{!RecordingExtractor R}.
Implicit Types (C : SorterClass R) (w : world R) (self : BaseSorter R).
Implicit Types (s : gmap loc sorting_obj).

Lemma set_sortings_id w : set_sortings (w_sortings w) (w_next_sorting w) w = w.
Proof. by destruct w. Qed.

Lemma get_result_list_loop C folders recs : ∀ k w,
  k + length recs ≤ length folders →
  collect (zip (seq k (length recs)) recs) (λ '(i, _),
    folder ← index folders i; get_result_from_folder C folder) w
  = let '(l, s, n) := parse_all C (zip recs (drop k folders))
                        (w_sortings w) (w_next_sorting w) in
    (Ret l, set_sortings s n w).
Proof.
  induction recs as [| r recs IH]; intros k w Hlen.
  - simpl. by rewrite set_sortings_id.
  - simpl in Hlen.
    destruct (lookup_lt_is_Some_2 folders k) as [f Hf]; [lia |].
    rewrite (drop_S _ _ _ Hf). simpl.
    assert ((folder ← index folders k; get_result_from_folder C folder) w
            = get_result_from_folder C f w) as Hbody.
    { erewrite bind_ret; [done |]. unfold index. by rewrite Hf. }
    destruct (parse_folder (tool C) f) as [[us props] |] eqn:Hparse.
    + assert (get_result_from_folder C f w
              = (Ret (Some (w_next_sorting w)),
                 set_sortings
                   (<[w_next_sorting w := Sorting us props None]> (w_sortings w))
                   (S (w_next_sorting w)) w)) as Hres.
      { unfold get_result_from_folder. rewrite Hparse.
        erewrite bind_ret; reflexivity. }
      rewrite Hres in Hbody.
      erewrite bind_ret; [| exact Hbody].
      specialize (IH (S k) (set_sortings
        (<[w_next_sorting w := Sorting us props None]> (w_sortings w))
        (S (w_next_sorting w)) w) ltac:(lia)).
      simpl in IH.
      destruct (parse_all C (zip recs (drop (S k) folders)) _ _) as [[l s] n].
      erewrite bind_ret; [| exact IH]. done.
    + assert (get_result_from_folder C f w = (Ret None, w)) as Hres.
      { unfold get_result_from_folder. by rewrite Hparse. }
      rewrite Hres in Hbody.
      erewrite bind_ret; [| exact Hbody].
      specialize (IH (S k) w ltac:(lia)).
      destruct (parse_all C (zip recs (drop (S k) folders)) _ _) as [[l s] n].
      erewrite bind_ret; [| exact IH]. done.
Qed.

Lemma get_result_list_spec self w :
  length (recording_list self) ≤ length (output_folders self) →
  get_result_list self w
  = let '(l, s, n) := parse_all (cls self)
                        (zip (recording_list self) (output_folders self))
                        (w_sortings w) (w_next_sorting w) in
    (Ret l, set_sortings s n w).
Proof.
  intros Hlen.
  pose proof (get_result_list_loop (cls self) (output_folders self)
                (recording_list self) 0 w Hlen) as H.
  by rewrite drop_0 in H.
Qed.




(** Removing the working directories leaves the result objects alone. *)
Lemma delete_loop_spec self w :
  ∃ w', (if delete_folders self then
           for_each (output_folders self) (λ out,
             (if verbose self then print ("Removing " +:+ path_str out)
              else mret tt);;
             rmtree out)
         else mret tt) w = (Ret tt, w') ∧
        w_sortings w' = w_sortings w ∧ w_next_sorting w' = w_next_sorting w.
Proof.
  destruct (delete_folders self); [| by exists w].
  revert w. induction (output_folders self) as [| out outs IH]; intros w.
  - by exists w.
  - simpl.
    assert (∃ w1, ((if verbose self then print ("Removing " +:+ path_str out)
                    else mret tt);; rmtree out) w = (Ret tt, w1) ∧
                  w_sortings w1 = w_sortings w ∧
                  w_next_sorting w1 = w_next_sorting w) as (w1 & Hb & Hs & Hn).
    { destruct (verbose self); by eexists. }
    destruct (IH w1) as (w' & Hl & Hs' & Hn').
    exists w'. erewrite bind_ret; [| exact Hb].
    split; [done |]. split; congruence.
Qed.
End get_result.

Section merge.
Context {R : Type} `{!RecordingExtractor R}.
Implicit Types (C : SorterClass R) (w : world R) (self : BaseSorter R).
Implicit Types (s : gmap loc sorting_obj).

Lemma store_wf_lookup s n k o : store_wf s n → s !! k = Some o → k < n.
Proof. intros Hwf Hk. exact (Hwf k o Hk). Qed.






End merge.

Section assemble.
Context {R : Type} `{!RecordingExtractor R}.
Implicit Types (C : SorterClass R) (w : world R) (self : BaseSorter R).
Implicit Types (s : gmap loc sorting_obj).



End assemble.

(** ** [get_result] with exactly one partition *)

Section single.
Context {R : Type} `{!RecordingExtractor R}.
Implicit Types (C : SorterClass R) (w : world R) (self : BaseSorter R).

(** One partition, and the parser found nothing. *)
Lemma get_result_single_none self w r f fs :
  recording_list self = [r] → output_folders self = f :: fs →
  parse_folder (tool (cls self)) f = None →
  ∃ w', get_result self w
        = (Raise (none_has_no_attribute "set_sampling_frequency"), w') ∧
        w_sortings w' = w_sortings w.
Proof.
  intros Hr Hf Hparse.
  assert (get_result_list self w = (Ret [None], w)) as Hlist.
  { rewrite get_result_list_spec by (rewrite Hr, Hf; simpl; lia).
    rewrite Hr, Hf. simpl. rewrite Hparse. by rewrite set_sortings_id. }
  destruct (delete_loop_spec self w) as (w' & Hdel & Hs & Hn).
  exists w'. split; [| done].
  unfold get_result.
  erewrite bind_ret; [| exact Hlist].
  erewrite bind_ret; [| reflexivity].
  erewrite bind_ret; [| exact Hdel].
  erewrite bind_raise; reflexivity.
Qed.

(** One partition, and the parser built a result object: that object is
    returned, stamped with the sampling frequency, its units and their
    properties as the parser left them. *)
Lemma get_result_single_some self w r f fs us props :
  recording_list self = [r] → output_folders self = f :: fs →
  parse_folder (tool (cls self)) f = Some (us, props) →
  ∃ w', get_result self w = (Ret (Some (w_next_sorting w)), w') ∧
        w_sortings w' = <[w_next_sorting w :=
                           Sorting us props (Some (get_sampling_frequency r))]>
                          (w_sortings w).
Proof.
  intros Hr Hf Hparse.
  set (n := w_next_sorting w).
  set (w1 := set_sortings (<[n := Sorting us props None]> (w_sortings w)) (S n) w).
  assert (get_result_list self w = (Ret [Some n], w1)) as Hlist.
  { rewrite get_result_list_spec by (rewrite Hr, Hf; simpl; lia).
    rewrite Hr, Hf. simpl. by rewrite Hparse. }
  destruct (delete_loop_spec self w1) as (w2 & Hdel & Hs & Hn).
  set (sf := get_sampling_frequency r).
  set (s3 := <[n := Sorting us props (Some sf)]> (w_sortings w2)).
  assert (set_sampling_frequency n sf w2
          = (Ret tt, set_sortings s3 (w_next_sorting w2) w2)) as Hstamp.
  { unfold set_sampling_frequency. rewrite Hs.
    change (w_sortings w1) with (<[n := Sorting us props None]> (w_sortings w)).
    rewrite lookup_insert_eq. unfold s3. by rewrite Hs. }
  exists (set_sortings s3 (w_next_sorting w2) w2). split.
  - unfold get_result.
    erewrite bind_ret; [| exact Hlist].
    erewrite bind_ret; [| reflexivity].
    erewrite bind_ret; [| exact Hdel].
    erewrite bind_ret; [reflexivity |].
    erewrite bind_ret; [exact Hstamp |].
    unfold index. by rewrite Hr.
  - simpl. unfold s3. rewrite Hs.
    change (w_sortings w1) with (<[n := Sorting us props None]> (w_sortings w)).
    by rewrite insert_insert_eq.
Qed.
End single.

(** ** Dispatch *)

Section dispatch.
Context {R : Type} `{!RecordingExtractor R}.
Variables KlustaSorter TridesclousSorter Mountainsort4Sorter IronClustSorter
    SpykingcircusSorter HerdingspikesSorter WaveClusSorter : SorterClass R.
Variables kilosort_tool kilosort2_tool : external_tool R.

  #[local] Abbreviation unregistered :=
    (unregistered KlustaSorter TridesclousSorter Mountainsort4Sorter
       IronClustSorter SpykingcircusSorter HerdingspikesSorter WaveClusSorter
       kilosort_tool kilosort2_tool).
  #[local] Abbreviation resolves :=
    (resolves KlustaSorter TridesclousSorter Mountainsort4Sorter
       IronClustSorter SpykingcircusSorter HerdingspikesSorter WaveClusSorter
       kilosort_tool kilosort2_tool).
  #[local] Abbreviation run_sorter :=
    (run_sorter KlustaSorter TridesclousSorter Mountainsort4Sorter
       IronClustSorter SpykingcircusSorter HerdingspikesSorter WaveClusSorter
       kilosort_tool kilosort2_tool).
  #[local] Abbreviation get_default_params :=
    (get_default_params KlustaSorter TridesclousSorter Mountainsort4Sorter
       IronClustSorter SpykingcircusSorter HerdingspikesSorter WaveClusSorter
       kilosort_tool kilosort2_tool).

Lemma get_default_params_resolves arg C w :
  resolves arg C → get_default_params arg w = default_params C w.
Proof.
  unfold get_default_params. destruct arg as [name | C' | a]; simpl.
  - intros Hname. erewrite bind_ret; [done |]. by rewrite Hname.
  - intros [-> Hin]. erewrite bind_ret; [done |]. by rewrite Hin.
  - done.
Qed.

Lemma dispatch_unregistered arg :
  unregistered arg →
  ∀ recording output_folder delete_output_folder grouping_property
    parallel verbose kv w,
    run_sorter arg recording output_folder delete_output_folder
      grouping_property parallel verbose kv w
    = (Raise (dispatch_error arg), w) ∧
    get_default_params arg w = (Raise (dispatch_error arg), w).
Proof.
  intros Hun recording output_folder delete_output_folder grouping_property
    parallel verbose kv w.
  unfold run_sorter, get_default_params.
  destruct arg as [name | C | a]; simpl in *.
  - split; (erewrite bind_raise; [done |]); by rewrite Hun.
  - split; (erewrite bind_raise; [done |]); by rewrite Hun.
  - split; by (erewrite bind_raise; [done |]).
Qed.
End dispatch.

(** ** The path setter and the installed listing *)

Section listing.
Context {R : Type}.

Lemma installed_sorters_reads_global (w : world R) :
  installed_sorters w
  = (Ret (sorted (sorter_name <$> w_installed_sorter_list w)), w).
Proof. done. Qed.

Lemma set_kilosort_path_global tool p (w : world R) :
  w_installed_sorter_list (kilosort.set_kilosort_path tool p w).2
  = w_installed_sorter_list w.
Proof.
  unfold kilosort.set_kilosort_path, class_attrs, kilosort.check_if_installed,
    set_class_attrs, print, emit, is_file.
  unfold_M. simpl.
  destruct (w_classes w !! 4) as [st |]; [| done]. simpl.
  rewrite lookup_insert_eq. simpl.
  by destruct (starts_with_quote p).
Qed.
End listing.

(** ** Messages *)

Lemma str_app_assoc (a b c : string) : (a +:+ b) +:+ c = a +:+ b +:+ c.
Proof.
  induction a as [| x a IH]; [done |].
  change (String x ((a +:+ b) +:+ c) = String x (a +:+ b +:+ c)).
  by rewrite IH.
Qed.

Lemma str_app_nil_r (a : string) : a +:+ "" = a.
Proof.
  induction a as [| x a IH]; [done |].
  change (String x (a +:+ "") = String x a). by rewrite IH.
Qed.

Lemma mentions_app_l msg s pre : mentions msg s → mentions (pre +:+ msg) s.
Proof.
  intros (p & q & ->). exists (pre +:+ p), q. by rewrite str_app_assoc.
Qed.

Lemma mentions_app_r msg s post : mentions msg s → mentions (msg +:+ post) s.
Proof.
  intros (p & q & ->). exists p, (q +:+ post). by rewrite !str_app_assoc.
Qed.

Lemma mentions_refl s : mentions s s.
Proof. exists "", "". by rewrite str_app_nil_r. Qed.

Lemma concat_mentions sep (l : list string) x :
  x ∈ l → mentions (String.concat sep l) x.
Proof.
  induction l as [| y l IH]; [by intros ?%elem_of_nil |].
  intros Hx. destruct l as [| z l].
  - apply elem_of_cons in Hx as [-> | ?%elem_of_nil]; [| done].
    apply mentions_refl.
  - change (mentions (y +:+ sep +:+ String.concat sep (z :: l)) x).
    apply elem_of_cons in Hx as [-> | Hx].
    + apply mentions_app_r, mentions_refl.
    + apply mentions_app_l, mentions_app_l. by apply IH.
Qed.

Lemma py_str_list_mentions (l : list string) k :
  k ∈ l → mentions (py_str_list l) (py_repr k).
Proof.
  intros Hk. unfold py_str_list.
  apply mentions_app_l, mentions_app_r, concat_mentions.
  apply list_elem_of_fmap. by exists k.
Qed.

Lemma prefix_app (s post : string) : String.prefix s (s +:+ post) = true.
Proof.
  induction s as [| a s IH].
  - change ("" +:+ post) with post. by destruct post.
  - change (String a s +:+ post) with (String a (s +:+ post)). simpl.
    by destruct (Ascii.ascii_dec a a).
Qed.

Lemma contains_prefix s msg :
  String.prefix s msg = true → contains s msg = true.
Proof. intros H. destruct msg; cbn [contains]; by rewrite H. Qed.

(** [contains] finds every occurrence. *)
Lemma mentions_contains msg s : mentions msg s → contains s msg = true.
Proof.
  intros (pre & post & ->). induction pre as [| c pre IH].
  - change ("" +:+ s +:+ post) with (s +:+ post).
    apply contains_prefix, prefix_app.
  - change (String c pre +:+ s +:+ post) with (String c (pre +:+ s +:+ post)).
    cbn [contains]. rewrite IH. apply orb_true_r.
Qed.

(** ** [get_result] and the ['group'] property *)

Section group.
Context {R : Type} `{!RecordingExtractor R}.
Implicit Types (C : SorterClass R) (w : world R) (self : BaseSorter R).

Lemma parse_all_length C (parts : list (R * path)) : ∀ s n,
  length (parse_all C parts s n).1.1 = length parts.
Proof.
  induction parts as [| [r f] parts IH]; intros s n; simpl; [done |].
  destruct (parse_folder (tool C) f) as [[us props] |].
  - specialize (IH (<[n := Sorting us props None]> s) (S n)).
    destruct (parse_all C parts _ (S n)) as [[l s'] n']. simpl in *.
    by rewrite IH.
  - specialize (IH s n).
    destruct (parse_all C parts s n) as [[l s'] n']. simpl in *.
    by rewrite IH.
Qed.

(** With more than one partition the first thing [get_result] does after
    parsing is to read the ['group'] property of the first channel of the
    first partition's recording; when the collaborator raises there,
    [get_result] raises. *)
Lemma get_result_group_failure self w r0 ch e :
  length (recording_list self) ≤ length (output_folders self) →
  1 < length (recording_list self) →
  recording_list self !! 0 = Some r0 →
  get_channel_ids r0 !! 0 = Some ch →
  get_channel_property r0 ch "group" = Raise e →
  ∃ w', get_result self w = (Raise e, w') ∧ results_only w w'.
Proof.
  intros Hlen Hmany Hr0 Hch He.
  pose proof (get_result_list_spec self w Hlen) as Hlist.
  pose proof (parse_all_length (cls self)
                (zip (recording_list self) (output_folders self))
                (w_sortings w) (w_next_sorting w)) as Hll.
  destruct (parse_all (cls self) _ (w_sortings w) (w_next_sorting w))
    as [[l s1] n1].
  simpl in Hll. rewrite length_zip in Hll.
  exists (set_sortings s1 n1 w). split; [| by destruct w].
  unfold get_result.
  erewrite bind_ret; [| exact Hlist].
  erewrite bind_raise; [reflexivity |].
  rewrite bool_decide_false by lia.
  destruct l as [| o l]; [simpl in Hll; lia |].
  erewrite bind_raise; [reflexivity |].
  cbn [enumerate length seq zip zip_with for_each].
  erewrite bind_raise; [reflexivity |].
  erewrite bind_ret; [| unfold index; by rewrite Hr0].
  erewrite bind_ret; [| unfold index; by rewrite Hch].
  erewrite bind_raise; [reflexivity |].
  unfold lift_outcome. by rewrite He.
Qed.
End group.

(** ** More on [run] *)

Section run_outcomes.
Context {R : Type} `{!RecordingExtractor R}.
Implicit Types (C : SorterClass R) (w : world R) (self : BaseSorter R).

(** The first partition on which [m] raises ends the loop. *)
Lemma sequential_first_failure C m ps1 r f e ps2 :
  (∀ p, p ∈ ps1 → adapter_outcome C m p.1 p.2 = None) →
  adapter_outcome C m r f = Some e →
  sequential_outcome C m (ps1 ++ (r, f) :: ps2) = Raise e ∧
  sequential_events C m (ps1 ++ (r, f) :: ps2)
  = completed m ps1 ++ [EvCall m r f; EvRaise m r f e].
Proof.
  intros Hok Hfail. induction ps1 as [| [r1 f1] ps1 IH]; simpl.
  - by rewrite Hfail.
  - pose proof (Hok (r1, f1) ltac:(by left)) as H1. simpl in H1. rewrite H1.
    destruct IH as [-> ->]; [| done].
    intros p Hp. apply Hok. by right.
Qed.

(** [run] in sequential mode, in one equation. *)
Lemma run_sequential_unfold self w :
  length (recording_list self) ≤ length (output_folders self) →
  parallel self = false →
  let parts := zip (recording_list self) (output_folders self) in
  let SE := sequential_events (cls self) Setup parts in
  let RE := sequential_events (cls self) Run parts in
  run self w =
    match sequential_outcome (cls self) Setup parts with
    | Raise e => (Raise e, set_trace (w_trace w ++ SE) w)
    | Ret _ =>
        match sequential_outcome (cls self) Run parts with
        | Raise e => (Raise e, set_trace (w_trace w ++ SE ++ RE) w)
        | Ret _ =>
            (Ret tt,
             set_trace (w_trace w ++ SE ++ RE ++
                        (if verbose self
                         then [EvPrint (sorter_name (cls self) +:+ " run time")]
                         else [])) w)
        end
    end.
Proof.
  intros Hlen Hseq parts SE RE.
  pose proof (sequential_loop (cls self) Setup (output_folders self)
                (recording_list self) 0 w Hlen) as Hsetup.
  rewrite drop_0 in Hsetup. fold parts in Hsetup. fold SE in Hsetup.
  unfold run.
  destruct (sequential_outcome (cls self) Setup parts) as [[] | e].
  - erewrite bind_ret; [| exact Hsetup]. rewrite Hseq. simpl negb. cbv iota.
    pose proof (sequential_loop (cls self) Run (output_folders self)
                  (recording_list self) 0 (set_trace (w_trace w ++ SE) w) Hlen)
      as Hrun.
    rewrite drop_0 in Hrun. fold parts in Hrun. fold RE in Hrun.
    destruct (sequential_outcome (cls self) Run parts) as [[] | e].
    + erewrite bind_ret; [| exact Hrun].
      destruct (verbose self); simpl.
      * unfold print, emit, modify, set_trace. simpl. by rewrite <- !app_assoc.
      * unfold mret, M_ret, set_trace. simpl. by rewrite app_nil_r, <- !app_assoc.
    + erewrite bind_raise; [| exact Hrun].
      unfold set_trace. simpl. by rewrite <- !app_assoc.
  - by erewrite bind_raise; [| exact Hsetup].
Qed.

(** When staging raises, [run] ends there, in either mode. *)
Lemma run_setup_failure self w e :
  length (recording_list self) ≤ length (output_folders self) →
  let parts := zip (recording_list self) (output_folders self) in
  sequential_outcome (cls self) Setup parts = Raise e →
  run self w
  = (Raise e, set_trace (w_trace w ++ sequential_events (cls self) Setup parts) w).
Proof.
  intros Hlen parts Hfail.
  pose proof (sequential_loop (cls self) Setup (output_folders self)
                (recording_list self) 0 w Hlen) as Hsetup.
  rewrite drop_0 in Hsetup. fold parts in Hsetup. rewrite Hfail in Hsetup.
  unfold run. by erewrite bind_raise; [| exact Hsetup].
Qed.
End run_outcomes.

(** ** The thread pool of [run] *)

Section pool.
Context {R : Type} `{!RecordingExtractor R}.
Implicit Types (C : SorterClass R) (w : world R) (self : BaseSorter R).
Implicit Types (th : thread R) (S : list (event R)).

Lemma concat_pending_insert (l : list (thread R)) t th th' :
  l !! t = Some th →
  ∃ c1 c2, concat (pending <$> l) = c1 ++ pending th ++ c2 ∧
           concat (pending <$> <[t := th']> l) = c1 ++ pending th' ++ c2.
Proof.
  intros Ht.
  exists (concat (pending <$> take t l)),
         (concat (pending <$> drop (Datatypes.S t) l)).
  split.
  - rewrite <- (take_drop_middle l t th Ht) at 1.
    rewrite fmap_app, concat_app. by csimpl.
  - rewrite insert_take_drop by (by eapply lookup_lt_Some).
    rewrite fmap_app, concat_app. by csimpl.
Qed.

Lemma same_store_refl w : same_store w w.
Proof. by destruct w. Qed.

Lemma same_store_trans w1 w2 w3 :
  same_store w1 w2 → same_store w2 w3 → same_store w1 w3.
Proof.
  unfold same_store, set_trace, set_threads.
  destruct w1, w2, w3. simpl. intros [= -> -> -> -> -> -> -> -> ->].
  by intros [= -> -> -> -> -> -> -> -> ->].
Qed.

Lemma spawned_trans S1 S2 n1 n2 w1 w2 w3 :
  spawned S1 n1 w1 w2 → spawned S2 n2 w2 w3 →
  spawned (S1 ++ S2) (n1 + n2) w1 w3.
Proof.
  intros (Hl1 & Ho1 & Hn1 & (e1 & Ht1 & Hp1) & Hs1)
         (Hl2 & Ho2 & Hn2 & (e2 & Ht2 & Hp2) & Hs2).
  split; [lia |]. split; [| split; [| split]].
  - intros t th Ht. destruct (Ho1 t th Ht) as (th1 & Ht1' & Hsuf1 & Hst1).
    destruct (Ho2 t th1 Ht1') as (th2 & Ht2' & Hsuf2 & Hst2).
    exists th2. split; [done |].
    split; [by trans (pending th1) | auto].
  - intros t Ht.
    destruct (decide (t < length (w_threads w2))) as [Hlt | Hge].
    + destruct (Hn1 t ltac:(lia)) as (th1 & Ht1' & Hst1).
      destruct (Ho2 t th1 Ht1') as (th2 & Ht2' & _ & Hst2).
      exists th2. auto.
    + apply Hn2. lia.
  - exists (e1 ++ e2). split; [by rewrite Ht2, Ht1, app_assoc |].
    rewrite <- (app_assoc e1), Hp2, (app_assoc e1), Hp1.
    by rewrite <- app_assoc.
  - by eapply same_store_trans.
Qed.

Lemma evolves_refl w : evolves w w.
Proof.
  split; [lia |]. split; [| split; [| split]].
  - intros t th Ht. exists th. done.
  - intros t Ht. lia.
  - exists []. by rewrite !app_nil_r.
  - apply same_store_refl.
Qed.

Lemma evolves_trans w1 w2 w3 : evolves w1 w2 → evolves w2 w3 → evolves w1 w3.
Proof. intros H1 H2. exact (spawned_trans [] [] 0 0 _ _ _ H1 H2). Qed.

Lemma spawned_evolves S n w1 w2 w3 :
  spawned S n w1 w2 → evolves w2 w3 → spawned S n w1 w3.
Proof.
  intros H1 H2. pose proof (spawned_trans S [] n 0 _ _ _ H1 H2) as H.
  by rewrite app_nil_r, Nat.add_0_r in H.
Qed.

Lemma evolves_sched w w' sc : evolves w w' → evolves w (set_sched sc w').
Proof.
  intros (Hl & Ho & Hn & He & Hs). split; [done |].
  split; [done |]. split; [done |]. split; [done |].
  revert Hs. unfold same_store, set_sched, set_trace, set_threads.
  destruct w, w'. simpl. by intros [= -> -> -> -> -> -> -> -> ->].
Qed.

Lemma step_thread_evolves t w : evolves w (step_thread t w).
Proof.
  unfold step_thread.
  destruct (w_threads w !! t) as [th |] eqn:Ht; [| apply evolves_refl].
  destruct (started th) eqn:Hst; [| apply evolves_refl].
  destruct (pending th) as [| ev rest] eqn:Hpend; [apply evolves_refl |].
  split; [simpl; rewrite length_insert; lia |].
  split; [| split; [| split]].
  - intros u thu Hu. simpl.
    destruct (decide (u = t)) as [-> | Hne].
    + rewrite list_lookup_insert_eq by (by eapply lookup_lt_Some).
      eexists. split; [done |]. simpl. split; [| done].
      assert (thu = th) as -> by congruence. rewrite Hpend.
      by apply suffix_cons_r.
    + rewrite list_lookup_insert_ne by done. exists thu. done.
  - intros u Hu. simpl in Hu. rewrite length_insert in Hu. lia.
  - exists [ev]. split; [done |]. unfold pool_pending. simpl.
    destruct (concat_pending_insert (w_threads w) t th
                {| started := true; pending := rest |} Ht)
      as (c1 & c2 & -> & ->).
    simpl. rewrite Hpend, app_nil_r. simpl.
    by rewrite Permutation_middle.
  - by destruct w.
Qed.

Lemma run_others_evolves sched : ∀ w, evolves w (run_others sched w).
Proof.
  induction sched as [| [t |] sched IH]; intros w; simpl.
  - apply evolves_sched, evolves_refl.
  - eapply evolves_trans; [apply step_thread_evolves | apply IH].
  - apply evolves_sched, evolves_refl.
Qed.

Lemma drain_evolves t w : evolves w (drain t w).
Proof.
  unfold drain.
  destruct (w_threads w !! t) as [th |] eqn:Ht; [| apply evolves_refl].
  split; [simpl; rewrite length_insert; lia |].
  split; [| split; [| split]].
  - intros u thu Hu. simpl.
    destruct (decide (u = t)) as [-> | Hne].
    + rewrite list_lookup_insert_eq by (by eapply lookup_lt_Some).
      eexists. split; [done |]. simpl.
      assert (thu = th) as -> by congruence.
      split; [apply suffix_nil | done].
    + rewrite list_lookup_insert_ne by done. exists thu. done.
  - intros u Hu. simpl in Hu. rewrite length_insert in Hu. lia.
  - exists (pending th). split; [done |]. unfold pool_pending. simpl.
    destruct (concat_pending_insert (w_threads w) t th
                {| started := started th; pending := [] |} Ht)
      as (c1 & c2 & -> & ->).
    simpl. rewrite app_nil_r.
    rewrite (app_assoc c1), (app_assoc (pending th)).
    apply Permutation_app_tail, Permutation_app_comm.
  - by destruct w.
Qed.

Lemma wait_for_evolves t sched : ∀ w, evolves w (wait_for t sched w).
Proof.
  induction sched as [| [u |] sched IH]; intros w; simpl;
    destruct (thread_finished t w);
    try (apply evolves_sched, evolves_refl).
  - apply evolves_sched, drain_evolves.
  - eapply evolves_trans; [apply step_thread_evolves | apply IH].
  - apply IH.
Qed.

Lemma thread_finished_sched t sc w :
  thread_finished t (set_sched sc w) = thread_finished t w.
Proof. done. Qed.

Lemma wait_for_finished t sched : ∀ w,
  thread_finished t (wait_for t sched w) = true.
Proof.
  induction sched as [| [u |] sched IH]; intros w; simpl;
    destruct (thread_finished t w) eqn:Hf; try done; try apply IH.
  rewrite thread_finished_sched. unfold thread_finished, drain in *.
  destruct (w_threads w !! t) as [th |] eqn:Ht; [| by rewrite Ht].
  simpl. by rewrite list_lookup_insert_eq by (by eapply lookup_lt_Some).
Qed.

Lemma evolves_finished S n t w w' :
  spawned S n w w' → t < length (w_threads w) →
  thread_finished t w = true → thread_finished t w' = true.
Proof.
  intros (Hl & Ho & _) Hlt. unfold thread_finished.
  destruct (lookup_lt_is_Some_2 _ _ Hlt) as [th Ht]. rewrite Ht.
  intros Hf%bool_decide_eq_true.
  destruct (Ho t th Ht) as (th' & -> & Hsuf & _).
  rewrite Hf in Hsuf. apply bool_decide_eq_true.
  by apply suffix_nil_inv.
Qed.

Lemma Thread_join_evolves t th w :
  w_threads w !! t = Some th → started th = true →
  ∃ w', Thread_join t w = (Ret tt, w') ∧ evolves w w' ∧
        thread_finished t w' = true.
Proof.
  intros Ht Hst. unfold Thread_join. rewrite Ht, Hst.
  eexists. split; [done |]. split.
  - apply wait_for_evolves.
  - apply wait_for_finished.
Qed.

(** Creating and starting one thread. *)
Lemma spawn_one S w :
  ∃ w', (thread ← Thread_new S; Thread_start thread;; mret thread) w
        = (Ret (length (w_threads w)), w') ∧
        spawned S 1 w w'.
Proof.
  unfold mbind at 1, M_bind at 1. unfold Thread_new at 1.
  unfold mbind at 1, M_bind at 1. unfold Thread_start.
  cbn [w_threads set_threads w_sched].
  rewrite lookup_app_r by done. rewrite Nat.sub_diag. cbn [lookup list_lookup].
  cbn [started pending].
  eexists. split; [reflexivity |].
  eapply spawned_evolves; [| apply run_others_evolves].
  assert (<[length (w_threads w) := {| started := true; pending := S |}]>
            (w_threads w ++ [{| started := false; pending := S |}])
          = w_threads w ++ [{| started := true; pending := S |}]) as Hins.
  { rewrite insert_app_r_alt by done. by rewrite Nat.sub_diag. }
  rewrite Hins.
  split; [simpl; rewrite length_app; simpl; lia |].
  split; [| split; [| split]].
  - intros t th Ht. simpl. exists th.
    rewrite lookup_app_l by (by eapply lookup_lt_Some). done.
  - intros t Ht. simpl in *. rewrite length_app in Ht. simpl in Ht.
    assert (t = length (w_threads w)) as -> by lia.
    eexists. rewrite lookup_app_r by done. rewrite Nat.sub_diag. done.
  - exists []. split; [by rewrite app_nil_r |].
    unfold pool_pending. simpl. rewrite fmap_app, concat_app. simpl.
    by rewrite app_nil_r.
  - by destruct w.
Qed.

(** The loop of [run] that creates and starts one thread per partition. *)
Lemma spawn_loop C folders recs : ∀ k w,
  k + length recs ≤ length folders →
  ∃ w',
    collect (zip (seq k (length recs)) recs) (λ '(i, recording),
      folder ← index folders i;
      thread ← Thread_new (adapter_steps C Run recording folder);
      Thread_start thread;;
      mret thread) w
    = (Ret (seq (length (w_threads w)) (length recs)), w') ∧
    spawned (zip recs (drop k folders) ≫= λ p, adapter_steps C Run p.1 p.2)
      (length recs) w w'.
Proof.
  induction recs as [| r recs IH]; intros k w Hlen.
  - simpl. eexists. split; [done |]. apply evolves_refl.
  - simpl in Hlen.
    destruct (lookup_lt_is_Some_2 folders k) as [f Hf]; [lia |].
    rewrite (drop_S _ _ _ Hf).
    destruct (spawn_one (adapter_steps C Run r f) w) as (w1 & Hone & Hsp1).
    destruct (IH (Datatypes.S k) w1 ltac:(lia)) as (w' & Hrest & Hsp).
    exists w'. split.
    + cbn [length seq zip zip_with collect].
      erewrite bind_ret; [| erewrite bind_ret; [exact Hone |];
                            unfold index; by rewrite Hf].
      erewrite bind_ret; [| exact Hrest].
      destruct Hsp1 as (Hl1 & _). rewrite Hl1.
      by rewrite Nat.add_1_r.
    + csimpl. exact (spawned_trans _ _ 1 _ _ _ _ Hsp1 Hsp).
Qed.

(** Joining threads that were started, in any order. *)
Lemma join_loop : ∀ ts w,
  (∀ t, t ∈ ts → ∃ th, w_threads w !! t = Some th ∧ started th = true) →
  ∃ w', for_each ts Thread_join w = (Ret tt, w') ∧ evolves w w' ∧
        ∀ t, t ∈ ts → thread_finished t w' = true.
Proof.
  induction ts as [| t ts IH]; intros w Hts.
  - exists w. split; [done |]. split; [apply evolves_refl |].
    intros t Ht. by apply elem_of_nil in Ht.
  - destruct (Hts t ltac:(by left)) as (th & Ht & Hst).
    destruct (Thread_join_evolves t th w Ht Hst) as (w1 & Hj & He1 & Hf1).
    destruct (IH w1) as (w' & Hrest & He & Hf).
    { intros u Hu. destruct (Hts u ltac:(by right)) as (thu & Hu1 & Hstu).
      destruct He1 as (_ & Ho & _).
      destruct (Ho u thu Hu1) as (thu' & ? & _ & ?). exists thu'. auto. }
    exists w'. split; [| split].
    + simpl. by erewrite bind_ret; [| exact Hj].
    + by eapply evolves_trans.
    + intros u [-> | Hu]%elem_of_cons; [| by apply Hf].
      eapply evolves_finished; [exact He | | exact Hf1].
      destruct He1 as (Hl1 & _). rewrite Hl1, Nat.add_0_r.
      by eapply lookup_lt_Some.
Qed.

Lemma quiescent_pool_pending w : quiescent w → pool_pending w = [].
Proof.
  unfold quiescent, pool_pending. induction 1 as [| th l Hth _ IH]; [done |].
  csimpl. by rewrite Hth, IH.
Qed.

(** The threaded branch of [run] returns normally whatever the threads
    do, and when it returns every thread has taken all its steps. *)
Lemma parallel_branch_spec self w :
  length (recording_list self) ≤ length (output_folders self) →
  quiescent w →
  ∃ w' evs,
    (threads ← collect (enumerate (recording_list self)) (λ '(i, recording),
       folder ← index (output_folders self) i;
       thread ← Thread_new (adapter_steps (cls self) Run recording folder);
       Thread_start thread;;
       mret thread);
     for_each threads Thread_join) w = (Ret tt, w') ∧
    w_trace w' = w_trace w ++ evs ∧
    evs ≡ₚ (zip (recording_list self) (output_folders self)
              ≫= λ p, adapter_steps (cls self) Run p.1 p.2) ∧
    quiescent w' ∧ same_store w w'.
Proof.
  intros Hlen Hq.
  destruct (spawn_loop (cls self) (output_folders self) (recording_list self)
              0 w Hlen) as (w1 & Hc & Hsp).
  rewrite drop_0 in Hsp.
  destruct (join_loop (seq (length (w_threads w))
                         (length (recording_list self))) w1)
    as (w' & Hj & He & Hf).
  { intros t Ht%elem_of_seq. destruct Hsp as (Hl & _ & Hn & _).
    apply Hn. lia. }
  pose proof (spawned_evolves _ _ _ _ _ Hsp He)
    as (Hl & Ho & Hn & (evs & Htr & Hperm) & Hs).
  assert (quiescent w') as Hq'.
  { apply Forall_lookup. intros t th' Ht.
    destruct (decide (t < length (w_threads w))) as [Hlt | Hge].
    - destruct (lookup_lt_is_Some_2 _ _ Hlt) as [th Hth].
      destruct (Ho t th Hth) as (th2 & Ht2 & Hsuf & _).
      assert (th2 = th') as -> by congruence.
      rewrite (Forall_lookup_1 _ _ _ _ Hq Hth) in Hsuf.
      by apply suffix_nil_inv.
    - pose proof (Hf t) as Hft. unfold thread_finished in Hft.
      rewrite Ht in Hft. eapply bool_decide_eq_true_1, Hft.
      apply elem_of_seq. apply lookup_lt_Some in Ht. lia. }
  exists w', evs. split; [| split; [done |]; split; [| done]].
  - unfold enumerate. by erewrite bind_ret; [| exact Hc].
  - by rewrite (quiescent_pool_pending _ Hq'),
      (quiescent_pool_pending _ Hq), app_nil_r in Hperm.
Qed.
End pool.

(** ** More on [get_result] *)

Section preserves.
Context {R : Type} (P : world R → world R → Prop).
Hypothesis P_refl : ∀ w, P w w.
Hypothesis P_trans : ∀ w1 w2 w3, P w1 w2 → P w2 w3 → P w1 w3.

Lemma bind_inv {A B} (m : M R A) (f : A → M R B) w o w' :
  (m ≫= f) w = (o, w') →
  (∃ a w1, m w = (Ret a, w1) ∧ f a w1 = (o, w')) ∨
  (∃ e, m w = (Raise e, w') ∧ o = Raise e).
Proof.
  unfold mbind, M_bind. destruct (m w) as [[a | e] w1].
  - intros Hf. left. by exists a, w1.
  - intros [= <- <-]. right. by exists e.
Qed.

Lemma preserves_still {A} (m : M R A) :
  (∀ w, (m w).2 = w) → preserves P m.
Proof.
  intros Hm w o w' Hw. specialize (Hm w). rewrite Hw in Hm. simpl in Hm.
  subst w'. apply P_refl.
Qed.

Lemma preserves_bind {A B} (m : M R A) (f : A → M R B) :
  preserves P m → (∀ a, preserves P (f a)) → preserves P (m ≫= f).
Proof.
  intros Hm Hf w o w' [(a & w1 & Ha & Hb) | (e & He & _)]%bind_inv.
  - eapply P_trans; [by eapply Hm | by eapply Hf].
  - by eapply Hm.
Qed.

Lemma preserves_for_each {A} (l : list A) (body : A → M R unit) :
  (∀ x, preserves P (body x)) → preserves P (for_each l body).
Proof.
  intros Hbody. induction l as [| x l IH]; simpl.
  - by apply preserves_still.
  - apply preserves_bind; [apply Hbody | by intros _].
Qed.

Lemma preserves_collect {A B} (l : list A) (body : A → M R B) :
  (∀ x, preserves P (body x)) → preserves P (collect l body).
Proof.
  intros Hbody. induction l as [| x l IH]; simpl.
  - by apply preserves_still.
  - apply preserves_bind; [apply Hbody |]. intros y.
    apply preserves_bind; [apply IH |]. intros ys. by apply preserves_still.
Qed.

Lemma preserves_index {A} (l : list A) i : preserves P (index l i).
Proof. apply preserves_still. intros w. unfold index. by destruct (l !! i). Qed.
End preserves.

Section get_result_more.
Context {R : Type} `{!RecordingExtractor R}.
Implicit Types (C : SorterClass R) (w : world R) (self : BaseSorter R).

Lemma results_only_refl w : results_only w w.
Proof. by destruct w. Qed.

Lemma results_only_trans w1 w2 w3 :
  results_only w1 w2 → results_only w2 w3 → results_only w1 w3.
Proof.
  unfold results_only, set_sortings. destruct w1, w2, w3. simpl.
  intros [= -> -> -> -> -> -> -> -> -> ->].
  by intros [= -> -> -> -> -> -> -> -> -> ->].
Qed.

Lemma results_only_set s n w : results_only w (set_sortings s n w).
Proof. by destruct w. Qed.

Lemma get_result_from_folder_results C f :
  preserves results_only (get_result_from_folder C f).
Proof.
  intros w o w'. unfold get_result_from_folder.
  destruct (parse_folder (tool C) f) as [[us props] |].
  - intros [= <- <-]. apply results_only_set.
  - intros [= <- <-]. apply results_only_refl.
Qed.

Lemma get_unit_ids_results l : preserves (R := R) results_only (get_unit_ids l).
Proof.
  apply preserves_still; [apply results_only_refl |].
  intros w. unfold get_unit_ids. by destruct (w_sortings w !! l) as [[] |].
Qed.

Lemma set_unit_property_results l u name v :
  preserves (R := R) results_only (set_unit_property l u name v).
Proof.
  intros w o w'. unfold set_unit_property.
  destruct (w_sortings w !! l) as [[] |]; intros [= <- <-];
    try apply results_only_refl; apply results_only_set.
Qed.

Lemma set_sampling_frequency_results l sf :
  preserves (R := R) results_only (set_sampling_frequency l sf).
Proof.
  intros w o w'. unfold set_sampling_frequency.
  destruct (w_sortings w !! l) as [[] |]; intros [= <- <-];
    try apply results_only_refl; apply results_only_set.
Qed.

Lemma get_result_list_results self :
  preserves results_only (get_result_list self).
Proof.
  apply preserves_collect;
    [apply results_only_refl | apply results_only_trans |].
  intros [i r]. apply preserves_bind; [apply results_only_trans | |].
  - apply preserves_index, results_only_refl.
  - intros f. apply get_result_from_folder_results.
Qed.

Lemma cleared_nil (d : gset path) : cleared [] d d.
Proof.
  intros q. split; [| by intros [? _]].
  intros Hq. split; [done |]. by intros out ?%elem_of_nil.
Qed.

Lemma cleared_cons (out : path) (outs : list path) (d d' : gset path) :
  cleared outs (filter (λ q, ¬ out `prefix_of` q) d) d' →
  cleared (out :: outs) d d'.
Proof.
  intros Hc q. rewrite (Hc q), elem_of_filter. split.
  - intros [[Hout Hq] Houts]. split; [done |].
    intros o [-> | Ho]%elem_of_cons; [done | by apply Houts].
  - intros [Hq Hall]. split; [split; [| done] |].
    + apply Hall. by left.
    + intros o Ho. apply Hall. by right.
Qed.

(** The cleanup of [get_result]: with the flag set, everything at or
    below a working directory goes and the rest of the disk stays; without
    it nothing happens. *)
Lemma delete_loop_effect self w :
  ∃ w', (if delete_folders self then
           for_each (output_folders self) (λ out,
             (if verbose self then print ("Removing " +:+ path_str out)
              else mret tt);;
             rmtree out)
         else mret tt) w = (Ret tt, w') ∧
        disk_only w w' ∧
        if delete_folders self
        then cleared (output_folders self) (w_dirs w) (w_dirs w') ∧
             cleared (output_folders self) (w_files w) (w_files w')
        else w' = w.
Proof.
  destruct (delete_folders self).
  2: { exists w. split; [done |]. split; [by destruct w | done]. }
  revert w. induction (output_folders self) as [| out outs IH]; intros w.
  - exists w. split; [done |]. split; [by destruct w |].
    split; apply cleared_nil.
  - simpl.
    set (w0 := set_files (filter (λ q, ¬ out `prefix_of` q) (w_files w))
                 (set_dirs (filter (λ q, ¬ out `prefix_of` q) (w_dirs w)) w)).
    assert (∃ w1, ((if verbose self then print ("Removing " +:+ path_str out)
                    else mret tt);; rmtree out) w = (Ret tt, w1) ∧
                  disk_only w w1 ∧ w_dirs w1 = w_dirs w0 ∧
                  w_files w1 = w_files w0) as (w1 & Hb & Hd1 & Hdirs & Hfiles).
    { destruct (verbose self); eexists; (split; [reflexivity |]);
        (split; [by destruct w | done]). }
    destruct (IH w1) as (w' & Hl & Hd & Hcd & Hcf).
    exists w'. erewrite bind_ret; [| exact Hb].
    split; [done |]. split; [| split].
    + revert Hd1 Hd. unfold disk_only, set_trace, set_files, set_dirs.
      destruct w, w1, w'. simpl. intros [= -> -> -> -> -> -> -> -> ->].
      by intros [= -> -> -> -> -> -> -> -> ->].
    + apply cleared_cons. by rewrite Hdirs in Hcd.
    + apply cleared_cons. by rewrite Hfiles in Hcf.
Qed.

(** [get_result] either fails before the cleanup, having touched result
    objects only, or runs the cleanup between two stages that touch
    result objects only. *)
Lemma get_result_stages self w o w' :
  get_result self w = (o, w') →
  (∃ e, o = Raise e ∧ results_only w w') ∨
  ∃ w1 w2,
    results_only w w1 ∧
    (if delete_folders self then
       for_each (output_folders self) (λ out,
         (if verbose self then print ("Removing " +:+ path_str out)
          else mret tt);;
         rmtree out)
     else mret tt) w1 = (Ret tt, w2) ∧
    results_only w2 w'.
Proof.
  unfold get_result.
  intros [(l & w1 & Hlist & Hrest) | (e & Hlist & ->)]%bind_inv.
  2: { left. exists e. split; [done |].
       by eapply get_result_list_results. }
  apply get_result_list_results in Hlist.
  apply bind_inv in Hrest as [(s & w2 & Hmerge & Hrest) | (e & Hmerge & ->)].
  - assert (results_only w1 w2) as H12.
    { revert Hmerge. destruct (bool_decide (length l = 1)).
      - apply preserves_index, results_only_refl.
      - apply preserves_bind; [apply results_only_trans | |].
        + apply preserves_for_each;
            [apply results_only_refl | apply results_only_trans |].
          intros [i sorting].
          apply preserves_bind; [apply results_only_trans | |];
            [apply preserves_index, results_only_refl |]. intros r.
          apply preserves_bind; [apply results_only_trans | |];
            [apply preserves_index, results_only_refl |]. intros ch.
          apply preserves_bind; [apply results_only_trans | |];
            [by apply preserves_still; [apply results_only_refl |] |].
          intros g. destruct sorting as [n |].
          * apply preserves_bind; [apply results_only_trans | |];
              [apply get_unit_ids_results |]. intros us.
            apply preserves_for_each;
              [apply results_only_refl | apply results_only_trans |].
            intros u. apply set_unit_property_results.
          * by apply preserves_still; [apply results_only_refl |].
        + intros _. apply preserves_bind; [apply results_only_trans | |].
          * intros w3 o3 w3' [= <- <-]. apply results_only_set.
          * intros m. by apply preserves_still; [apply results_only_refl |]. }
    destruct (delete_loop_effect self w2) as (w3 & Hdel & _).
    erewrite bind_ret in Hrest; [| exact Hdel].
    right. exists w2, w3. split; [by eapply results_only_trans |].
    split; [done |]. revert Hrest.
    apply preserves_bind; [apply results_only_trans | |].
    + destruct s as [n |].
      * apply preserves_bind; [apply results_only_trans | |];
          [apply preserves_index, results_only_refl |]. intros r.
        apply set_sampling_frequency_results.
      * by apply preserves_still; [apply results_only_refl |].
    + intros _. by apply preserves_still; [apply results_only_refl |].
  - left. exists e. split; [done |].
    eapply results_only_trans; [exact Hlist |]. revert Hmerge.
    destruct (bool_decide (length l = 1)).
    + apply preserves_index, results_only_refl.
    + apply preserves_bind; [apply results_only_trans | |].
      * apply preserves_for_each;
          [apply results_only_refl | apply results_only_trans |].
        intros [i sorting].
        apply preserves_bind; [apply results_only_trans | |];
          [apply preserves_index, results_only_refl |]. intros r.
        apply preserves_bind; [apply results_only_trans | |];
          [apply preserves_index, results_only_refl |]. intros ch.
        apply preserves_bind; [apply results_only_trans | |];
          [by apply preserves_still; [apply results_only_refl |] |].
        intros g. destruct sorting as [n |].
        -- apply preserves_bind; [apply results_only_trans | |];
             [apply get_unit_ids_results |]. intros us.
           apply preserves_for_each;
             [apply results_only_refl | apply results_only_trans |].
           intros u. apply set_unit_property_results.
        -- by apply preserves_still; [apply results_only_refl |].
      * intros _. apply preserves_bind; [apply results_only_trans | |].
        -- intros w3 o3 w3' [= <- <-]. apply results_only_set.
        -- intros m. by apply preserves_still; [apply results_only_refl |].
Qed.
End get_result_more.

(** ** More on [__init__] *)

Section init_more.
Context {R : Type} `{!RecordingExtractor R}.
Implicit Types (C : SorterClass R) (w : world R).


End init_more.

(** * The claims *)

Section lifecycle_claims.
Context {R : Type} `{!RecordingExtractor R}.
Implicit Types (C : SorterClass R) (w : world R) (self : BaseSorter R).

Lemma quiescent_pool_run w : quiescent w → pool_run w.
Proof.
  unfold quiescent, pool_run. intros Hq.
  eapply Forall_impl; [exact Hq |]. intros th ->. constructor.
Qed.

Lemma run_ext_not_setup w w' :
  run_ext w w' →
  ∃ evs, w_trace w' = w_trace w ++ evs ∧
         Forall (λ ev : event R, event_method ev ≠ Some Setup) evs.
Proof.
  intros [(evs & Ht & Hr) _]. exists evs. split; [done |].
  eapply Forall_impl; [exact Hr |]. by intros ev ->.
Qed.

Lemma print_tail self w :
  ∃ tail,
    (if verbose self then print (sorter_name (cls self) +:+ " run time")
     else mret tt) w = (Ret tt, set_trace (w_trace w ++ tail) w) ∧
    Forall (λ ev : event R, event_method ev = None) tail.
Proof.
  destruct (verbose self).
  - eexists [_]. split; [reflexivity |]. by constructor.
  - exists []. split; [by rewrite set_trace_id | done].
Qed.

(** C1. In every run, whatever the execution mode, the trace of adapter
    invocations starts with the [_setup_recording] calls on the
    partitions in partition order, each returning before the next
    begins, and no [_setup_recording] event occurs after that prefix;
    if any [_run] event occurs at all, staging completed for every
    partition before it.  In sequential mode the events that follow
    are the [_run] calls on the partitions in partition order, each
    ending before the next begins. *)
Theorem run_stages_all_partitions_before_running self w :
  length (recording_list self) ≤ length (output_folders self) →
  quiescent w →
  let parts := zip (recording_list self) (output_folders self) in
  ∃ o w' rest,
    run self w = (o, w') ∧
    w_trace w' = w_trace w ++ sequential_events (cls self) Setup parts ++ rest ∧
    Forall (λ ev, event_method ev ≠ Some Setup) rest ∧
    (Exists (λ ev, event_method ev = Some Run) rest →
     sequential_events (cls self) Setup parts = completed Setup parts) ∧
    (∀ m, (∀ p, p ∈ parts → adapter_outcome (cls self) m p.1 p.2 = None) →
          sequential_events (cls self) m parts = completed m parts) ∧
    (parallel self = false →
     (∀ p, p ∈ parts → adapter_outcome (cls self) Setup p.1 p.2 = None) →
     ∃ tail, rest = sequential_events (cls self) Run parts ++ tail ∧
             Forall (λ ev, event_method ev = None) tail).
Proof.
  intros Hlen Hq parts.
  pose proof (sequential_loop (cls self) Setup (output_folders self)
                (recording_list self) 0 w Hlen) as Hsetup.
  rewrite drop_0 in Hsetup. fold parts in Hsetup.
  set (SE := sequential_events (cls self) Setup parts) in *.
  set (w1 := set_trace (w_trace w ++ SE) w) in *.
  assert (pool_run w1) as Hp1 by by apply quiescent_pool_run.
  assert (∀ m, (∀ p, p ∈ parts → adapter_outcome (cls self) m p.1 p.2 = None) →
            sequential_events (cls self) m parts = completed m parts) as Hgen.
  { intros m Hok. by apply sequential_events_completed. }
  unfold run.
  destruct (sequential_outcome (cls self) Setup parts) as [[] | e] eqn:Hso.
  - (* staging went through *)
    pose proof (sequential_outcome_completed _ _ _ Hso) as Hcompl.
    erewrite bind_ret; [| exact Hsetup].
    destruct (parallel self) eqn:Hpar; simpl negb; cbv iota.
    + (* threads *)
      match goal with |- context [(?m ≫= ?f) w1] =>
        destruct (m w1) as [[[] | e] w2] eqn:Hbranch end.
      * apply parallel_branch_ext in Hbranch as Hext; [| done].
        apply run_ext_not_setup in Hext as (evs & Htr & Hns).
        destruct (print_tail self w2) as (tail & Hprint & Htail).
        erewrite bind_ret; [| exact Hbranch].
        eexists _, _, (evs ++ tail). split; [exact Hprint |].
        split; [| split; [| split; [| split]]]; try done.
        -- simpl. rewrite Htr. simpl. by rewrite <- !app_assoc.
        -- apply Forall_app. split; [done |].
           eapply Forall_impl; [exact Htail |]. by intros ev ->.
      * apply parallel_branch_ext in Hbranch as Hext; [| done].
        apply run_ext_not_setup in Hext as (evs & Htr & Hns).
        erewrite bind_raise; [| exact Hbranch].
        eexists _, _, evs. split; [reflexivity |].
        split; [| split; [| split; [| split]]]; try done.
        rewrite Htr. simpl. by rewrite <- !app_assoc.
    + (* one partition after the other *)
      pose proof (sequential_loop (cls self) Run (output_folders self)
                    (recording_list self) 0 w1 Hlen) as Hrun.
      rewrite drop_0 in Hrun. fold parts in Hrun.
      set (RE := sequential_events (cls self) Run parts) in *.
      assert (Forall (λ ev : event R, event_method ev ≠ Some Setup) RE) as HRE.
      { eapply Forall_impl; [apply sequential_events_method |].
        by intros ev ->. }
      destruct (sequential_outcome (cls self) Run parts) as [[] | e] eqn:Hro.
      * destruct (print_tail self (set_trace (w_trace w1 ++ RE) w1))
          as (tail & Hprint & Htail).
        erewrite bind_ret; [| exact Hrun].
        eexists _, _, (RE ++ tail). split; [exact Hprint |].
        split; [| split; [| split; [| split]]]; try done.
        -- simpl. by rewrite <- !app_assoc.
        -- apply Forall_app. split; [done |].
           eapply Forall_impl; [exact Htail |]. by intros ev ->.
        -- intros _ _. by exists tail.
      * erewrite bind_raise; [| exact Hrun].
        eexists _, _, RE. split; [reflexivity |].
        split; [| split; [| split; [| split]]]; try done.
        -- simpl. by rewrite <- !app_assoc.
        -- intros _ _. exists []. by rewrite app_nil_r.
  - (* staging raised: nothing else happens *)
    erewrite bind_raise; [| exact Hsetup].
    eexists _, _, []. split; [reflexivity |].
    split; [| split; [| split; [| split]]]; try done.
    + simpl. by rewrite app_nil_r.
    + by intros ?%Exists_nil.
    + intros _ Hok.
      destruct (sequential_events_completed (cls self) Setup parts Hok) as [_ Hret].
      congruence.
Qed.

(** C2 (amended). A key named [self] never reaches [set_params]: the
    call fails in argument binding with a [TypeError], whatever the other
    keys are, and changes nothing.  For every other keyword mapping, when
    any supplied key is not a key of the declared defaults,
    [set_params] raises an [AttributeError] whose message is the text
    "Bad parameters: " followed by the list of all unknown keys, so that
    it names every one of them as Python prints it, and the world, the
    active parameter set included, is left exactly as it was. *)
Theorem set_params_rejects_unknown_keys_atomically self kv w st defaults :
  w_classes w !! cls_id (cls self) = Some st →
  objs (w_heap w) !! _default_params st = Some (ODict defaults) →
  (∃ k, k ∈ kv.*1 ∧ k ∉ dict_keys defaults) →
  ("self" ∉ kv.*1 →
   ∃ msg,
     set_params self kv w = (Raise (AttributeError msg), w) ∧
     msg = "Bad parameters: " +:+ py_str_list (unknown_keys defaults kv) ∧
     (∀ k, k ∈ unknown_keys defaults kv ↔ k ∈ kv.*1 ∧ k ∉ dict_keys defaults) ∧
     (∀ k, k ∈ kv.*1 → k ∉ dict_keys defaults → mentions msg (py_repr k))) ∧
  ("self" ∈ kv.*1 →
   ∃ msg, set_params self kv w = (Raise (TypeError msg), w)).
Proof.
  intros Hst Hd (k & Hk & Hnk). split.
  - intros Hself. eexists. split; [| split; [reflexivity | split]].
    + rewrite (set_params_unfold self kv w st defaults Hst Hd Hself).
      assert (k ∈ unknown_keys defaults kv) as Hin
        by by apply unknown_keys_spec.
      destruct (unknown_keys defaults kv) as [| k0 ks];
        [by apply elem_of_nil in Hin | done].
    + apply unknown_keys_spec.
    + intros k' Hk' Hnk'. apply mentions_app_l, py_str_list_mentions.
      by apply unknown_keys_spec.
  - intros Hself. eexists. by apply set_params_self.
Qed.

(** C3. With more than one partition [get_result] reads the ['group']
    property of the first channel of each partition's recording, whatever
    property the recording was grouped by.  When the first partition's
    recording has no such property the collaborator raises, and
    [get_result] raises with it: no merged result is returned, whatever
    the parsers found. *)
Theorem get_result_raises_without_group_property self w r0 ch e :
  length (recording_list self) ≤ length (output_folders self) →
  1 < length (recording_list self) →
  recording_list self !! 0 = Some r0 →
  get_channel_ids r0 !! 0 = Some ch →
  get_channel_property r0 ch "group" = Raise e →
  ∃ w', get_result self w = (Raise e, w').
Proof.
  intros Hlen Hmany Hr0 Hch He.
  destruct (get_result_group_failure self w r0 ch e Hlen Hmany Hr0 Hch He)
    as (w' & Hres & _).
  by exists w'.
Qed.

(** C4. With exactly one partition whose parser returned [None],
    [get_result_list] holds that [None], and [get_result] does not
    return it: it raises the [AttributeError] of calling
    [set_sampling_frequency] on [None]. *)
Theorem get_result_single_partition_null_raises self w r f fs :
  recording_list self = [r] → output_folders self = f :: fs →
  parse_folder (tool (cls self)) f = None →
  get_result_list self w = (Ret [None], w) ∧
  ∃ w', get_result self w
        = (Raise (none_has_no_attribute "set_sampling_frequency"), w') ∧
        w_sortings w' = w_sortings w.
Proof.
  intros Hr Hf Hparse. split.
  - rewrite get_result_list_spec by (rewrite Hr, Hf; simpl; lia).
    rewrite Hr, Hf. simpl. rewrite Hparse. by rewrite set_sortings_id.
  - by eapply get_result_single_none.
Qed.



(** C10. When every supplied key is a key of the declared defaults
    (the keys are distinct and none is named [self], as the keyword
    arguments of a call that binds are), [set_params] returns, the only change to the world is the active
    parameter set, every supplied key has its supplied value there, and
    every other key has the value it had. *)
Theorem set_params_updates_exactly_supplied_keys self kv w st defaults l d :
  w_classes w !! cls_id (cls self) = Some st →
  objs (w_heap w) !! _default_params st = Some (ODict defaults) →
  params self = VRef l →
  objs (w_heap w) !! l = Some (ODict d) →
  Forall (λ k, k ∈ dict_keys defaults) kv.*1 →
  NoDup kv.*1 → "self" ∉ kv.*1 →
  ∃ d',
    set_params self kv w
    = (Ret tt, set_heap (heap_write l (ODict d') (w_heap w)) w) ∧
    (∀ k v, (k, v) ∈ kv → dict_get k d' = Some v) ∧
    (∀ k, k ∉ kv.*1 → dict_get k d' = dict_get k d).
Proof.
  intros Hst Hd Hp Hl Hknown Hnd Hself.
  exists (dict_update kv d). split; [| split].
  - rewrite (set_params_unfold self kv w st defaults Hst Hd Hself).
    apply unknown_keys_nil in Hknown. rewrite Hknown. simpl.
    unfold dict_method_update. by rewrite Hp, Hl.
  - intros k v Hkv. by apply dict_get_update_supplied.
  - intros k Hk. by apply dict_get_update_other.
Qed.
End lifecycle_claims.

Section registry_claims.
Context {R : Type} `{!RecordingExtractor R}.
Variables KlustaSorter TridesclousSorter Mountainsort4Sorter IronClustSorter
    SpykingcircusSorter HerdingspikesSorter WaveClusSorter : SorterClass R.
Variables kilosort_tool kilosort2_tool : external_tool R.

  #[local] Abbreviation unregistered :=
    (unregistered KlustaSorter TridesclousSorter Mountainsort4Sorter
       IronClustSorter SpykingcircusSorter HerdingspikesSorter WaveClusSorter
       kilosort_tool kilosort2_tool).
  #[local] Abbreviation resolves :=
    (resolves KlustaSorter TridesclousSorter Mountainsort4Sorter
       IronClustSorter SpykingcircusSorter HerdingspikesSorter WaveClusSorter
       kilosort_tool kilosort2_tool).
  #[local] Abbreviation run_sorter :=
    (run_sorter KlustaSorter TridesclousSorter Mountainsort4Sorter
       IronClustSorter SpykingcircusSorter HerdingspikesSorter WaveClusSorter
       kilosort_tool kilosort2_tool).
  #[local] Abbreviation get_default_params :=
    (get_default_params KlustaSorter TridesclousSorter Mountainsort4Sorter
       IronClustSorter SpykingcircusSorter HerdingspikesSorter WaveClusSorter
       kilosort_tool kilosort2_tool).

(** C7 (amended). For an argument that is neither a registered name nor
    a registered class, [run_sorter] and [get_default_params] fail in
    dispatch, before any lifecycle work: the world is left as it was.
    The error is the mapping's [KeyError] carrying the name when the
    argument is a string, and [ValueError('Unknown sorter')] when it is
    anything else. *)
Theorem dispatch_fails_before_lifecycle_work arg :
  unregistered arg →
  ∀ recording output_folder delete_output_folder grouping_property
    parallel verbose kv w,
    run_sorter arg recording output_folder delete_output_folder
      grouping_property parallel verbose kv w
    = (Raise (match arg with
              | ArgStr name => KeyError name
              | ArgClass _ | ArgOther _ => ValueError "Unknown sorter"
              end), w) ∧
    get_default_params arg w
    = (Raise (match arg with
              | ArgStr name => KeyError name
              | ArgClass _ | ArgOther _ => ValueError "Unknown sorter"
              end), w).
Proof. apply dispatch_unregistered. Qed.

(** C8. [default_params], and [get_default_params] for an argument that
    names the class, return a new mapping that reads back as the
    declared defaults.  Whatever sequence of statements the caller then
    runs on that mapping, the class attribute still refers to a dict
    that reads back as the declared defaults, and the next call returns
    yet another mapping that reads back as the declared defaults. *)
Theorem default_params_returns_independent_copy C arg w ms :
  class_defined C w → resolves arg C →
  ∃ d w1,
    default_params C w = (Ret d, w1) ∧
    get_default_params arg w = (Ret d, w1) ∧
    read_back (w_heap w1) d = Some (PDict (default_params_literal C)) ∧
    let w2 := set_heap (apply_mutations d ms (w_heap w1)) w1 in
    (∃ st, w_classes w2 !! cls_id C = Some st ∧
       read_back (w_heap w2) (VRef (_default_params st))
       = Some (PDict (default_params_literal C))) ∧
    ∃ d' w3,
      default_params C w2 = (Ret d', w3) ∧
      get_default_params arg w2 = (Ret d', w3) ∧
      d' ≠ d ∧
      read_back (w_heap w3) d' = Some (PDict (default_params_literal C)).
Proof.
  intros Hdef Hres.
  destruct (default_params_round C w ms Hdef)
    as (d & w1 & Hcall & Hread & Hcls & d' & w3 & Hcall' & Hne & Hread').
  exists d, w1. split; [done |].
  split; [by rewrite (get_default_params_resolves _ _ _ _ _ _ _ _ _ arg C) |].
  split; [done |]. split; [done |].
  exists d', w3. split; [done |].
  split; [by rewrite (get_default_params_resolves _ _ _ _ _ _ _ _ _ arg C) |].
  done.
Qed.
End registry_claims.

(** * The claims on the small registry *)

Ltac by_computation := vm_compute; reflexivity.
Ltac decide_it :=
  match goal with
  | |- ?P => apply (bool_decide_unpack P); vm_compute; exact I
  end.

(** The class statement of the example's Kilosort class has run. *)
Ltac class_defined_by_computation :=
  eexists; split; [by_computation |];
  split; [decide_it |];
  hnf; eexists _, _; split; [reflexivity |];
  split; [simpl; lia |];
  split; [by_computation |];
  simpl; repeat split.

Lemma get_result_single_partition_null_raises_witness :
  ∃ self w w',
    __init__ (kilosort.KilosortSorter silent_tool) one_group None false None
      false false (imported []) = (Ret self, w) ∧
    recording_list self = [one_group] ∧
    get_result_list self w = (Ret [None], w) ∧
    get_result self w
    = (Raise (none_has_no_attribute "set_sampling_frequency"), w').
Proof.
  set (made := instance_of (kilosort.KilosortSorter silent_tool) one_group None
                 false false false (imported [])).
  destruct (get_result_single_partition_null_raises made.1 made.2 one_group
              ["/"; "work"; "tmp_kilosort"] [])
    as (Hlist & w' & Hres & _); [by_computation.. |].
  exists made.1, made.2, w'. split; [by_computation |].
  split; [by_computation |]. split; [exact Hlist | exact Hres].
Defined.

(** C6. The installed listing never sees what the path setter does to the
    class: its result after the setter is its result before.  On the
    example machine Kilosort is not found when the package is imported;
    the setter then makes the class report itself installed, and a
    lifecycle can be constructed for it, but the listing still returns the
    list bound at import time, without ["kilosort"]. *)
Theorem installed_sorters_misses_path_setter :
  (∀ (R : Type) (tool : external_tool R) p (w : world R),
     (installed_sorters (kilosort.set_kilosort_path tool p w).2).1
     = (installed_sorters w).1) ∧
  ∃ w,
    kilosort.set_kilosort_path toy_tool "/opt/KiloSort" imported_plain
    = (Ret tt, w) ∧
    installed <$> w_classes w !! cls_id toy_KilosortSorter = Some true ∧
    (∃ self w', __init__ toy_KilosortSorter one_group None false None false
                  false w = (Ret self, w')) ∧
    installed_sorters w = (Ret [], w).
Proof.
  split.
  - intros R tool p w. rewrite !installed_sorters_reads_global. simpl.
    by rewrite set_kilosort_path_global.
  - eexists. split; [by_computation |]. split; [by_computation |].
    split; [eexists _, _; by_computation | by_computation].
Qed.

(** Three partitions run in threads, under a scheduler that interleaves
    them. *)
Lemma run_stages_all_partitions_before_running_witness :
  let self := threaded_instance.1 in
  let w := threaded_instance.2 in
  let parts := zip (recording_list self) (output_folders self) in
  ∃ o w' rest,
    run self w = (o, w') ∧
    w_trace w' = w_trace w ++ sequential_events (cls self) Setup parts ++ rest ∧
    Forall (λ ev, event_method ev ≠ Some Setup) rest ∧
    (Exists (λ ev, event_method ev = Some Run) rest →
     sequential_events (cls self) Setup parts = completed Setup parts) ∧
    (∀ m, (∀ p, p ∈ parts → adapter_outcome (cls self) m p.1 p.2 = None) →
          sequential_events (cls self) m parts = completed m parts) ∧
    (parallel self = false →
     (∀ p, p ∈ parts → adapter_outcome (cls self) Setup p.1 p.2 = None) →
     ∃ tail, rest = sequential_events (cls self) Run parts ++ tail ∧
             Forall (λ ev, event_method ev = None) tail).
Proof.
  apply (run_stages_all_partitions_before_running threaded_instance.1
           threaded_instance.2).
  - vm_compute. lia.
  - vm_compute. constructor.
Defined.

Lemma set_params_rejects_unknown_keys_atomically_witness :
  ∃ msg,
    set_params single_instance.1
      [("car", VAtom (ABool false)); ("z", VAtom (AInt 2)); ("y", VAtom ANone)]
      single_instance.2
    = (Raise (AttributeError msg), single_instance.2) ∧
    mentions msg "'z'" ∧ mentions msg "'y'".
Proof.
  edestruct (set_params_rejects_unknown_keys_atomically single_instance.1
               [("car", VAtom (ABool false)); ("z", VAtom (AInt 2));
                ("y", VAtom ANone)] single_instance.2)
    as [Hplain _].
  - by_computation.
  - by_computation.
  - exists "z". split; decide_it.
  - destruct Hplain as (msg & Hraise & _ & _ & Hnames); [decide_it |].
    exists msg. split; [exact Hraise |].
    replace "'z'" with (py_repr "z") by by_computation.
    replace "'y'" with (py_repr "y") by by_computation.
    split; [apply (Hnames "z") | apply (Hnames "y")]; decide_it.
Defined.

(** C2, as stated, fails: a key named [self] makes the call fail before
    any key is checked, with an error that names no other key. *)
Lemma self_key_hides_unknown_keys :
  ¬ rejection_names_every_unknown_key toy_recording.
Proof.
  intros Hclaim.
  edestruct (Hclaim single_instance.1
               [("self", VAtom ANone); ("zzz", VAtom ANone)] single_instance.2)
    as (e & Hraise & Hnames).
  - by_computation.
  - by_computation.
  - decide_it.
  - exists "zzz". split; decide_it.
  - apply (f_equal fst) in Hraise. vm_compute in Hraise.
    injection Hraise as <-.
    assert (mentions
              (exn_text (TypeError "set_params() got multiple values for argument 'self'"))
              (py_repr "zzz")) as Hzzz by (apply Hnames; decide_it).
    apply mentions_contains in Hzzz. vm_compute in Hzzz. discriminate Hzzz.
Qed.

(** Two channels on two shanks, sorted by shank: every partition's
    parser finds a unit, and [get_result] raises. *)
Lemma get_result_raises_without_group_property_witness :
  ∃ w', get_result shank_instance.1 shank_instance.2
        = (Raise (ValueError "group has not been added to channel 0"), w').
Proof.
  eapply (get_result_raises_without_group_property shank_instance.1
            shank_instance.2 _ 0%Z).
  - vm_compute. lia.
  - vm_compute. lia.
  - by_computation.
  - by_computation.
  - by_computation.
Defined.



(** C7, as stated, fails: an unknown name and an unrecognized argument of
    another kind do not raise the same error. *)
Lemma unknown_name_and_unknown_class_errors_differ :
  ¬ single_unknown_sorter_error (stub_class 0 "klusta")
      (stub_class 1 "tridesclous") (stub_class 2 "mountainsort4")
      (stub_class 3 "ironclust") (stub_class 6 "spykingcircus")
      (stub_class 7 "herdingspikes") (stub_class 8 "waveclus")
      toy_tool silent_tool.
Proof.
  intros [err Hclaim].
  destruct (Hclaim (ArgStr "nosuch") ltac:(by_computation) one_group None false
              None false false [] (imported [])) as [_ Hname].
  destruct (Hclaim (ArgClass (stub_class 9 "nosuch")) ltac:(by_computation)
              one_group None false None false false [] (imported []))
    as [_ Hclass].
  apply (f_equal fst) in Hname, Hclass.
  vm_compute in Hname, Hclass. congruence.
Qed.

Lemma dispatch_fails_before_lifecycle_work_witness :
  toy_run_sorter (ArgStr "nosuch") one_group None false None false false []
    (imported []) = (Raise (KeyError "nosuch"), imported []) ∧
  toy_get_default_params (ArgStr "nosuch") (imported [])
  = (Raise (KeyError "nosuch"), imported []).
Proof.
  apply (dispatch_fails_before_lifecycle_work (stub_class 0 "klusta")
           (stub_class 1 "tridesclous") (stub_class 2 "mountainsort4")
           (stub_class 3 "ironclust") (stub_class 6 "spykingcircus")
           (stub_class 7 "herdingspikes") (stub_class 8 "waveclus")
           toy_tool silent_tool (ArgStr "nosuch")).
  by_computation.
Defined.

(** A caller that overwrites a value, deletes a key, and stores a new
    list. *)
Lemma default_params_returns_independent_copy_witness :
  ∃ d w1,
    toy_get_default_params (ArgStr "kilosort") (imported []) = (Ret d, w1) ∧
    let w2 := set_heap
                (apply_mutations d
                   [MSetItem [] (KStr "car") (RLiteral (PAtom (ABool false)));
                    MDelItem [] "freq_min";
                    MSetItem [] (KStr "electrode_dimensions")
                      (RLiteral (PList [PAtom (AInt 0); PAtom (AInt 1)]));
                    MAppend [KStr "electrode_dimensions"] (RPath [])]
                   (w_heap w1)) w1 in
    read_back (w_heap w2) d ≠ Some (PDict (default_params_literal toy_KilosortSorter)) ∧
    ∃ d' w3,
      toy_get_default_params (ArgStr "kilosort") w2 = (Ret d', w3) ∧
      read_back (w_heap w3) d'
      = Some (PDict (default_params_literal toy_KilosortSorter)).
Proof.
  edestruct (default_params_returns_independent_copy (stub_class 0 "klusta")
               (stub_class 1 "tridesclous") (stub_class 2 "mountainsort4")
               (stub_class 3 "ironclust") (stub_class 6 "spykingcircus")
               (stub_class 7 "herdingspikes") (stub_class 8 "waveclus")
               toy_tool silent_tool toy_KilosortSorter (ArgStr "kilosort")
               (imported [])
               [MSetItem [] (KStr "car") (RLiteral (PAtom (ABool false)));
                MDelItem [] "freq_min";
                MSetItem [] (KStr "electrode_dimensions")
                  (RLiteral (PList [PAtom (AInt 0); PAtom (AInt 1)]));
                MAppend [KStr "electrode_dimensions"] (RPath [])])
    as (d & w1 & Hcall & Hget & _ & _ & d' & w3 & _ & Hget' & _ & Hread').
  - class_defined_by_computation.
  - by_computation.
  - exists d, w1. split; [exact Hget |]. split.
    + pose proof (f_equal fst Hget) as Hd.
      pose proof (f_equal snd Hget) as Hw. cbn [fst snd] in Hd, Hw.
      vm_compute in Hd. injection Hd as <-. subst w1.
      vm_compute. discriminate.
    + exists d', w3. split; [exact Hget' | exact Hread'].
Defined.


Lemma set_params_updates_exactly_supplied_keys_witness :
  ∃ l d',
    params single_instance.1 = VRef l ∧
    objs (w_heap (set_params single_instance.1
                    [("car", VAtom (ABool false)); ("freq_min", VAtom (AInt 150))]
                    single_instance.2).2) !! l = Some (ODict d') ∧
    dict_get "car" d' = Some (VAtom (ABool false)) ∧
    dict_get "freq_min" d' = Some (VAtom (AInt 150)) ∧
    dict_get "useGPU" d' = Some (VAtom (ABool true)).
Proof.
  edestruct (set_params_updates_exactly_supplied_keys single_instance.1
               [("car", VAtom (ABool false)); ("freq_min", VAtom (AInt 150))]
               single_instance.2)
    as (d' & Hcall & Hsupplied & Hother).
  - by_computation.
  - by_computation.
  - by_computation.
  - by_computation.
  - repeat constructor; decide_it.
  - decide_it.
  - decide_it.
  - eexists _, d'. split; [reflexivity |]. rewrite Hcall. simpl.
    split; [apply lookup_insert_eq |].
    split; [apply Hsupplied; decide_it |].
    split; [apply Hsupplied; decide_it |].
    rewrite Hother; [by_computation | decide_it].
Defined.

(** * Further properties of the lifecycle *)

Section lifecycle_extras.
Context {R : Type} `{!RecordingExtractor R}.
Implicit Types (C : SorterClass R) (w : world R) (self : BaseSorter R).

(** X1. When [_setup_recording] raises on a partition, [run] raises that
    exception at once, in either execution mode: the partitions before
    it were staged in order, the partitions after it are not staged, no
    [_run] is invoked and nothing is printed; apart from the trace the
    state is as before. *)
Theorem run_stops_at_first_failing_setup self w ps1 r f e ps2 :
  length (recording_list self) ≤ length (output_folders self) →
  zip (recording_list self) (output_folders self) = ps1 ++ (r, f) :: ps2 →
  (∀ p, p ∈ ps1 → adapter_outcome (cls self) Setup p.1 p.2 = None) →
  adapter_outcome (cls self) Setup r f = Some e →
  run self w
  = (Raise e,
     set_trace (w_trace w ++ completed Setup ps1 ++
                [EvCall Setup r f; EvRaise Setup r f e]) w).
Proof.
  intros Hlen Hparts Hok Hfail.
  destruct (sequential_first_failure (cls self) Setup ps1 r f e ps2 Hok Hfail)
    as [Ho He].
  rewrite <- Hparts in Ho, He.
  rewrite (run_setup_failure self w e Hlen Ho). by rewrite He.
Qed.

(** X2. In sequential mode, when staging succeeded everywhere and [_run]
    raises on a partition, [run] raises that exception: the partitions
    before it were run in order, each returning before the next began,
    and the partitions after it are never run. *)
Theorem run_sequential_stops_at_first_failing_run self w ps1 r f e ps2 :
  length (recording_list self) ≤ length (output_folders self) →
  parallel self = false →
  let parts := zip (recording_list self) (output_folders self) in
  parts = ps1 ++ (r, f) :: ps2 →
  (∀ p, p ∈ parts → adapter_outcome (cls self) Setup p.1 p.2 = None) →
  (∀ p, p ∈ ps1 → adapter_outcome (cls self) Run p.1 p.2 = None) →
  adapter_outcome (cls self) Run r f = Some e →
  run self w
  = (Raise e,
     set_trace (w_trace w ++ completed Setup parts ++ completed Run ps1 ++
                [EvCall Run r f; EvRaise Run r f e]) w).
Proof.
  intros Hlen Hseq parts Hparts Hsetup Hok Hfail.
  destruct (sequential_events_completed (cls self) Setup parts Hsetup)
    as [HSE HSO].
  destruct (sequential_first_failure (cls self) Run ps1 r f e ps2 Hok Hfail)
    as [HRO HRE].
  rewrite <- Hparts in HRO, HRE.
  rewrite (run_sequential_unfold self w Hlen Hseq).
  fold parts. by rewrite HSO, HRO, HSE, HRE.
Qed.

(** X3. In parallel mode, once staging succeeded everywhere, [run]
    returns normally under every schedule, also when [_run] raises in
    some thread: such an exception stays in its thread.  When [run]
    returns every thread has finished, and between the staging events
    and the final message the trace holds exactly the call and the
    return or raise of [_run] for every partition, in some order. *)
Theorem run_parallel_runs_every_partition self w :
  length (recording_list self) ≤ length (output_folders self) →
  parallel self = true →
  quiescent w →
  let parts := zip (recording_list self) (output_folders self) in
  (∀ p, p ∈ parts → adapter_outcome (cls self) Setup p.1 p.2 = None) →
  ∃ w' evs,
    run self w = (Ret tt, w') ∧
    w_trace w' = w_trace w ++ completed Setup parts ++ evs ++
                 (if verbose self
                  then [EvPrint (sorter_name (cls self) +:+ " run time")]
                  else []) ∧
    evs ≡ₚ (parts ≫= λ p, adapter_steps (cls self) Run p.1 p.2) ∧
    quiescent w' ∧ same_store w w'.
Proof.
  intros Hlen Hpar Hq parts Hsetup.
  destruct (sequential_events_completed (cls self) Setup parts Hsetup)
    as [HSE HSO].
  pose proof (sequential_loop (cls self) Setup (output_folders self)
                (recording_list self) 0 w Hlen) as Hloop.
  rewrite drop_0 in Hloop. fold parts in Hloop. rewrite HSO, HSE in Hloop.
  set (w1 := set_trace (w_trace w ++ completed Setup parts) w) in *.
  destruct (parallel_branch_spec self w1 Hlen Hq)
    as (w2 & evs & Hbranch & Htr & Hperm & Hq2 & Hs2).
  exists (set_trace (w_trace w2 ++
            (if verbose self
             then [EvPrint (sorter_name (cls self) +:+ " run time")]
             else [])) w2), evs.
  split; [| split; [| split; [done |]; split; [done |]]].
  - unfold run. erewrite bind_ret; [| exact Hloop].
    rewrite Hpar. simpl negb. cbv iota.
    erewrite bind_ret; [| exact Hbranch].
    destruct (verbose self); [done |].
    unfold mret, M_ret. by rewrite set_trace_id.
  - simpl. rewrite Htr. unfold w1. simpl. by rewrite <- !app_assoc.
  - revert Hs2. unfold same_store, w1, set_trace, set_threads.
    destruct w, w2. simpl. by intros [= -> -> -> -> -> -> -> -> ->].
Qed.


(** X5. With exactly one partition whose parser built a result object,
    [get_result] returns that object itself: a new object with the
    units and the unit properties the parser found, stamped with the
    sampling frequency of the recording.  No group tag is added and no
    merged object is built. *)
Theorem get_result_single_returns_parsed_object self w r f fs us props :
  recording_list self = [r] → output_folders self = f :: fs →
  parse_folder (tool (cls self)) f = Some (us, props) →
  sortings_wf w →
  ∃ n w',
    get_result self w = (Ret (Some n), w') ∧
    w_sortings w !! n = None ∧
    w_sortings w'
    = <[n := Sorting us props (Some (get_sampling_frequency r))]> (w_sortings w) ∧
    tagged_units (w_sortings w') n = (λ u, (u, props !! (u, "group"))) <$> us.
Proof.
  intros Hr Hf Hparse Hwf.
  destruct (get_result_single_some self w r f fs us props Hr Hf Hparse)
    as (w' & Hres & Hs).
  exists (w_next_sorting w), w'. split; [done |]. split; [| split; [done |]].
  - destruct (w_sortings w !! w_next_sorting w) as [o |] eqn:Ho; [| done].
    apply (store_wf_lookup _ _ _ _ Hwf) in Ho. lia.
  - unfold tagged_units, exposed_units, own_units.
    rewrite Hs, lookup_insert_eq, <- list_fmap_compose.
    apply list_fmap_ext. intros i u _. simpl. unfold unit_property. simpl.
    by rewrite lookup_insert_eq.
Qed.

(** X6. With no partition at all, [get_result] never returns: the merged
    object is built from nothing, and reading the sampling frequency of
    the first partition's recording raises [IndexError]. *)
Theorem get_result_no_partition_raises self w :
  recording_list self = [] →
  ∃ w', get_result self w = (Raise IndexError, w').
Proof.
  intros Hr.
  assert (get_result_list self w = (Ret [], w)) as Hlist.
  { unfold get_result_list. by rewrite Hr. }
  destruct (delete_loop_effect self
              (set_sortings (<[w_next_sorting w := MultiSorting [] None]>
                               (w_sortings w)) (S (w_next_sorting w)) w))
    as (w2 & Hdel & _).
  exists w2. unfold get_result.
  erewrite bind_ret; [| exact Hlist].
  erewrite bind_ret; [| reflexivity].
  erewrite bind_ret; [| exact Hdel].
  erewrite bind_raise; [reflexivity |].
  erewrite bind_raise; [reflexivity |].
  unfold index. by rewrite Hr.
Qed.


(** X8. When the lifecycle was not asked to delete its output,
    [get_result] changes nothing but result objects, whether it returns
    or raises: the disk, the parameter sets, the class attributes and the
    trace are as before. *)
Theorem get_result_keeps_output_without_flag self w o w' :
  get_result self w = (o, w') →
  delete_folders self = false →
  results_only w w'.
Proof.
  intros [(e & He & Hr) | (w1 & w2 & H1 & Hdel & H2)]%get_result_stages Hflag;
    [done |].
  rewrite Hflag in Hdel. injection Hdel as <-.
  by eapply results_only_trans.
Qed.

Lemma layout_nonempty (recording : R) grouping_property (base : path) :
  base ≠ [] →
  ∀ f, f ∈ (layout recording grouping_property base).2 → f ≠ [].
Proof.
  intros Hbase f. unfold layout. destruct grouping_property as [key |].
  - destruct (1 <? length (get_sub_extractors_by_property recording key)); simpl.
    + intros (i & -> & _)%list_elem_of_fmap. unfold joinpath. by destruct base.
    + intros ->%list_elem_of_singleton. unfold joinpath. by destruct base.
  - simpl. by intros ->%list_elem_of_singleton.
Qed.

Lemma base_folder_nonempty C output_folder w :
  w_cwd w ≠ [] → base_folder C output_folder w ≠ [].
Proof.
  intros Hcwd. unfold base_folder, absolute.
  destruct (Path _) as [| x p] eqn:Hp; [by rewrite app_nil_r |].
  repeat case_match; try done; by destruct (w_cwd w).
Qed.

(** X11. [__init__] refuses a class that does not report itself
    installed: it raises an [AssertionError] whose message names the
    sorter and carries the installation message of its class, and it
    does so before anything else happens: no parameter set is copied and
    no directory is made. *)
Theorem init_refuses_uninstalled_class C recording output_folder verbose
    grouping_property parallel delete_output_folder w st :
  w_classes w !! cls_id C = Some st →
  installed st = false →
  ∃ msg,
    __init__ C recording output_folder verbose grouping_property parallel
      delete_output_folder w = (Raise (AssertionError msg), w) ∧
    mentions msg (sorter_name C) ∧ mentions msg (installation_mesg C).
Proof.
  intros Hst Hinst. eexists. split; [| split].
  - unfold __init__.
    erewrite bind_ret; [| unfold class_attrs; by rewrite Hst].
    erewrite bind_raise; [reflexivity |]. by rewrite Hinst.
  - by eexists "This sorter ", _.
  - exists ("This sorter " +:+ sorter_name C +:+ " is not installed. "), "".
    by rewrite str_app_nil_r, !str_app_assoc.
Qed.

(** X12. For a class that requires channel locations, [__init__] raises
    [RuntimeError] when the recording has no ['location'] among its
    shared channel properties, again before anything is copied or
    created. *)
Theorem init_requires_channel_locations C recording output_folder verbose
    grouping_property parallel delete_output_folder w st :
  w_classes w !! cls_id C = Some st →
  installed st = true →
  requires_locations C = true →
  "location" ∉ get_shared_channel_property_names recording →
  __init__ C recording output_folder verbose grouping_property parallel
    delete_output_folder w
  = (Raise (RuntimeError "Channel locations are required for this spike sorter."),
     w).
Proof.
  intros Hst Hinst Hreq Hloc. unfold __init__.
  erewrite bind_ret; [| unfold class_attrs; by rewrite Hst].
  erewrite bind_ret; [| by rewrite Hinst].
  erewrite bind_raise; [reflexivity |].
  rewrite Hreq. by rewrite bool_decide_false.
Qed.


(** X14. The working directories of an instance [__init__] returned are
    pairwise distinct and all lie at or below the base output directory;
    there is one per partition, and still one when the grouping key
    yields no partition. *)
Theorem init_working_directories_distinct C recording output_folder verbose
    grouping_property parallel delete_output_folder w self w' :
  __init__ C recording output_folder verbose grouping_property parallel
    delete_output_folder w = (Ret self, w') →
  NoDup (output_folders self) ∧
  (∀ f, f ∈ output_folders self →
        base_folder C output_folder w `prefix_of` f) ∧
  length (output_folders self) = Nat.max 1 (length (recording_list self)).
Proof.
  intros (st & d & w1 & _ & _ & _ & _ & _ & ->)%init_inv. simpl.
  set (base := base_folder C output_folder w).
  unfold layout. destruct grouping_property as [key |].
  - destruct (1 <? length (get_sub_extractors_by_property recording key))
      eqn:Hn; simpl.
    + apply Nat.ltb_lt in Hn. split; [| split].
      * apply NoDup_fmap_2; [| apply NoDup_seq].
        intros i j Hij. unfold joinpath in Hij.
        apply app_inv_head in Hij. injection Hij as Hij.
        by apply (inj pretty) in Hij.
      * intros f (i & -> & _)%list_elem_of_fmap. by apply prefix_app_r.
      * rewrite length_fmap, length_seq. lia.
    + apply Nat.ltb_ge in Hn. split; [apply NoDup_singleton |]. split.
      * intros f ->%list_elem_of_singleton. by apply prefix_app_r.
      * lia.
  - simpl. split; [apply NoDup_singleton |]. split; [| done].
    by intros f ->%list_elem_of_singleton.
Qed.

End lifecycle_extras.

(** * The further properties on the small registry *)

Lemma run_stops_at_first_failing_setup_witness :
  let self := (failing_instance true true).1 in
  let w := (failing_instance true true).2 in
  run self w
  = (Raise (ToolError "no room"),
     set_trace (w_trace w ++
                completed Setup [toy_part 0 10 "0"; toy_part 1 11 "1"] ++
                [EvCall Setup (toy_part 2 12 "2").1 (toy_part 2 12 "2").2;
                 EvRaise Setup (toy_part 2 12 "2").1 (toy_part 2 12 "2").2
                   (ToolError "no room")]) w).
Proof.
  apply (run_stops_at_first_failing_setup (failing_instance true true).1
           (failing_instance true true).2
           [toy_part 0 10 "0"; toy_part 1 11 "1"]
           (toy_part 2 12 "2").1 (toy_part 2 12 "2").2 (ToolError "no room") []).
  - vm_compute. lia.
  - by_computation.
  - apply Forall_forall. repeat constructor.
  - by_computation.
Defined.

Lemma run_sequential_stops_at_first_failing_run_witness :
  let self := (failing_instance false false).1 in
  let w := (failing_instance false false).2 in
  run self w
  = (Raise (ToolError "crash"),
     set_trace (w_trace w ++
                completed Setup
                  [toy_part 0 10 "0"; toy_part 1 11 "1"; toy_part 2 12 "2"] ++
                completed Run [toy_part 0 10 "0"] ++
                [EvCall Run (toy_part 1 11 "1").1 (toy_part 1 11 "1").2;
                 EvRaise Run (toy_part 1 11 "1").1 (toy_part 1 11 "1").2
                   (ToolError "crash")]) w).
Proof.
  apply (run_sequential_stops_at_first_failing_run
           (failing_instance false false).1 (failing_instance false false).2
           [toy_part 0 10 "0"] (toy_part 1 11 "1").1 (toy_part 1 11 "1").2
           (ToolError "crash") [toy_part 2 12 "2"]).
  - vm_compute. lia.
  - by_computation.
  - by_computation.
  - apply Forall_forall. repeat constructor.
  - apply Forall_forall. repeat constructor.
  - by_computation.
Defined.

(** The thread of the second partition crashes; [run] returns. *)
Lemma run_parallel_runs_every_partition_witness :
  let self := (failing_instance false true).1 in
  let w := (failing_instance false true).2 in
  let parts := zip (recording_list self) (output_folders self) in
  ∃ w' evs,
    run self w = (Ret tt, w') ∧
    w_trace w' = w_trace w ++ completed Setup parts ++ evs ++ [] ∧
    evs ≡ₚ (parts ≫= λ p, adapter_steps (cls self) Run p.1 p.2) ∧
    quiescent w' ∧ same_store w w'.
Proof.
  apply (run_parallel_runs_every_partition (failing_instance false true).1
           (failing_instance false true).2).
  - vm_compute. lia.
  - by_computation.
  - vm_compute. constructor.
  - apply Forall_forall. repeat constructor.
Defined.


Lemma get_result_single_returns_parsed_object_witness :
  ∃ n w',
    get_result single_instance.1 single_instance.2 = (Ret (Some n), w') ∧
    w_sortings single_instance.2 !! n = None ∧
    w_sortings w'
    = <[n := Sorting [7%Z] ∅ (Some (AInt 30000))]> (w_sortings single_instance.2) ∧
    tagged_units (w_sortings w') n = [(7%Z, None)].
Proof.
  destruct (get_result_single_returns_parsed_object single_instance.1
              single_instance.2 one_group ["/"; "work"; "tmp_kilosort"] []
              [7%Z] ∅) as (n & w' & Hres & Hnew & Hstore & Hunits).
  - by_computation.
  - by_computation.
  - by_computation.
  - decide_it.
  - exists n, w'. split; [exact Hres |]. split; [exact Hnew |].
    split; [exact Hstore |]. rewrite Hunits. reflexivity.
Defined.

Lemma get_result_no_partition_raises_witness :
  ∃ w', get_result empty_instance.1 empty_instance.2 = (Raise IndexError, w').
Proof.
  apply (get_result_no_partition_raises empty_instance.1 empty_instance.2).
  by_computation.
Defined.


Lemma get_result_keeps_output_without_flag_witness :
  results_only grouped_instance.2
    (get_result grouped_instance.1 grouped_instance.2).2.
Proof.
  apply (get_result_keeps_output_without_flag grouped_instance.1
           grouped_instance.2
           (get_result grouped_instance.1 grouped_instance.2).1).
  - apply surjective_pairing.
  - by_computation.
Defined.


(** Kilosort is not found when the package is imported without
    KILOSORT_PATH. *)
Lemma init_refuses_uninstalled_class_witness :
  ∃ msg,
    __init__ toy_KilosortSorter one_group None false None false false
      imported_plain = (Raise (AssertionError msg), imported_plain) ∧
    mentions msg "kilosort" ∧
    mentions msg (installation_mesg toy_KilosortSorter).
Proof.
  eapply (init_refuses_uninstalled_class toy_KilosortSorter one_group None
            false None false false imported_plain).
  - by_computation.
  - reflexivity.
Defined.

Lemma init_requires_channel_locations_witness :
  __init__ probe_class one_group None false None false false probe_world
  = (Raise (RuntimeError "Channel locations are required for this spike sorter."),
     probe_world).
Proof.
  eapply (init_requires_channel_locations probe_class one_group None false
            None false false probe_world).
  - by_computation.
  - reflexivity.
  - reflexivity.
  - decide_it.
Defined.


Lemma init_working_directories_distinct_witness :
  ∃ self w',
    __init__ toy_KilosortSorter three_groups None false (Some "group") false
      false (imported []) = (Ret self, w') ∧
    NoDup (output_folders self) ∧
    (∀ f, f ∈ output_folders self →
          base_folder toy_KilosortSorter None (imported []) `prefix_of` f) ∧
    length (output_folders self) = Nat.max 1 (length (recording_list self)).
Proof.
  destruct (__init__ toy_KilosortSorter three_groups None false (Some "group")
              false false (imported [])) as [[self | e] w'] eqn:Hinit.
  - exists self, w'. split; [reflexivity |].
    exact (init_working_directories_distinct _ _ _ _ _ _ _ _ _ _ Hinit).
  - apply (f_equal fst) in Hinit. vm_compute in Hinit. discriminate Hinit.
Defined.

